(** * takopi: runner, session store, config migrations, progress renderer
      and log redaction, embedded from the Python sources.

    Python values are modelled as follows.
    - [str] and [bytes] are [string], the characters of a [str] being its
      code points, taken below 256 (white space is what [str.isspace] says
      of these code points, U+0085 and U+00A0 included); the log
      messages of [logging.py] are lists of code points of any size
      instead, since the regular expressions there look at Unicode classes.
    - [int] is [Z]; [bool] is [bool]; [None]-able values are [option].
    - [dict] is an association list kept in insertion order (module [PyDict]),
      since Python dictionaries iterate in insertion order and the code sorts
      [dict.items()] with a stable sort.
    - [time()] readings are integers (a fixed resolution of the wall clock);
      the code only compares them.
    - raised exceptions are explicit results. *)

From Stdlib Require Import List String Ascii ZArith Bool Lia Arith.
From Stdlib Require Import Numbers.DecimalString.
From Stdlib Require Import Numbers.DecimalZ Numbers.DecimalPos.
From Stdlib Require Import Sorting.Permutation Sorting.Sorted.
Import ListNotations.

Set Warnings "-register-all".

Local Open Scope string_scope.
Local Open Scope list_scope.

Notation "a ^^ b" := (String.append a b) (at level 60, right associativity).

(** [str(n)] for a Python integer. *)
Definition str_int (n : Z) : string := NilZero.string_of_int (Z.to_int n).

(** Truthiness of a Python [str]: only the empty string is falsy. *)
Definition truthy (s : string) : bool :=
  match s with EmptyString => false | String _ _ => true end.

(** Truthiness of [str | None]. *)
Definition truthy_opt (o : option string) : bool :=
  match o with None => false | Some s => truthy s end.

(** [s.lstrip()], [s.rstrip()] and [s.strip()] for a given notion of
    white space. *)
Fixpoint lstrip_by (space : ascii -> bool) (s : string) : string :=
  match s with
  | EmptyString => EmptyString
  | String c s' => if space c then lstrip_by space s' else s
  end.

Fixpoint rstrip_by (space : ascii -> bool) (s : string) : string :=
  match s with
  | EmptyString => EmptyString
  | String c s' =>
      match rstrip_by space s' with
      | EmptyString => if space c then EmptyString else String c EmptyString
      | r => String c r
      end
  end.

Definition strip_by (space : ascii -> bool) (s : string) : string :=
  rstrip_by space (lstrip_by space s).

(** [str.isspace] on the code points below 256: the ASCII white space
    9-13 and 28-32, U+0085 (next line) and U+00A0 (no-break space). *)
Definition is_space (c : ascii) : bool :=
  let n := nat_of_ascii c in
  ((9 <=? n) && (n <=? 13) || (28 <=? n) && (n <=? 32)
   || (n =? 133) || (n =? 160))%nat.

(** [s.strip()] on a [str]. *)
Definition strip (s : string) : string := strip_by is_space s.

(** The one-character text U+00A0, white space that is not ASCII. *)
Definition no_break_space : string := String "160"%char EmptyString.

Example strip_no_break_space :
  strip (no_break_space ^^ "per_project_chat" ^^ no_break_space)
  = "per_project_chat"
  /\ strip no_break_space = EmptyString.
Proof. split; reflexivity. Qed.

(** ** Python dictionaries with insertion order *)

Module PyDict.

Section Dict.
Context {V : Type}.

Definition dict := list (string * V).

(** [d.get(k)] *)
Fixpoint get (d : dict) (k : string) : option V :=
  match d with
  | [] => None
  | (k', v) :: d' => if String.eqb k' k then Some v else get d' k
  end.

(** [k in d] *)
Definition mem (d : dict) (k : string) : bool :=
  match get d k with Some _ => true | None => false end.

(** [d[k] = v]: an existing key keeps its position, a new key goes last. *)
Fixpoint set (d : dict) (k : string) (v : V) : dict :=
  match d with
  | [] => [(k, v)]
  | (k', v') :: d' =>
      if String.eqb k' k then (k', v) :: d' else (k', v') :: set d' k v
  end.

(** [del d[k]] / [d.pop(k, None)] *)
Definition del (d : dict) (k : string) : dict :=
  filter (fun kv => negb (String.eqb (fst kv) k)) d.

(** [d.setdefault(k, v)] (the dictionary after the call) *)
Definition setdefault (d : dict) (k : string) (v : V) : dict :=
  if mem d k then d else set d k v.

Definition keys (d : dict) : list string := map fst d.

End Dict.

Arguments dict V : clear implicits.

End PyDict.

Import PyDict.

(** ** model.py: resume tokens *)

Module ResumeToken.
Record t := mk { engine : string; value : string }.

Definition eqb (a b : t) : bool :=
  String.eqb (engine a) (engine b) && String.eqb (value a) (value b).
End ResumeToken.

(** ** telegram/chat_sessions.py *)

Module ChatSessions.

Definition STATE_VERSION : Z := 2.
Definition MAX_SESSIONS_PER_CHAT : nat := 20.

Module SessionInfo.
Record t := mk {
  resume : string;
  engine : string;
  title : option string;
  first_message : option string;
  created_at : Z;
  updated_at : Z
}.

Definition with_updated_at (s : t) (now : Z) : t :=
  mk (resume s) (engine s) (title s) (first_message s) (created_at s) now.

Definition with_first_message (s : t) (m : option string) : t :=
  mk (resume s) (engine s) (title s) m (created_at s) (updated_at s).
End SessionInfo.

(** [_ChatState]; [sessions] is the legacy single-session field, a mapping
    engine -> old entry, each old entry a mapping of its own. *)
Record _ChatState := mkChat {
  history : dict SessionInfo.t;
  active : dict string;
  sessions : option (dict (dict string))
}.

Record _ChatSessionsState := mkState {
  version : Z;
  cwd : option string;
  chats : dict _ChatState
}.

Definition _chat_key (chat_id : Z) (owner_id : option Z) : string :=
  let owner := match owner_id with None => "chat" | Some o => str_int o end in
  str_int chat_id ^^ ":" ^^ owner.

Definition _new_state : _ChatSessionsState := mkState STATE_VERSION None [].

(** Modelled from the spec: the [JsonStateStore] base class is not among the
    sources.  The store keeps the state in memory; [file_changed] holds the
    contents of the state file when its mtime has advanced since the last
    load or save (another writer), and [ticks] counts the calls of [time()]
    made so far. *)
Record Store := mkStore {
  _state : _ChatSessionsState;
  file_changed : option _ChatSessionsState;
  ticks : nat
}.

(** The state an operation works on once it has reloaded. *)
Definition current (w : Store) : _ChatSessionsState :=
  match file_changed w with Some s => s | None => _state w end.

(** State-passing computations over the store. *)
Definition M (A : Type) : Type := Store -> A * Store.

Definition ret {A} (a : A) : M A := fun w => (a, w).
Definition bind {A B} (m : M A) (f : A -> M B) : M B :=
  fun w => let (a, w') := m w in f a w'.

Notation "x <- m ;; k" := (bind m (fun x => k))
  (at level 61, m at next level, right associativity).
Notation "m ;;; k" := (bind m (fun _ => k))
  (at level 61, right associativity).

Definition get_state : M _ChatSessionsState := fun w => (_state w, w).
Definition put_state (s : _ChatSessionsState) : M unit :=
  fun w => (tt, mkStore s (file_changed w) (ticks w)).

(** Insertion sort, stable like [list.sort]: an element goes before the
    elements of equal key that followed it in the input. *)
Fixpoint insert_by {A} (key : A -> Z) (x : A) (l : list A) : list A :=
  match l with
  | [] => [x]
  | y :: l' => if (key x <=? key y)%Z then x :: y :: l'
               else y :: insert_by key x l'
  end.

Definition sort_by {A} (key : A -> Z) (l : list A) : list A :=
  fold_right (insert_by key) [] l.

Section Store.

(** [time()]: the reading returned by the n-th call. *)
Variable wall_clock : nat -> Z.
(** [str(p.expanduser().resolve())] for a path [p]. *)
Variable resolve_path : string -> string.
(** [Path.cwd()] of the process. *)
Variable process_cwd : string.

Definition time : M Z :=
  fun w => (wall_clock (ticks w), mkStore (_state w) (file_changed w) (S (ticks w))).

(** Modelled from the spec: every operation first reloads from disk if the
    file's mtime has advanced since the last load. *)
Definition _reload_locked_if_needed : M unit :=
  fun w => (tt, mkStore (current w) None (ticks w)).

(** Modelled from the spec: writes the state file atomically; afterwards the
    file and the memory agree. *)
Definition _save_locked : M unit :=
  fun w => (tt, mkStore (_state w) None (ticks w)).

(** One legacy entry [engine -> old_data] of [_migrate_chat_state]. *)
Definition migrate_entry (now : Z) (chat : _ChatState)
    (entry : string * dict string) : _ChatState :=
  let (engine, old_data) := entry in
  match get old_data "resume" with
  | Some resume =>
      if truthy resume && negb (mem (history chat) resume) then
        mkChat
          (set (history chat) resume
             (SessionInfo.mk resume engine None None now now))
          (set (active chat) engine resume)
          (sessions chat)
      else chat
  | None => chat
  end.

Definition _migrate_chat_state (chat : _ChatState) : M _ChatState :=
  match sessions chat with
  | Some legacy =>
      now <- time ;;
      let chat' := fold_left (migrate_entry now) legacy chat in
      ret (mkChat (history chat') (active chat') None)
  | None => ret chat
  end.

Fixpoint migrate_chats (cs : dict _ChatState) : M (dict _ChatState) :=
  match cs with
  | [] => ret []
  | (k, chat) :: rest =>
      chat' <- _migrate_chat_state chat ;;
      rest' <- migrate_chats rest ;;
      ret ((k, chat') :: rest')
  end.

Definition _migrate_if_needed : M unit :=
  st <- get_state ;;
  cs <- migrate_chats (chats st) ;;
  put_state (mkState (version st) (cwd st) cs).

Definition _get_chat_locked (chat_id : Z) (owner_id : option Z)
    : M (option _ChatState) :=
  st <- get_state ;;
  ret (get (chats st) (_chat_key chat_id owner_id)).

(** Returns the chat entry, creating an empty one when absent. *)
Definition _ensure_chat_locked (chat_id : Z) (owner_id : option Z)
    : M _ChatState :=
  st <- get_state ;;
  let key := _chat_key chat_id owner_id in
  match get (chats st) key with
  | Some entry => ret entry
  | None =>
      let entry := mkChat [] [] None in
      put_state (mkState (version st) (cwd st) (set (chats st) key entry)) ;;;
      ret entry
  end.

(** The chat object is shared with the state: a mutation of it is written
    back under its key. *)
Definition update_chat (chat_id : Z) (owner_id : option Z)
    (chat : _ChatState) : M unit :=
  st <- get_state ;;
  put_state (mkState (version st) (cwd st)
               (set (chats st) (_chat_key chat_id owner_id) chat)).

Definition get_session_resume (chat_id : Z) (owner_id : option Z)
    (engine : string) : M (option ResumeToken.t) :=
  _reload_locked_if_needed ;;;
  _migrate_if_needed ;;;
  ochat <- _get_chat_locked chat_id owner_id ;;
  match ochat with
  | None => ret None
  | Some chat =>
      match get (active chat) engine with
      | None => ret None
      | Some resume_id =>
          if negb (truthy resume_id) then ret None
          else
            match get (history chat) resume_id with
            | None => ret None
            | Some session =>
                ret (Some (ResumeToken.mk engine (SessionInfo.resume session)))
            end
      end
  end.

Definition sync_startup_cwd (p : string) : M bool :=
  let normalized := resolve_path p in
  _reload_locked_if_needed ;;;
  st <- get_state ;;
  let previous := cwd st in
  let differs :=
    match previous with
    | Some c => negb (String.eqb c normalized)
    | None => false
    end in
  let st1 := if differs then mkState (version st) (cwd st) [] else st in
  let changed :=
    match previous with
    | Some c => negb (String.eqb c normalized)
    | None => true
    end in
  (if changed
   then put_state (mkState (version st1) (Some normalized) (chats st1)) ;;;
        _save_locked
   else put_state st1) ;;;
  ret differs.

(** [first_message[:100] if first_message else None] *)
Definition clip_first_message (first_message : option string) : option string :=
  match first_message with
  | Some m => if truthy m then Some (substring 0 100 m) else None
  | None => None
  end.

(** The sessions of one engine, in dictionary order. *)
Definition engine_sessions (h : dict SessionInfo.t) (engine : string)
    : list (string * SessionInfo.t) :=
  filter (fun rs => String.eqb (SessionInfo.engine (snd rs)) engine) h.

(** The body of the removal loop of [_prune_sessions_locked]. *)
Definition prune_step (active_rid : option string)
    (h : dict SessionInfo.t) (rs : string * SessionInfo.t)
    : dict SessionInfo.t :=
  match active_rid with
  | Some a => if String.eqb a (fst rs) then h else del h (fst rs)
  | None => del h (fst rs)
  end.

Definition _prune_sessions_locked (chat : _ChatState) (engine : string)
    : _ChatState :=
  let es := engine_sessions (history chat) engine in
  if (List.length es <=? MAX_SESSIONS_PER_CHAT)%nat then chat
  else
    let sorted := sort_by (fun rs => SessionInfo.updated_at (snd rs)) es in
    let to_remove := List.length es - MAX_SESSIONS_PER_CHAT in
    mkChat
      (fold_left (prune_step (get (active chat) engine))
         (firstn to_remove sorted) (history chat))
      (active chat) (sessions chat).

(** The body of [set_session_resume] on the chat entry, once [now] has
    been read: upsert the session, point [active] at it, prune. *)
Definition set_session_locked (chat : _ChatState) (token : ResumeToken.t)
    (first_message : option string) (now : Z) : _ChatState :=
  let history1 :=
    match get (history chat) (ResumeToken.value token) with
    | Some existing =>
        let e1 := SessionInfo.with_updated_at existing now in
        let e2 :=
          if truthy_opt first_message
             && negb (truthy_opt (SessionInfo.first_message existing))
          then SessionInfo.with_first_message e1
                 (option_map (substring 0 100) first_message)
          else e1 in
        set (history chat) (ResumeToken.value token) e2
    | None =>
        set (history chat) (ResumeToken.value token)
          (SessionInfo.mk (ResumeToken.value token) (ResumeToken.engine token)
             None (clip_first_message first_message) now now)
    end in
  let chat1 :=
    mkChat history1
      (set (active chat) (ResumeToken.engine token) (ResumeToken.value token))
      (sessions chat) in
  _prune_sessions_locked chat1 (ResumeToken.engine token).

Definition set_session_resume (chat_id : Z) (owner_id : option Z)
    (token : ResumeToken.t) (first_message : option string) : M unit :=
  _reload_locked_if_needed ;;;
  _migrate_if_needed ;;;
  st <- get_state ;;
  (match cwd st with
   | None => put_state (mkState (version st) (Some (resolve_path process_cwd))
                          (chats st))
   | Some _ => ret tt
   end) ;;;
  chat <- _ensure_chat_locked chat_id owner_id ;;
  now <- time ;;
  update_chat chat_id owner_id (set_session_locked chat token first_message now) ;;;
  _save_locked.

End Store.

(** *** Facts about dictionaries *)

Lemma get_set_same {V} (d : dict V) k v : get (set d k v) k = Some v.
Proof.
  induction d as [|[k' v'] d IH]; simpl.
  - now rewrite String.eqb_refl.
  - destruct (String.eqb k' k) eqn:E; simpl; rewrite E; auto.
Qed.

Lemma get_set_other {V} (d : dict V) k k' v :
  k <> k' -> get (set d k v) k' = get d k'.
Proof.
  intros Hne. induction d as [|[k0 v0] d IH]; simpl.
  - destruct (String.eqb_spec k k'); congruence.
  - destruct (String.eqb_spec k0 k) as [->|Hk]; simpl.
    + destruct (String.eqb_spec k k'); congruence.
    + now rewrite IH.
Qed.

Lemma get_del_other {V} (d : dict V) k k' :
  k <> k' -> get (del d k) k' = get d k'.
Proof.
  intros Hne. unfold del. induction d as [|[k0 v0] d IH]; simpl; auto.
  destruct (String.eqb_spec k0 k) as [->|Hk]; simpl.
  - destruct (String.eqb_spec k k'); congruence.
  - now rewrite IH.
Qed.

Lemma get_In {V} (d : dict V) k v : get d k = Some v -> In (k, v) d.
Proof.
  induction d as [|[k0 v0] d IH]; simpl; [discriminate|].
  destruct (String.eqb_spec k0 k) as [->|Hk]; intros H.
  - left. congruence.
  - right. auto.
Qed.

Lemma In_set {V} (d : dict V) k v k' v' :
  In (k', v') (set d k v) -> (k', v') = (k, v) \/ In (k', v') d.
Proof.
  induction d as [|[k0 v0] d IH]; simpl.
  - intros [H|[]]; auto.
  - destruct (String.eqb_spec k0 k) as [->|Hk]; simpl; intros [H|H]; auto.
    destruct (IH H); auto.
Qed.

(** *** The data-model invariant: history entries are keyed by their id *)

Definition keyed (chat : _ChatState) : Prop :=
  forall rid s, In (rid, s) (history chat) -> SessionInfo.resume s = rid.

Definition history_keyed (st : _ChatSessionsState) : Prop :=
  forall key chat, In (key, chat) (chats st) -> keyed chat.

Lemma migrate_entry_keyed now chat e :
  keyed chat -> keyed (migrate_entry now chat e).
Proof.
  intros Hk. destruct e as [engine old]. unfold migrate_entry.
  destruct (get old "resume") as [r|]; auto.
  destruct (truthy r && negb (mem (history chat) r)); auto.
  intros rid s Hin. simpl in Hin.
  apply In_set in Hin. destruct Hin as [Heq|Hin]; auto.
  inversion Heq; subst. reflexivity.
Qed.

Lemma migrate_entry_sessions now chat e :
  sessions (migrate_entry now chat e) = sessions chat.
Proof.
  destruct e as [engine old]. unfold migrate_entry.
  destruct (get old "resume") as [r|]; auto.
  destruct (truthy r && negb (mem (history chat) r)); auto.
Qed.

Lemma fold_migrate_keyed now legacy : forall chat,
  keyed chat -> keyed (fold_left (migrate_entry now) legacy chat).
Proof.
  induction legacy as [|e l IH]; simpl; auto.
  intros chat Hk. apply IH. now apply migrate_entry_keyed.
Qed.

(** Pruning never touches the entry the active pointer names. *)
Lemma prune_keeps_active a l : forall h,
  get (fold_left (prune_step (Some a)) l h) a = get h a.
Proof.
  induction l as [|rs l IH]; simpl; auto.
  intros h. rewrite IH. unfold prune_step.
  destruct (String.eqb_spec a (fst rs)) as [E|E]; auto.
  apply get_del_other. congruence.
Qed.

Lemma _prune_sessions_locked_active chat engine :
  active (_prune_sessions_locked chat engine) = active chat.
Proof.
  unfold _prune_sessions_locked.
  destruct (_ <=? _)%nat; reflexivity.
Qed.

Lemma _prune_sessions_locked_sessions chat engine :
  sessions (_prune_sessions_locked chat engine) = sessions chat.
Proof.
  unfold _prune_sessions_locked.
  destruct (_ <=? _)%nat; reflexivity.
Qed.

Lemma _prune_sessions_locked_keeps chat engine a :
  get (active chat) engine = Some a ->
  get (history (_prune_sessions_locked chat engine)) a = get (history chat) a.
Proof.
  intros Ha. unfold _prune_sessions_locked.
  destruct (_ <=? _)%nat; [reflexivity|]. simpl.
  rewrite Ha. apply prune_keeps_active.
Qed.

(** After the locked body ran, the active pointer of the token's engine is
    the token's value and resolves in the history to an entry of that id. *)
Lemma set_session_locked_spec chat token fm now :
  keyed chat ->
  let chat' := set_session_locked chat token fm now in
  sessions chat' = sessions chat
  /\ get (active chat') (ResumeToken.engine token)
     = Some (ResumeToken.value token)
  /\ exists s, get (history chat') (ResumeToken.value token) = Some s
               /\ SessionInfo.resume s = ResumeToken.value token.
Proof.
  intros Hk chat'. subst chat'. unfold set_session_locked.
  rewrite _prune_sessions_locked_sessions, _prune_sessions_locked_active.
  cbn [sessions active]. rewrite get_set_same.
  split; [reflexivity|]. split; [reflexivity|].
  rewrite (_prune_sessions_locked_keeps _ _ (ResumeToken.value token))
    by (cbn [active]; apply get_set_same).
  cbn [history].
  destruct (get (history chat) (ResumeToken.value token)) as [ex|] eqn:Hex;
    rewrite get_set_same; eexists; split; try reflexivity.
  apply get_In in Hex. apply Hk in Hex.
  destruct (_ && _); cbn; assumption.
Qed.

Section StoreFacts.

Variable wall_clock : nat -> Z.
Variable resolve_path : string -> string.
Variable process_cwd : string.

(** The state an operation sees once it has reloaded and migrated. *)
Definition loaded (w : Store) : Store :=
  snd ((_reload_locked_if_needed ;;; _migrate_if_needed wall_clock) w).

(** C6: [sync_startup_cwd p] returns true exactly when a working directory
    was stored before and differs from the normalized [p]; when it returns
    true the chats mapping is empty afterwards; and after every call the
    stored working directory is the normalized path. *)
Theorem sync_startup_cwd_spec (w : Store) (p : string) :
  let r := fst (sync_startup_cwd resolve_path p w) in
  let w' := snd (sync_startup_cwd resolve_path p w) in
  (r = true <-> exists c, cwd (current w) = Some c /\ c <> resolve_path p)
  /\ (r = true -> chats (current w') = [])
  /\ cwd (current w') = Some (resolve_path p).
Proof.
  assert (Hcur : forall st, current (mkStore st None (ticks w)) = st) by reflexivity.
  unfold sync_startup_cwd, bind, ret, get_state, put_state,
    _reload_locked_if_needed, _save_locked.
  cbn [fst snd _state file_changed ticks].
  remember (current w) as st eqn:Est. clear Est.
  destruct (cwd st) as [c|] eqn:Hc; cbn [fst snd _state file_changed ticks].
  - destruct (String.eqb_spec c (resolve_path p)) as [->|Hne];
      cbn [negb fst snd _state file_changed ticks version cwd chats];
      rewrite ?Hcur; cbn [version cwd chats].
    + repeat split; try discriminate; auto.
      intros [c' [Hc' Hn]]. congruence.
    + repeat split; auto.
      exists c. split; [reflexivity|assumption].
  - rewrite ?Hcur; cbn [version cwd chats]. repeat split; try discriminate.
    intros [c' [Hc' _]]. discriminate.
Qed.

(** C10: when the chat entry is absent, or the engine has no active entry,
    or the active entry names a resume id with no entry in the history,
    [get_session_resume] returns [None]; it neither raises nor builds a
    token, and leaves the loaded state as it is. *)
Theorem get_session_resume_dangling (w : Store) (chat_id : Z)
    (owner_id : option Z) (engine : string) :
  let st := _state (loaded w) in
  let key := _chat_key chat_id owner_id in
  (get (chats st) key = None
   \/ (exists chat, get (chats st) key = Some chat
                    /\ get (active chat) engine = None)
   \/ (exists chat rid, get (chats st) key = Some chat
                        /\ get (active chat) engine = Some rid
                        /\ get (history chat) rid = None)) ->
  get_session_resume wall_clock chat_id owner_id engine w = (None, loaded w).
Proof.
  unfold loaded, get_session_resume, bind, ret, _get_chat_locked, get_state.
  simpl.
  destruct (_migrate_if_needed wall_clock (mkStore (current w) None (ticks w)))
    as [u w1]; simpl.
  intros [H | [[chat [Hc Ha]] | [chat [rid [Hc [Ha Hh]]]]]].
  - now rewrite H.
  - now rewrite Hc, Ha.
  - rewrite Hc, Ha. destruct (truthy rid); simpl; [|reflexivity].
    now rewrite Hh.
Qed.

Lemma _migrate_chat_state_spec chat w :
  let r := _migrate_chat_state wall_clock chat w in
  sessions (fst r) = None
  /\ (keyed chat -> keyed (fst r))
  /\ _state (snd r) = _state w
  /\ file_changed (snd r) = file_changed w
  /\ (sessions chat = None -> fst r = chat).
Proof.
  unfold _migrate_chat_state, bind, ret, time.
  destruct (sessions chat) as [legacy|] eqn:Hs; cbn.
  - repeat split; auto; try discriminate.
    intros Hk rid s Hin. cbn in Hin.
    exact (fold_migrate_keyed _ legacy chat Hk rid s Hin).
  - repeat split; auto.
Qed.

Lemma migrate_chats_store cs : forall w,
  _state (snd (migrate_chats wall_clock cs w)) = _state w
  /\ file_changed (snd (migrate_chats wall_clock cs w)) = file_changed w.
Proof.
  induction cs as [|[k chat] cs IH]; intros w; cbn; auto.
  unfold bind, ret.
  pose proof (_migrate_chat_state_spec chat w) as H. cbv zeta in H.
  destruct (_migrate_chat_state wall_clock chat w) as [c' w1]. cbn in H.
  destruct H as (_ & _ & Hst & Hfc & _).
  specialize (IH w1).
  destruct (migrate_chats wall_clock cs w1) as [cs' w2]. cbn in *.
  destruct IH. split; congruence.
Qed.

(** What a lookup finds after the migration pass. *)
Lemma migrate_chats_get cs key : forall w,
  match get (fst (migrate_chats wall_clock cs w)) key with
  | Some c' => exists c, get cs key = Some c
                 /\ sessions c' = None
                 /\ (keyed c -> keyed c')
                 /\ (sessions c = None -> c' = c)
  | None => get cs key = None
  end.
Proof.
  induction cs as [|[k chat] cs IH]; intros w; cbn; auto.
  unfold bind, ret.
  pose proof (_migrate_chat_state_spec chat w) as H. cbv zeta in H.
  destruct (_migrate_chat_state wall_clock chat w) as [c' w1]. cbn in H.
  specialize (IH w1).
  destruct (migrate_chats wall_clock cs w1) as [cs' w2]. cbn in *.
  destruct (String.eqb k key); auto.
  exists chat. intuition.
Qed.

Lemma _migrate_if_needed_spec w :
  let w' := snd (_migrate_if_needed wall_clock w) in
  file_changed w' = file_changed w
  /\ version (_state w') = version (_state w)
  /\ cwd (_state w') = cwd (_state w)
  /\ chats (_state w') = fst (migrate_chats wall_clock (chats (_state w)) w).
Proof.
  unfold _migrate_if_needed, bind, ret, get_state, put_state.
  pose proof (migrate_chats_store (chats (_state w)) w) as [H1 H2].
  destruct (migrate_chats wall_clock (chats (_state w)) w) as [cs' w1].
  cbn in *. auto.
Qed.

Lemma get_In_chats (st : _ChatSessionsState) key chat :
  history_keyed st -> get (chats st) key = Some chat -> keyed chat.
Proof. intros Hk Hg. apply (Hk key). now apply get_In. Qed.

Lemma keyed_empty : keyed (mkChat [] [] None).
Proof. intros rid s []. Qed.

Lemma bind_snd {A B} (m : M A) (f : A -> M B) w :
  snd (bind m f w) = snd (f (fst (m w)) (snd (m w))).
Proof. unfold bind. now destruct (m w). Qed.

Lemma bind_fst {A B} (m : M A) (f : A -> M B) w :
  fst (bind m f w) = fst (f (fst (m w)) (snd (m w))).
Proof. unfold bind. now destruct (m w). Qed.

(** The post-condition of [set_session_resume] on the chat it was called
    on. *)
Definition set_post (chat_id : Z) (owner_id : option Z)
    (token : ResumeToken.t) (w' : Store) : Prop :=
  file_changed w' = None
  /\ exists chat,
       get (chats (_state w')) (_chat_key chat_id owner_id) = Some chat
       /\ sessions chat = None
       /\ get (active chat) (ResumeToken.engine token)
          = Some (ResumeToken.value token)
       /\ exists s, get (history chat) (ResumeToken.value token) = Some s
                    /\ SessionInfo.resume s = ResumeToken.value token.

(** The part of [set_session_resume] that follows the migration. *)
Lemma set_session_resume_tail chat_id owner_id token fm wx :
  (forall c, get (chats (_state wx)) (_chat_key chat_id owner_id) = Some c ->
             sessions c = None /\ keyed c) ->
  set_post chat_id owner_id token
    (snd ((chat <- _ensure_chat_locked chat_id owner_id ;;
           now <- time wall_clock ;;
           update_chat chat_id owner_id
             (set_session_locked chat token fm now) ;;;
           _save_locked) wx)).
Proof.
  intros Hc.
  unfold _ensure_chat_locked, bind, ret, get_state, put_state, update_chat,
    _save_locked, time, set_post.
  destruct (get (chats (_state wx)) (_chat_key chat_id owner_id))
    as [c|] eqn:Hg; cbn.
  - destruct (Hc c eq_refl) as [Hs Hk].
    split; [reflexivity|]. eexists. rewrite get_set_same.
    split; [reflexivity|].
    pose proof (set_session_locked_spec c token fm (wall_clock (ticks wx)) Hk)
      as Hp.
    cbv zeta in Hp. destruct Hp as (Hs' & Ha & Hh).
    rewrite Hs'. auto.
  - split; [reflexivity|]. eexists. rewrite get_set_same.
    split; [reflexivity|].
    pose proof (set_session_locked_spec (mkChat [] [] None) token fm
                  (wall_clock (ticks wx)) keyed_empty) as Hp.
    cbv zeta in Hp. destruct Hp as (Hs' & Ha & Hh).
    rewrite Hs'. auto.
Qed.

Lemma set_session_resume_post w chat_id owner_id token fm :
  history_keyed (current w) ->
  set_post chat_id owner_id token
    (snd (set_session_resume wall_clock resolve_path process_cwd
            chat_id owner_id token fm w)).
Proof.
  intros Hk. unfold set_session_resume.
  do 4 rewrite bind_snd.
  apply set_session_resume_tail.
  unfold _reload_locked_if_needed. cbn [fst snd].
  set (w0 := mkStore (current w) None (ticks w)).
  pose proof (_migrate_if_needed_spec w0) as H. cbv zeta in H.
  destruct H as (Hfc & _ & _ & Hcs). cbn [_state w0] in Hcs.
  pose proof (migrate_chats_get (chats (current w))
                (_chat_key chat_id owner_id) w0) as Hget.
  rewrite <- Hcs in Hget.
  set (w1 := snd (_migrate_if_needed wall_clock w0)) in *.
  assert (Hchats : chats (_state (snd
            ((match cwd (fst (get_state w1)) with
              | Some _ => ret tt
              | None =>
                  put_state
                    (mkState (version (fst (get_state w1)))
                       (Some (resolve_path process_cwd))
                       (chats (fst (get_state w1))))
              end) (snd (get_state w1))))) = chats (_state w1)).
  { unfold get_state, put_state, ret. cbn [fst snd].
    destruct (cwd (_state w1)); reflexivity. }
  rewrite Hchats. intros c Hc. rewrite Hc in Hget.
  destruct Hget as (c0 & Hc0 & Hs & Hkk & _).
  split; [assumption|]. apply Hkk. eapply get_In_chats; eauto.
Qed.

Lemma In_del {V} (d : dict V) k x : In x (del d k) -> In x d.
Proof. unfold del. intros H. now apply filter_In in H. Qed.

Lemma prune_fold_In active_rid l : forall h x,
  In x (fold_left (prune_step active_rid) l h) -> In x h.
Proof.
  induction l as [|rs l IH]; cbn; auto.
  intros h x H. apply IH in H. unfold prune_step in H.
  destruct active_rid as [a|]; [destruct (String.eqb a (fst rs))|];
    auto; now apply In_del in H.
Qed.

Lemma _prune_sessions_locked_keyed chat engine :
  keyed chat -> keyed (_prune_sessions_locked chat engine).
Proof.
  intros Hk. unfold _prune_sessions_locked.
  destruct (_ <=? _)%nat; [exact Hk|].
  intros rid s Hin. cbn [history] in Hin.
  apply prune_fold_In in Hin. now apply Hk.
Qed.

Lemma set_session_locked_keyed chat token fm now :
  keyed chat -> keyed (set_session_locked chat token fm now).
Proof.
  intros Hk. unfold set_session_locked.
  apply _prune_sessions_locked_keyed.
  intros rid s Hin. cbn [history] in Hin.
  destruct (get (history chat) (ResumeToken.value token)) as [ex|] eqn:Hex;
    apply In_set in Hin; destruct Hin as [Heq|Hin]; auto.
  - injection Heq as -> ->. apply get_In in Hex. apply Hk in Hex.
    destruct (_ && _); cbn; assumption.
  - injection Heq as -> ->. reflexivity.
Qed.

Lemma migrate_chats_In cs : forall w k c',
  In (k, c') (fst (migrate_chats wall_clock cs w)) ->
  exists c, In (k, c) cs /\ (keyed c -> keyed c').
Proof.
  induction cs as [|[k0 chat] cs IH]; intros w k c'; cbn; [intros []|].
  unfold bind, ret.
  pose proof (_migrate_chat_state_spec chat w) as H.
  cbv zeta in H.
  destruct (_migrate_chat_state wall_clock chat w) as [c1 w1]. cbn in H.
  specialize (IH w1 k c').
  destruct (migrate_chats wall_clock cs w1) as [cs' w2]. cbn in *.
  intros [Heq|Hin].
  - injection Heq as -> ->. exists chat. intuition.
  - destruct (IH Hin) as (c & Hc & Hk). eauto.
Qed.

Definition all_keyed (cs : dict _ChatState) : Prop :=
  forall key chat, In (key, chat) cs -> keyed chat.

Lemma all_keyed_set cs key chat :
  all_keyed cs -> keyed chat -> all_keyed (set cs key chat).
Proof.
  intros Hcs Hk k c0 Hin.
  apply In_set in Hin. destruct Hin as [Heq|Hin].
  - injection Heq as -> ->. exact Hk.
  - now apply (Hcs k).
Qed.

(** The stores the operation itself produces keep their history entries
    keyed by their own resume id. *)
Lemma set_session_resume_keeps_keyed w chat_id owner_id token fm :
  history_keyed (current w) ->
  history_keyed
    (current (snd (set_session_resume wall_clock resolve_path process_cwd
                     chat_id owner_id token fm w))).
Proof.
  intros Hk. unfold set_session_resume. do 4 rewrite bind_snd.
  unfold _reload_locked_if_needed. cbn [fst snd].
  set (w0 := mkStore (current w) None (ticks w)).
  pose proof (_migrate_if_needed_spec w0) as H. cbv zeta in H.
  destruct H as (_ & _ & _ & Hcs). cbn [_state w0] in Hcs.
  set (w1 := snd (_migrate_if_needed wall_clock w0)) in *.
  assert (H1 : history_keyed (_state w1)).
  { intros k c' Hin. rewrite Hcs in Hin.
    apply migrate_chats_In in Hin. destruct Hin as (c & Hc & Hkc).
    apply Hkc. now apply (Hk k). }
  set (w2 := snd ((match cwd (fst (get_state w1)) with
                   | Some _ => ret tt
                   | None =>
                       put_state
                         (mkState (version (fst (get_state w1)))
                            (Some (resolve_path process_cwd))
                            (chats (fst (get_state w1))))
                   end) (snd (get_state w1)))).
  assert (H2 : history_keyed (_state w2)).
  { subst w2. unfold get_state, put_state, ret. cbn [fst snd].
    destruct (cwd (_state w1)); exact H1. }
  clearbody w2. clear - H2.
  unfold _ensure_chat_locked, bind, ret, get_state, put_state, update_chat,
    _save_locked, time, current.
  change (history_keyed (_state w2)) with (all_keyed (chats (_state w2)))
    in H2.
  destruct (get (chats (_state w2)) (_chat_key chat_id owner_id))
    as [c|] eqn:Hg; cbn;
    change (history_keyed (mkState ?v ?c ?cs)) with (all_keyed cs).
  - apply all_keyed_set; auto.
    apply set_session_locked_keyed. apply get_In in Hg. now apply H2 in Hg.
  - apply all_keyed_set.
    + apply all_keyed_set; auto. apply keyed_empty.
    + apply set_session_locked_keyed, keyed_empty.
Qed.

(** C3 (amended): for a token whose value is not the empty string, on a
    store whose history entries are keyed by their own resume id,
    [get_session_resume] for the token's engine right after
    [set_session_resume] returns that token. *)
Theorem get_after_set (w : Store) (chat_id : Z) (owner_id : option Z)
    (token : ResumeToken.t) (first_message : option string) :
  ResumeToken.value token <> "" ->
  history_keyed (current w) ->
  fst (get_session_resume wall_clock chat_id owner_id
         (ResumeToken.engine token)
         (snd (set_session_resume wall_clock resolve_path process_cwd
                 chat_id owner_id token first_message w)))
  = Some token.
Proof.
  intros Hne Hk.
  pose proof (set_session_resume_post w chat_id owner_id token first_message Hk)
    as (Hfc & chat & Hg & Hs & Ha & s & Hh & Hr).
  set (w2 := snd (set_session_resume wall_clock resolve_path process_cwd
                    chat_id owner_id token first_message w)) in *.
  unfold get_session_resume.
  do 3 rewrite bind_fst.
  unfold _reload_locked_if_needed, _get_chat_locked. cbn [fst snd].
  rewrite bind_fst. unfold get_state at 1. cbn [fst snd].
  set (w3 := mkStore (current w2) None (ticks w2)).
  pose proof (_migrate_if_needed_spec w3) as H. cbv zeta in H.
  destruct H as (_ & _ & _ & Hcs). cbn [_state w3] in Hcs.
  pose proof (migrate_chats_get (chats (current w2))
                (_chat_key chat_id owner_id) w3) as Hget.
  rewrite <- Hcs in Hget.
  assert (Hcur : current w2 = _state w2) by (unfold current; now rewrite Hfc).
  rewrite Hcur in Hget. rewrite Hg in Hget.
  unfold get_state, ret at 1. cbn [fst snd].
  destruct (get (chats (_state (snd (_migrate_if_needed wall_clock w3))))
              (_chat_key chat_id owner_id)) as [c'|]; [|discriminate].
  destruct Hget as (c & Hc & _ & _ & Hsame).
  injection Hc as <-. rewrite (Hsame Hs).
  rewrite Ha.
  assert (Ht : truthy (ResumeToken.value token) = true).
  { destruct (ResumeToken.value token); [congruence|reflexivity]. }
  rewrite Ht. cbn [negb]. rewrite Hh. unfold ret. cbn [fst].
  rewrite Hr. now destruct token.
Qed.

End StoreFacts.

(** *** Concrete stores *)

(** A fresh store, as [_new_state] builds it. *)
Definition fresh_store : Store := mkStore _new_state None 0.

Definition identity_path (p : string) : string := p.

Lemma history_keyed_fresh : history_keyed (current fresh_store).
Proof. intros key chat []. Qed.

Lemma get_after_set_witness :
  fst (get_session_resume (fun _ => 7%Z) 42 None "codex"
         (snd (set_session_resume (fun _ => 7%Z) identity_path "/srv"
                 42 None (ResumeToken.mk "codex" "sess-ABC") (Some "hello")
                 fresh_store)))
  = Some (ResumeToken.mk "codex" "sess-ABC").
Proof.
  apply (get_after_set (fun _ => 7%Z) identity_path "/srv" fresh_store 42 None
           (ResumeToken.mk "codex" "sess-ABC") (Some "hello")).
  - simpl. discriminate.
  - exact history_keyed_fresh.
Defined.

(** C3 as stated fails for a token whose value is the empty string: the
    token is stored, but the lookup treats the empty id as no session. *)
Lemma get_after_set_empty_value :
  fst (get_session_resume (fun _ => 7%Z) 42 None "codex"
         (snd (set_session_resume (fun _ => 7%Z) identity_path "/srv"
                 42 None (ResumeToken.mk "codex" "") None fresh_store)))
  <> Some (ResumeToken.mk "codex" "").
Proof. vm_compute. discriminate. Qed.

(** A store whose chat [42:chat] has an active pointer for [codex] that
    names no history entry. *)
Definition dangling_store : Store :=
  mkStore
    (mkState STATE_VERSION (Some "/srv")
       [("42:chat", mkChat [] [("codex", "gone")] None)])
    None 0.

Lemma get_session_resume_dangling_witness :
  get_session_resume (fun _ => 7%Z) 42 None "codex" dangling_store
  = (None, loaded (fun _ => 7%Z) dangling_store).
Proof.
  apply (get_session_resume_dangling (fun _ => 7%Z) dangling_store 42 None
           "codex").
  right. right. exists (mkChat [] [("codex", "gone")] None), "gone".
  vm_compute. auto.
Defined.

(** The number of history entries of one engine. *)
Definition count_engine (chat : _ChatState) (engine : string) : nat :=
  List.length (engine_sessions (history chat) engine).

(** *** Pruning in the usual case *)

Lemma In_insert_by {A} (key : A -> Z) x y l :
  In y (insert_by key x l) <-> y = x \/ In y l.
Proof.
  induction l as [|z l IH]; cbn.
  - intuition.
  - destruct (key x <=? key z)%Z; cbn; [intuition|].
    rewrite IH. intuition.
Qed.

Lemma In_sort_by {A} (key : A -> Z) y l :
  In y (sort_by key l) <-> In y l.
Proof.
  unfold sort_by. induction l as [|x l IH]; cbn; [tauto|].
  rewrite In_insert_by, IH. intuition.
Qed.

Lemma length_insert_by {A} (key : A -> Z) x l :
  List.length (insert_by key x l) = S (List.length l).
Proof.
  induction l as [|z l IH]; cbn; auto.
  destruct (key x <=? key z)%Z; cbn; auto.
Qed.

Lemma length_sort_by {A} (key : A -> Z) l :
  List.length (sort_by key l) = List.length l.
Proof.
  unfold sort_by. induction l as [|x l IH]; cbn; auto.
  now rewrite length_insert_by, IH.
Qed.

(** Deleting the key of one session of the engine takes one off the count
    of the engine's sessions, the keys being distinct. *)
Lemma engine_sessions_del h engine rid s :
  NoDup (keys h) -> In (rid, s) (engine_sessions h engine) ->
  S (List.length (engine_sessions (del h rid) engine))
  = List.length (engine_sessions h engine).
Proof.
  unfold engine_sessions, del, keys.
  induction h as [|[k v] h IH]; cbn [map filter fst snd]; [intros _ []|].
  intros Hnd Hin. inversion Hnd as [|? ? Hk Hnd']; subst.
  destruct (String.eqb_spec k rid) as [->|Hne]; cbn [negb].
  - assert (Hgone : filter (fun kv => negb (String.eqb (fst kv) rid)) h = h).
    { apply forallb_filter_id. apply forallb_forall. intros [k' v'] Hin'.
      cbn. destruct (String.eqb_spec k' rid) as [->|]; auto.
      exfalso. apply Hk. apply in_map_iff. exists (rid, v'). auto. }
    rewrite Hgone.
    destruct (String.eqb (SessionInfo.engine v) engine) eqn:He;
      [reflexivity|].
    exfalso. apply filter_In in Hin. destruct Hin as [Hin _].
    apply Hk. apply in_map_iff. exists (rid, s). auto.
  - cbn [filter snd].
    destruct (String.eqb (SessionInfo.engine v) engine) eqn:He.
    + cbn [List.length]. f_equal. apply IH; auto.
      destruct Hin as [Heq|Hin]; auto. congruence.
    + apply IH; auto.
Qed.

(** Where the oldest session of the engine is not the active one, pruning
    21 sessions leaves 20. *)
Lemma prune_restores_bound chat engine oldest rest :
  NoDup (keys (history chat)) ->
  List.length (engine_sessions (history chat) engine) = 21%nat ->
  sort_by (fun rs => SessionInfo.updated_at (snd rs))
    (engine_sessions (history chat) engine) = oldest :: rest ->
  get (active chat) engine <> Some (fst oldest) ->
  count_engine (_prune_sessions_locked chat engine) engine = 20%nat.
Proof.
  intros Hnd Hlen Hsort Hact. unfold count_engine, _prune_sessions_locked.
  rewrite Hlen.
  change (21 <=? MAX_SESSIONS_PER_CHAT)%nat with false.
  change (21 - MAX_SESSIONS_PER_CHAT)%nat with 1%nat. cbv iota.
  rewrite Hsort. cbn [firstn fold_left history].
  assert (Hin : In oldest (engine_sessions (history chat) engine)).
  { apply (In_sort_by (fun rs => SessionInfo.updated_at (snd rs))).
    rewrite Hsort. now left. }
  assert (Hstep : prune_step (get (active chat) engine) (history chat) oldest
                  = del (history chat) (fst oldest)).
  { unfold prune_step. destruct (get (active chat) engine) as [a|]; auto.
    destruct (String.eqb_spec a (fst oldest)) as [->|]; auto.
    contradiction. }
  rewrite Hstep. destruct oldest as [rid s].
  pose proof (engine_sessions_del (history chat) engine rid s Hnd Hin) as H.
  cbn [fst]. lia.
Qed.

(** *** Pruning when the clock is set back *)

(** Twenty-one calls of [set_session_resume] on a fresh store, for the
    tokens [s1] ... [s21] of the engine [codex]. *)
Fixpoint set_many (wall_clock : nat -> Z) (n : nat) (w : Store) : Store :=
  match n with
  | O => w
  | S n' =>
      let w' := set_many wall_clock n' w in
      snd (set_session_resume wall_clock identity_path "/srv" 42 None
             (ResumeToken.mk "codex" ("s" ^^ str_int (Z.of_nat n))) None w')
  end.

(** A wall clock that is set back before the twenty-first reading. *)
Definition clock_set_back (n : nat) : Z :=
  if (n <? 20)%nat then 100 + Z.of_nat n else 50.

Definition codex_count (w : Store) : option nat :=
  option_map (fun chat => count_engine chat "codex")
    (get (chats (_state w)) "42:chat").

(** C2, at the failing input: after the twenty-first call the newly set
    session is the oldest one; pruning skips it because it is active and
    removes nothing in its place, so 21 sessions of the engine remain. *)
Theorem prune_leaves_21_sessions :
  codex_count (set_many clock_set_back 20 fresh_store) = Some 20%nat
  /\ codex_count (set_many clock_set_back 21 fresh_store) = Some 21%nat
  /\ (MAX_SESSIONS_PER_CHAT < 21)%nat.
Proof. vm_compute. repeat split; lia. Qed.



(** *** The other operations of [ChatSessionStore] *)

(** Stable sort in descending key order, like [list.sort(reverse=True)]:
    elements of equal key keep the order they had in the input. *)
Fixpoint insert_by_desc {A} (key : A -> Z) (x : A) (l : list A) : list A :=
  match l with
  | [] => [x]
  | y :: l' => if (key y <=? key x)%Z then x :: y :: l'
               else y :: insert_by_desc key x l'
  end.

Definition sort_by_desc {A} (key : A -> Z) (l : list A) : list A :=
  fold_right (insert_by_desc key) [] l.

Definition with_title (s : SessionInfo.t) (t : option string)
    : SessionInfo.t :=
  SessionInfo.mk (SessionInfo.resume s) (SessionInfo.engine s) t
    (SessionInfo.first_message s) (SessionInfo.created_at s)
    (SessionInfo.updated_at s).

Section Operations.

Variable wall_clock : nat -> Z.

Definition clear_sessions (chat_id : Z) (owner_id : option Z) : M unit :=
  _reload_locked_if_needed ;;;
  _migrate_if_needed wall_clock ;;;
  ochat <- _get_chat_locked chat_id owner_id ;;
  match ochat with
  | None => ret tt
  | Some chat =>
      update_chat chat_id owner_id
        (mkChat (history chat) [] (sessions chat)) ;;;
      _save_locked
  end.

Definition new_session (chat_id : Z) (owner_id : option Z)
    (engine : string) : M unit :=
  _reload_locked_if_needed ;;;
  _migrate_if_needed wall_clock ;;;
  ochat <- _get_chat_locked chat_id owner_id ;;
  match ochat with
  | None => ret tt
  | Some chat =>
      let active1 :=
        if mem (active chat) engine then del (active chat) engine
        else active chat in
      update_chat chat_id owner_id
        (mkChat (history chat) active1 (sessions chat)) ;;;
      _save_locked
  end.

(** [engine] is [str | None]; [None] and the empty string list every
    engine. *)
Definition list_sessions (chat_id : Z) (owner_id : option Z)
    (engine : option string) : M (list SessionInfo.t) :=
  _reload_locked_if_needed ;;;
  _migrate_if_needed wall_clock ;;;
  ochat <- _get_chat_locked chat_id owner_id ;;
  match ochat with
  | None => ret []
  | Some chat =>
      let sessions := map snd (history chat) in
      let sessions :=
        match engine with
        | Some e =>
            if truthy e
            then filter (fun s => String.eqb (SessionInfo.engine s) e) sessions
            else sessions
        | None => sessions
        end in
      ret (sort_by_desc SessionInfo.updated_at sessions)
  end.

Definition get_active_session_id (chat_id : Z) (owner_id : option Z)
    (engine : string) : M (option string) :=
  _reload_locked_if_needed ;;;
  _migrate_if_needed wall_clock ;;;
  ochat <- _get_chat_locked chat_id owner_id ;;
  match ochat with
  | None => ret None
  | Some chat => ret (get (active chat) engine)
  end.

(** The session object is shared with the history: setting its
    [updated_at] rewrites the history entry, and the object returned is the
    updated one. *)
Definition switch_session (chat_id : Z) (owner_id : option Z)
    (resume_id : string) : M (option SessionInfo.t) :=
  _reload_locked_if_needed ;;;
  _migrate_if_needed wall_clock ;;;
  ochat <- _get_chat_locked chat_id owner_id ;;
  match ochat with
  | None => ret None
  | Some chat =>
      match get (history chat) resume_id with
      | None => ret None
      | Some session =>
          let active1 :=
            set (active chat) (SessionInfo.engine session) resume_id in
          now <- time wall_clock ;;
          let session1 := SessionInfo.with_updated_at session now in
          update_chat chat_id owner_id
            (mkChat (set (history chat) resume_id session1) active1
               (sessions chat)) ;;;
          _save_locked ;;;
          ret (Some session1)
      end
  end.

Definition name_session (chat_id : Z) (owner_id : option Z)
    (engine : string) (title : string) : M bool :=
  _reload_locked_if_needed ;;;
  _migrate_if_needed wall_clock ;;;
  ochat <- _get_chat_locked chat_id owner_id ;;
  match ochat with
  | None => ret false
  | Some chat =>
      match get (active chat) engine with
      | None => ret false
      | Some resume_id =>
          if negb (truthy resume_id) then ret false
          else
            match get (history chat) resume_id with
            | None => ret false
            | Some session =>
                update_chat chat_id owner_id
                  (mkChat
                     (set (history chat) resume_id
                        (with_title session (Some (substring 0 50 title))))
                     (active chat) (sessions chat)) ;;;
                _save_locked ;;;
                ret true
            end
      end
  end.

Definition delete_session (chat_id : Z) (owner_id : option Z)
    (resume_id : string) : M bool :=
  _reload_locked_if_needed ;;;
  _migrate_if_needed wall_clock ;;;
  ochat <- _get_chat_locked chat_id owner_id ;;
  match ochat with
  | None => ret false
  | Some chat =>
      match get (history chat) resume_id with
      | None => ret false
      | Some session =>
          let history1 := del (history chat) resume_id in
          let was_active :=
            match get (active chat) (SessionInfo.engine session) with
            | Some a => String.eqb a resume_id
            | None => false
            end in
          let active1 :=
            if was_active then del (active chat) (SessionInfo.engine session)
            else active chat in
          update_chat chat_id owner_id
            (mkChat history1 active1 (sessions chat)) ;;;
          _save_locked ;;;
          ret true
      end
  end.

End Operations.

(** *** Facts about the operations *)

Lemma insert_by_desc_perm {A} (key : A -> Z) x l :
  Permutation (insert_by_desc key x l) (x :: l).
Proof.
  induction l as [|y l IH]; cbn; auto.
  destruct (key y <=? key x)%Z; auto.
  rewrite IH. apply perm_swap.
Qed.

Lemma sort_by_desc_perm {A} (key : A -> Z) l :
  Permutation (sort_by_desc key l) l.
Proof.
  unfold sort_by_desc. induction l as [|x l IH]; cbn; auto.
  rewrite insert_by_desc_perm. auto.
Qed.

(** Every element is followed only by elements of a key no larger. *)
Definition descending {A} (key : A -> Z) (l : list A) : Prop :=
  StronglySorted (fun a b => (key b <= key a)%Z) l.

Lemma insert_by_desc_sorted {A} (key : A -> Z) x l :
  descending key l -> descending key (insert_by_desc key x l).
Proof.
  unfold descending. induction l as [|y l IH]; cbn; intros Hs.
  - constructor; auto.
  - inversion Hs as [|? ? Hl Hy]; subst.
    destruct (key y <=? key x)%Z eqn:E.
    + apply Z.leb_le in E. constructor; auto.
      constructor; auto.
      rewrite Forall_forall in *. intros z Hz. specialize (Hy z Hz). lia.
    + apply Z.leb_gt in E. constructor; auto.
      rewrite Forall_forall in *. intros z Hz.
      apply (Permutation_in _ (insert_by_desc_perm key x l)) in Hz.
      destruct Hz as [<-|Hz]; [lia|auto].
Qed.

Lemma sort_by_desc_sorted {A} (key : A -> Z) l :
  descending key (sort_by_desc key l).
Proof.
  unfold sort_by_desc. induction l as [|x l IH]; cbn.
  - constructor.
  - now apply insert_by_desc_sorted.
Qed.

(** A store is settled when memory and file agree and no chat carries the
    legacy field: reloading and migrating change nothing then. *)
Definition settled (w : Store) : Prop :=
  file_changed w = None
  /\ forall k c, In (k, c) (chats (_state w)) -> sessions c = None.

Section OperationFacts.

Variable wall_clock : nat -> Z.

Lemma migrate_chats_settled cs : forall w,
  (forall k c, In (k, c) cs -> sessions c = None) ->
  migrate_chats wall_clock cs w = (cs, w).
Proof.
  induction cs as [|[k chat] cs IH]; intros w H; cbn; auto.
  unfold bind, ret. unfold _migrate_chat_state.
  rewrite (H k chat) by now left. unfold ret.
  rewrite IH; auto. intros k' c' Hin. apply (H k'). now right.
Qed.

Lemma migrate_chats_entry cs : forall w k c',
  In (k, c') (fst (migrate_chats wall_clock cs w)) ->
  sessions c' = None /\ exists c, In (k, c) cs /\ (keyed c -> keyed c').
Proof.
  induction cs as [|[k0 chat] cs IH]; intros w k c'; cbn; [intros []|].
  unfold bind, ret.
  pose proof (_migrate_chat_state_spec wall_clock chat w) as H.
  cbv zeta in H.
  destruct (_migrate_chat_state wall_clock chat w) as [c1 w1]. cbn in H.
  specialize (IH w1 k c').
  destruct (migrate_chats wall_clock cs w1) as [cs' w2]. cbn in *.
  intros [Heq|Hin].
  - injection Heq as -> ->. split; [tauto|]. exists chat. tauto.
  - destruct (IH Hin) as (Hs & c & Hc & Hk). split; [exact Hs|].
    exists c. auto.
Qed.

Lemma loaded_settled w : settled (loaded wall_clock w).
Proof.
  unfold loaded. rewrite bind_snd.
  unfold _reload_locked_if_needed. cbn [fst snd].
  set (w0 := mkStore (current w) None (ticks w)).
  pose proof (_migrate_if_needed_spec wall_clock w0) as H. cbv zeta in H.
  destruct H as (Hfc & _ & _ & Hcs). split.
  - rewrite Hfc. reflexivity.
  - intros k c Hin. rewrite Hcs in Hin.
    now apply migrate_chats_entry in Hin.
Qed.

Lemma loaded_keyed w :
  history_keyed (current w) -> history_keyed (_state (loaded wall_clock w)).
Proof.
  intros Hk. unfold loaded. rewrite bind_snd.
  unfold _reload_locked_if_needed. cbn [fst snd].
  set (w0 := mkStore (current w) None (ticks w)).
  pose proof (_migrate_if_needed_spec wall_clock w0) as H. cbv zeta in H.
  destruct H as (_ & _ & _ & Hcs).
  intros k c' Hin. rewrite Hcs in Hin.
  apply migrate_chats_entry in Hin. destruct Hin as (_ & c & Hc & Hkc).
  apply Hkc. now apply (Hk k).
Qed.

Lemma settled_loaded w : settled w -> loaded wall_clock w = w.
Proof.
  intros [Hfc Hs]. unfold loaded. rewrite bind_snd.
  unfold _reload_locked_if_needed, _migrate_if_needed, current.
  rewrite Hfc. cbn [fst snd]. rewrite bind_snd.
  unfold get_state at 1 2. cbn [fst snd _state]. rewrite bind_snd.
  rewrite migrate_chats_settled by exact Hs.
  unfold put_state. cbn.
  destruct w as [[v c cs] fc t]. cbn in Hfc |- *. now subst.
Qed.

(** Every operation starts by reloading and migrating. *)
Lemma after_loading {A} (k : M A) w :
  (_reload_locked_if_needed ;;; _migrate_if_needed wall_clock ;;; k) w
  = k (loaded wall_clock w).
Proof.
  unfold loaded, bind.
  destruct (_reload_locked_if_needed w) as [u w0].
  cbn [snd]. now destruct (_migrate_if_needed wall_clock w0).
Qed.

End OperationFacts.

Lemma get_del_gone {V} (d : dict V) k : get (del d k) k = None.
Proof.
  unfold del. induction d as [|[k0 v0] d IH]; cbn; auto.
  destruct (String.eqb k0 k) eqn:E; cbn; auto. now rewrite E.
Qed.

Lemma get_mem_false {V} (d : dict V) k : mem d k = false -> get d k = None.
Proof. unfold mem. now destruct (get d k). Qed.

Lemma length_substring s : forall n m,
  (String.length (substring n m s) <= m)%nat.
Proof.
  induction s as [|c s IH]; intros n m.
  - destruct n, m; cbn; lia.
  - destruct n as [|n]; [destruct m as [|m]|]; cbn.
    + lia.
    + specialize (IH 0%nat m). lia.
    + apply IH.
Qed.

Section SessionFacts.

Variable wall_clock : nat -> Z.

(** The store after [update_chat] and [_save_locked]. *)
Definition saved (w : Store) (chat_id : Z) (owner_id : option Z)
    (chat : _ChatState) (t : nat) : Store :=
  mkStore
    (mkState (version (_state w)) (cwd (_state w))
       (set (chats (_state w)) (_chat_key chat_id owner_id) chat))
    None t.

Lemma saved_settled w chat_id owner_id chat t :
  settled w -> sessions chat = None ->
  settled (saved w chat_id owner_id chat t).
Proof.
  intros [_ Hs] Hc. split; [reflexivity|].
  intros k c Hin. cbn in Hin. apply In_set in Hin.
  destruct Hin as [Heq|Hin]; [congruence|eauto].
Qed.

Lemma saved_get w chat_id owner_id chat t :
  get (chats (_state (saved w chat_id owner_id chat t)))
    (_chat_key chat_id owner_id) = Some chat.
Proof. cbn. apply get_set_same. Qed.

Lemma settled_get w key chat :
  settled w -> get (chats (_state w)) key = Some chat -> sessions chat = None.
Proof. intros [_ Hs] Hg. apply (Hs key). now apply get_In. Qed.

(** What [get_session_resume] computes from the loaded state. *)
Definition resume_of (w : Store) (chat_id : Z) (owner_id : option Z)
    (engine : string) : option ResumeToken.t :=
  match get (chats (_state w)) (_chat_key chat_id owner_id) with
  | None => None
  | Some chat =>
      match get (active chat) engine with
      | None => None
      | Some rid =>
          if truthy rid then
            match get (history chat) rid with
            | None => None
            | Some s => Some (ResumeToken.mk engine (SessionInfo.resume s))
            end
          else None
      end
  end.

Lemma get_session_resume_loaded w chat_id owner_id engine :
  get_session_resume wall_clock chat_id owner_id engine w
  = (resume_of (loaded wall_clock w) chat_id owner_id engine,
     loaded wall_clock w).
Proof.
  unfold get_session_resume. rewrite after_loading.
  unfold resume_of, _get_chat_locked, get_state, bind, ret. cbn [fst snd].
  destruct (get (chats (_state (loaded wall_clock w)))
              (_chat_key chat_id owner_id)) as [chat|]; auto.
  destruct (get (active chat) engine) as [rid|]; auto.
  destruct (truthy rid); cbn [negb]; auto.
  destruct (get (history chat) rid); auto.
Qed.

(** What [get_active_session_id] computes from the loaded state. *)
Definition active_of (w : Store) (chat_id : Z) (owner_id : option Z)
    (engine : string) : option string :=
  match get (chats (_state w)) (_chat_key chat_id owner_id) with
  | None => None
  | Some chat => get (active chat) engine
  end.

Lemma get_active_session_id_loaded w chat_id owner_id engine :
  get_active_session_id wall_clock chat_id owner_id engine w
  = (active_of (loaded wall_clock w) chat_id owner_id engine,
     loaded wall_clock w).
Proof.
  unfold get_active_session_id. rewrite after_loading.
  unfold active_of, _get_chat_locked, get_state, bind, ret. cbn [fst snd].
  destruct (get (chats (_state (loaded wall_clock w)))
              (_chat_key chat_id owner_id)) as [chat|]; auto.
Qed.

(** The sessions [list_sessions] keeps for an engine argument. *)
Definition listed (engine : option string) (s : SessionInfo.t) : bool :=
  match engine with
  | Some e => negb (truthy e) || String.eqb (SessionInfo.engine s) e
  | None => true
  end.

Definition sessions_of (w : Store) (chat_id : Z) (owner_id : option Z)
    : list SessionInfo.t :=
  match get (chats (_state w)) (_chat_key chat_id owner_id) with
  | None => []
  | Some chat => map snd (history chat)
  end.

Lemma list_sessions_loaded w chat_id owner_id engine :
  list_sessions wall_clock chat_id owner_id engine w
  = (sort_by_desc SessionInfo.updated_at
       (filter (listed engine)
          (sessions_of (loaded wall_clock w) chat_id owner_id)),
     loaded wall_clock w).
Proof.
  unfold list_sessions. rewrite after_loading.
  unfold sessions_of, _get_chat_locked, get_state, bind, ret. cbn [fst snd].
  destruct (get (chats (_state (loaded wall_clock w)))
              (_chat_key chat_id owner_id)) as [chat|]; auto.
  f_equal. f_equal. unfold listed.
  destruct engine as [e|].
  - destruct (truthy e); cbn [negb orb]; auto.
    symmetry. apply forallb_filter_id. now apply forallb_forall.
  - symmetry. apply forallb_filter_id. now apply forallb_forall.
Qed.

Lemma clear_sessions_loaded w chat_id owner_id :
  let w1 := loaded wall_clock w in
  snd (clear_sessions wall_clock chat_id owner_id w)
  = match get (chats (_state w1)) (_chat_key chat_id owner_id) with
    | None => w1
    | Some chat =>
        saved w1 chat_id owner_id (mkChat (history chat) [] (sessions chat))
          (ticks w1)
    end.
Proof.
  cbv zeta. unfold clear_sessions. rewrite after_loading.
  unfold _get_chat_locked, update_chat, _save_locked, time, get_state, put_state, bind, ret. cbn [fst snd].
  destruct (get (chats (_state (loaded wall_clock w)))
              (_chat_key chat_id owner_id)) as [chat|]; auto.
Qed.

Lemma new_session_loaded w chat_id owner_id engine :
  let w1 := loaded wall_clock w in
  snd (new_session wall_clock chat_id owner_id engine w)
  = match get (chats (_state w1)) (_chat_key chat_id owner_id) with
    | None => w1
    | Some chat =>
        saved w1 chat_id owner_id
          (mkChat (history chat)
             (if mem (active chat) engine then del (active chat) engine
              else active chat)
             (sessions chat))
          (ticks w1)
    end.
Proof.
  cbv zeta. unfold new_session. rewrite after_loading.
  unfold _get_chat_locked, update_chat, _save_locked, time, get_state, put_state, bind, ret. cbn [fst snd].
  destruct (get (chats (_state (loaded wall_clock w)))
              (_chat_key chat_id owner_id)) as [chat|]; auto.
Qed.

Lemma switch_session_loaded w chat_id owner_id resume_id :
  let w1 := loaded wall_clock w in
  switch_session wall_clock chat_id owner_id resume_id w
  = match get (chats (_state w1)) (_chat_key chat_id owner_id) with
    | None => (None, w1)
    | Some chat =>
        match get (history chat) resume_id with
        | None => (None, w1)
        | Some session =>
            let session1 :=
              SessionInfo.with_updated_at session (wall_clock (ticks w1)) in
            (Some session1,
             saved w1 chat_id owner_id
               (mkChat (set (history chat) resume_id session1)
                  (set (active chat) (SessionInfo.engine session) resume_id)
                  (sessions chat))
               (S (ticks w1)))
        end
    end.
Proof.
  cbv zeta. unfold switch_session. rewrite after_loading.
  unfold _get_chat_locked, update_chat, _save_locked, time, get_state, put_state, bind, ret. cbn [fst snd].
  destruct (get (chats (_state (loaded wall_clock w)))
              (_chat_key chat_id owner_id)) as [chat|]; auto.
  destruct (get (history chat) resume_id); auto.
Qed.

Lemma name_session_loaded w chat_id owner_id engine title :
  let w1 := loaded wall_clock w in
  name_session wall_clock chat_id owner_id engine title w
  = match get (chats (_state w1)) (_chat_key chat_id owner_id) with
    | None => (false, w1)
    | Some chat =>
        match get (active chat) engine with
        | None => (false, w1)
        | Some rid =>
            if truthy rid then
              match get (history chat) rid with
              | None => (false, w1)
              | Some session =>
                  (true,
                   saved w1 chat_id owner_id
                     (mkChat
                        (set (history chat) rid
                           (with_title session
                              (Some (substring 0 50 title))))
                        (active chat) (sessions chat))
                     (ticks w1))
              end
            else (false, w1)
        end
    end.
Proof.
  cbv zeta. unfold name_session. rewrite after_loading.
  unfold _get_chat_locked, update_chat, _save_locked, time, get_state, put_state, bind, ret. cbn [fst snd].
  destruct (get (chats (_state (loaded wall_clock w)))
              (_chat_key chat_id owner_id)) as [chat|]; auto.
  destruct (get (active chat) engine) as [rid|]; auto.
  destruct (truthy rid); cbn [negb]; auto.
  destruct (get (history chat) rid); auto.
Qed.

Lemma delete_session_loaded w chat_id owner_id resume_id :
  let w1 := loaded wall_clock w in
  delete_session wall_clock chat_id owner_id resume_id w
  = match get (chats (_state w1)) (_chat_key chat_id owner_id) with
    | None => (false, w1)
    | Some chat =>
        match get (history chat) resume_id with
        | None => (false, w1)
        | Some session =>
            (true,
             saved w1 chat_id owner_id
               (mkChat (del (history chat) resume_id)
                  (if match get (active chat) (SessionInfo.engine session) with
                      | Some a => String.eqb a resume_id
                      | None => false
                      end
                   then del (active chat) (SessionInfo.engine session)
                   else active chat)
                  (sessions chat))
               (ticks w1))
        end
    end.
Proof.
  cbv zeta. unfold delete_session. rewrite after_loading.
  unfold _get_chat_locked, update_chat, _save_locked, time, get_state, put_state, bind, ret. cbn [fst snd].
  destruct (get (chats (_state (loaded wall_clock w)))
              (_chat_key chat_id owner_id)) as [chat|]; auto.
  destruct (get (history chat) resume_id); auto.
Qed.

(** On a settled store the queries read the state as it is. *)
Lemma queries_settled w chat_id owner_id :
  settled w ->
  (forall e, fst (get_session_resume wall_clock chat_id owner_id e w)
             = resume_of w chat_id owner_id e)
  /\ (forall e, fst (get_active_session_id wall_clock chat_id owner_id e w)
                = active_of w chat_id owner_id e)
  /\ (forall f, fst (list_sessions wall_clock chat_id owner_id f w)
                = sort_by_desc SessionInfo.updated_at
                    (filter (listed f) (sessions_of w chat_id owner_id))).
Proof.
  intros H2. repeat split; intros;
    rewrite ?get_session_resume_loaded, ?get_active_session_id_loaded,
      ?list_sessions_loaded, (settled_loaded _ _ H2); reflexivity.
Qed.

End SessionFacts.

Lemma In_set_same {V} (d : dict V) k v : In (k, v) (set d k v).
Proof. apply get_In, get_set_same. Qed.

Lemma In_sort_by_desc {A} (key : A -> Z) y l :
  In y (sort_by_desc key l) <-> In y l.
Proof.
  split; apply Permutation_in;
    [|apply Permutation_sym]; apply sort_by_desc_perm.
Qed.

Section SessionTheorems.

Variable wall_clock : nat -> Z.

(** X1: [list_sessions] returns the sessions of the chat, all of them when
    the engine argument is [None] or empty and those of the engine
    otherwise, each as often as it is stored, ordered by [updated_at] with
    the most recent first; the result for a chat without entry is empty. *)
Theorem list_sessions_sorted (w : Store) (chat_id : Z) (owner_id : option Z)
    (engine : option string) :
  let r := fst (list_sessions wall_clock chat_id owner_id engine w) in
  descending SessionInfo.updated_at r
  /\ Permutation r
       (filter (listed engine)
          (sessions_of (loaded wall_clock w) chat_id owner_id))
  /\ (get (chats (_state (loaded wall_clock w)))
        (_chat_key chat_id owner_id) = None -> r = []).
Proof.
  cbv zeta. rewrite list_sessions_loaded. cbn [fst].
  split; [apply sort_by_desc_sorted|].
  split; [apply sort_by_desc_perm|].
  intros H. unfold sessions_of. now rewrite H.
Qed.

(** X2: when [switch_session] returns a session, the active id of that
    session's engine is the requested id afterwards, the resume token of
    the engine is that session (for a non-empty id), the session returned
    carries the time of the switch and is the one now listed. *)
Theorem switch_session_activates (w : Store) (chat_id : Z)
    (owner_id : option Z) (resume_id : string) (s : SessionInfo.t) :
  fst (switch_session wall_clock chat_id owner_id resume_id w) = Some s ->
  let w' := snd (switch_session wall_clock chat_id owner_id resume_id w) in
  fst (get_active_session_id wall_clock chat_id owner_id
         (SessionInfo.engine s) w') = Some resume_id
  /\ (resume_id <> "" ->
      fst (get_session_resume wall_clock chat_id owner_id
             (SessionInfo.engine s) w')
      = Some (ResumeToken.mk (SessionInfo.engine s) (SessionInfo.resume s)))
  /\ SessionInfo.updated_at s = wall_clock (ticks (loaded wall_clock w))
  /\ In s (fst (list_sessions wall_clock chat_id owner_id None w')).
Proof.
  cbv zeta. rewrite switch_session_loaded. cbv zeta.
  pose proof (loaded_settled wall_clock w) as Hset.
  set (w1 := loaded wall_clock w) in *.
  destruct (get (chats (_state w1)) (_chat_key chat_id owner_id))
    as [chat|] eqn:Hc; [|discriminate].
  destruct (get (history chat) resume_id) as [s0|] eqn:Hh; [|discriminate].
  cbn [fst snd]. intros Hs. injection Hs as <-.
  match goal with |- context [saved w1 ?c ?o ?ch ?t] =>
    set (w2 := saved w1 c o ch t) end.
  assert (Hset2 : settled w2).
  { apply saved_settled; auto. cbn. eapply settled_get; eauto. }
  rewrite get_active_session_id_loaded, get_session_resume_loaded,
    list_sessions_loaded, (settled_loaded _ _ Hset2).
  cbn [fst]. unfold active_of, resume_of, sessions_of.
  subst w2. rewrite saved_get. cbn [active history SessionInfo.engine
    SessionInfo.with_updated_at SessionInfo.resume SessionInfo.updated_at].
  rewrite !get_set_same.
  split; [reflexivity|]. split; [|split; [reflexivity|]].
  - intros Hne. destruct resume_id; [congruence|]. reflexivity.
  - apply In_sort_by_desc. apply filter_In. split; [|reflexivity].
    apply in_map_iff. eexists (_, _). split; [|apply In_set_same].
    reflexivity.
Qed.

(** X3: [switch_session] and [delete_session] on an id the chat's history
    does not hold, or on a chat without entry, return [None] and [False]
    and write nothing: the store is the loaded one. *)
Theorem unknown_session_is_noop (w : Store) (chat_id : Z)
    (owner_id : option Z) (resume_id : string) :
  (forall chat,
     get (chats (_state (loaded wall_clock w))) (_chat_key chat_id owner_id)
     = Some chat -> get (history chat) resume_id = None) ->
  switch_session wall_clock chat_id owner_id resume_id w
  = (None, loaded wall_clock w)
  /\ delete_session wall_clock chat_id owner_id resume_id w
     = (false, loaded wall_clock w).
Proof.
  intros H. rewrite switch_session_loaded, delete_session_loaded. cbv zeta.
  destruct (get (chats (_state (loaded wall_clock w)))
              (_chat_key chat_id owner_id)) as [chat|]; auto.
  now rewrite (H chat eq_refl).
Qed.

(** X4: once [delete_session] has returned [True] for an id, on a store
    whose history entries are keyed by their own id, no engine resumes that
    id and no listing shows it. *)
Theorem delete_session_forgets (w : Store) (chat_id : Z)
    (owner_id : option Z) (resume_id : string) :
  history_keyed (current w) ->
  fst (delete_session wall_clock chat_id owner_id resume_id w) = true ->
  let w' := snd (delete_session wall_clock chat_id owner_id resume_id w) in
  (forall engine,
     fst (get_session_resume wall_clock chat_id owner_id engine w')
     <> Some (ResumeToken.mk engine resume_id))
  /\ (forall engine s,
        In s (fst (list_sessions wall_clock chat_id owner_id engine w')) ->
        SessionInfo.resume s <> resume_id).
Proof.
  intros Hk. cbv zeta. rewrite delete_session_loaded. cbv zeta.
  pose proof (loaded_settled wall_clock w) as Hset.
  pose proof (loaded_keyed wall_clock w Hk) as Hk1.
  set (w1 := loaded wall_clock w) in *.
  destruct (get (chats (_state w1)) (_chat_key chat_id owner_id))
    as [chat|] eqn:Hc; [|discriminate].
  destruct (get (history chat) resume_id) as [s0|] eqn:Hh; [|discriminate].
  cbn [fst snd]. intros _.
  match goal with |- context [saved w1 ?c ?o ?ch ?t] =>
    set (w2 := saved w1 c o ch t) end.
  assert (Hset2 : settled w2).
  { apply saved_settled; auto. cbn. eapply settled_get; eauto. }
  assert (Hkc : keyed chat) by (eapply get_In_chats; eauto).
  assert (Hgone : forall rid s, In (rid, s) (del (history chat) resume_id) ->
                                SessionInfo.resume s <> resume_id).
  { intros rid s Hin. unfold del in Hin. apply filter_In in Hin.
    destruct Hin as [Hin Hne]. cbn in Hne. apply Hkc in Hin. rewrite Hin.
    destruct (String.eqb_spec rid resume_id); [discriminate|assumption]. }
  split.
  - intros engine.
    rewrite get_session_resume_loaded, (settled_loaded _ _ Hset2).
    cbn [fst]. unfold resume_of. subst w2. rewrite saved_get.
    cbn [active history].
    match goal with |- context [get ?a engine] => destruct (get a engine)
      as [rid|] end; [|discriminate].
    destruct (truthy rid); [|discriminate].
    destruct (get (del (history chat) resume_id) rid) as [s|] eqn:Hg;
      [|discriminate].
    apply get_In, Hgone in Hg. congruence.
  - intros engine s.
    rewrite list_sessions_loaded, (settled_loaded _ _ Hset2).
    cbn [fst]. unfold sessions_of. subst w2. rewrite saved_get.
    cbn [history]. intros Hin. apply In_sort_by_desc in Hin.
    apply filter_In in Hin. destruct Hin as [Hin _].
    apply in_map_iff in Hin. destruct Hin as ([rid s'] & <- & Hin).
    cbn. eapply Hgone; eauto.
Qed.

(** X5: after [new_session] for an engine, that engine has no active id and
    no resume token; the active ids of the other engines and every listing
    are what they were. *)
Theorem new_session_clears_engine (w : Store) (chat_id : Z)
    (owner_id : option Z) (engine : string) :
  let w' := snd (new_session wall_clock chat_id owner_id engine w) in
  fst (get_session_resume wall_clock chat_id owner_id engine w') = None
  /\ fst (get_active_session_id wall_clock chat_id owner_id engine w') = None
  /\ (forall other, other <> engine ->
        fst (get_active_session_id wall_clock chat_id owner_id other w')
        = fst (get_active_session_id wall_clock chat_id owner_id other w))
  /\ (forall filter_engine,
        fst (list_sessions wall_clock chat_id owner_id filter_engine w')
        = fst (list_sessions wall_clock chat_id owner_id filter_engine w)).
Proof.
  cbv zeta. rewrite new_session_loaded. cbv zeta.
  pose proof (loaded_settled wall_clock w) as Hset.
  pose proof (fun w2 => queries_settled wall_clock w2 chat_id owner_id) as Hq.
  assert (Hq0 :
    (forall e, fst (get_active_session_id wall_clock chat_id owner_id e w)
               = active_of (loaded wall_clock w) chat_id owner_id e)
    /\ (forall f, fst (list_sessions wall_clock chat_id owner_id f w)
                  = sort_by_desc SessionInfo.updated_at
                      (filter (listed f)
                         (sessions_of (loaded wall_clock w) chat_id owner_id)))).
  { split; intros; rewrite ?get_active_session_id_loaded,
      ?list_sessions_loaded; reflexivity. }
  destruct Hq0 as [Ha0 Hl0].
  set (w1 := loaded wall_clock w) in *.
  destruct (get (chats (_state w1)) (_chat_key chat_id owner_id))
    as [chat|] eqn:Hc.
  - match goal with |- context [saved w1 ?c ?o ?ch ?t] =>
      set (w2 := saved w1 c o ch t) end.
    assert (Hset2 : settled w2).
    { apply saved_settled; auto. cbn. eapply settled_get; eauto. }
    destruct (Hq w2 Hset2) as (Hr & Ha & Hl).
    assert (Hnone : get (if mem (active chat) engine
                         then del (active chat) engine else active chat)
                      engine = None).
    { destruct (mem (active chat) engine) eqn:Hm;
        [apply get_del_gone|now apply get_mem_false]. }
    rewrite Hr, Ha. unfold resume_of, active_of at 1.
    subst w2. rewrite saved_get. cbn [active history]. rewrite Hnone.
    split; [reflexivity|]. split; [reflexivity|]. split.
    + intros other Hne. rewrite Ha, Ha0. unfold active_of.
      rewrite saved_get, Hc. cbn [active].
      destruct (mem (active chat) engine); auto.
      apply get_del_other. congruence.
    + intros f. rewrite Hl, Hl0. unfold sessions_of.
      rewrite saved_get, Hc. reflexivity.
  - destruct (Hq w1 Hset) as (Hr & Ha & Hl).
    rewrite Hr, Ha. unfold resume_of, active_of at 1. rewrite Hc.
    split; [reflexivity|]. split; [reflexivity|]. split.
    + intros other _. now rewrite Ha, Ha0.
    + intros f. now rewrite Hl, Hl0.
Qed.


(** X6: after [clear_sessions] no engine of the chat has an active id or a
    resume token, and every listing is what it was: the history is kept. *)
Theorem clear_sessions_keeps_history (w : Store) (chat_id : Z)
    (owner_id : option Z) :
  let w' := snd (clear_sessions wall_clock chat_id owner_id w) in
  (forall engine,
     fst (get_session_resume wall_clock chat_id owner_id engine w') = None
     /\ fst (get_active_session_id wall_clock chat_id owner_id engine w')
        = None)
  /\ (forall filter_engine,
        fst (list_sessions wall_clock chat_id owner_id filter_engine w')
        = fst (list_sessions wall_clock chat_id owner_id filter_engine w)).
Proof.
  cbv zeta. rewrite clear_sessions_loaded. cbv zeta.
  pose proof (loaded_settled wall_clock w) as Hset.
  pose proof (fun w2 => queries_settled wall_clock w2 chat_id owner_id) as Hq.
  assert (Hl0 : forall f,
    fst (list_sessions wall_clock chat_id owner_id f w)
    = sort_by_desc SessionInfo.updated_at
        (filter (listed f)
           (sessions_of (loaded wall_clock w) chat_id owner_id))).
  { intros. now rewrite list_sessions_loaded. }
  set (w1 := loaded wall_clock w) in *.
  destruct (get (chats (_state w1)) (_chat_key chat_id owner_id))
    as [chat|] eqn:Hc.
  - match goal with |- context [saved w1 ?c ?o ?ch ?t] =>
      set (w2 := saved w1 c o ch t) end.
    assert (Hset2 : settled w2).
    { apply saved_settled; auto. cbn. eapply settled_get; eauto. }
    destruct (Hq w2 Hset2) as (Hr & Ha & Hl). split.
    + intros engine. rewrite Hr, Ha. unfold resume_of, active_of.
      subst w2. rewrite saved_get. cbn [active get]. auto.
    + intros f. rewrite Hl, Hl0. unfold sessions_of.
      subst w2. rewrite saved_get, Hc. reflexivity.
  - destruct (Hq w1 Hset) as (Hr & Ha & Hl). split.
    + intros engine. rewrite Hr, Ha. unfold resume_of, active_of.
      rewrite Hc. auto.
    + intros f. now rewrite Hl, Hl0.
Qed.

(** X7: [name_session] returns [True] exactly when the engine has a resume
    token, that is when [get_session_resume] returns one; it then stores the
    first 50 characters of the title on that session, which stays the one
    resumed; when it returns [False] it writes nothing. *)
Theorem name_session_titles (w : Store) (chat_id : Z) (owner_id : option Z)
    (engine : string) (title : string) :
  let r := name_session wall_clock chat_id owner_id engine title w in
  let before :=
    fst (get_session_resume wall_clock chat_id owner_id engine w) in
  (fst r = true <-> before <> None)
  /\ (fst r = false -> snd r = loaded wall_clock w)
  /\ (fst r = true ->
      exists s,
        In s (fst (list_sessions wall_clock chat_id owner_id None (snd r)))
        /\ SessionInfo.title s = Some (substring 0 50 title)
        /\ (String.length (substring 0 50 title) <= 50)%nat
        /\ before
           = Some (ResumeToken.mk engine (SessionInfo.resume s))
        /\ fst (get_session_resume wall_clock chat_id owner_id engine (snd r))
           = before).
Proof.
  cbv zeta. rewrite name_session_loaded, get_session_resume_loaded.
  cbv zeta. cbn [fst].
  pose proof (loaded_settled wall_clock w) as Hset.
  pose proof (fun w2 => queries_settled wall_clock w2 chat_id owner_id) as Hq.
  set (w1 := loaded wall_clock w) in *.
  unfold resume_of.
  destruct (get (chats (_state w1)) (_chat_key chat_id owner_id))
    as [chat|] eqn:Hc;
    [|cbn [fst snd]; repeat split; try congruence; discriminate].
  destruct (get (active chat) engine) as [rid|] eqn:Ha;
    [|cbn [fst snd]; repeat split; try congruence; discriminate].
  destruct (truthy rid) eqn:Ht;
    [|cbn [fst snd]; repeat split; try congruence; discriminate].
  destruct (get (history chat) rid) as [s0|] eqn:Hh;
    [|cbn [fst snd]; repeat split; try congruence; discriminate].
  cbn [fst snd].
  split; [split; [discriminate|reflexivity]|].
  split; [discriminate|]. intros _.
  match goal with |- context [saved w1 ?c ?o ?ch ?t] =>
    set (w2 := saved w1 c o ch t) end.
  assert (Hset2 : settled w2).
  { apply saved_settled; auto. cbn. eapply settled_get; eauto. }
  destruct (Hq w2 Hset2) as (Hr & _ & Hl).
  exists (with_title s0 (Some (substring 0 50 title))).
  rewrite Hl, Hr. unfold sessions_of, resume_of. subst w2.
  rewrite saved_get. cbn [active history]. rewrite Ha, Ht, get_set_same.
  split; [|split; [reflexivity|split; [apply length_substring|]]];
    [|split; reflexivity].
  apply In_sort_by_desc. apply filter_In. split; [|reflexivity].
  apply in_map_iff. eexists (_, _). split; [|apply In_set_same].
  reflexivity.
Qed.

End SessionTheorems.

(** *** Chat keys *)

(** The characters [str(n)] is made of. *)
Definition numeric_char (c : ascii) : bool :=
  let n := nat_of_ascii c in
  ((48 <=? n) && (n <=? 57) || (n =? 45))%nat.

Fixpoint numeric (s : string) : bool :=
  match s with
  | EmptyString => true
  | String c s' => numeric_char c && numeric s'
  end.

Lemma numeric_string_of_uint d :
  numeric (NilEmpty.string_of_uint d) = true.
Proof. induction d; cbn; auto. Qed.

Lemma numeric_str_int n : numeric (str_int n) = true.
Proof.
  assert (H : forall d, numeric (NilZero.string_of_uint d) = true).
  { intros d. destruct d; try reflexivity;
      exact (numeric_string_of_uint _). }
  unfold str_int, NilZero.string_of_int.
  destruct (Z.to_int n) as [d|d]; [apply H|].
  cbn [numeric]. now rewrite H.
Qed.

Lemma str_int_inj n m : str_int n = str_int m -> n = m.
Proof.
  unfold str_int. intros H.
  assert (Hnn : forall z, Z.to_int z <> Decimal.Pos Decimal.Nil
                          /\ Z.to_int z <> Decimal.Neg Decimal.Nil).
  { intros [|p|p]; cbn; split; try discriminate;
      intros E; injection E as E; now apply Unsigned.to_uint_nonnil in E. }
  apply DecimalZ.to_int_inj.
  assert (Hs : Some (Z.to_int n) = Some (Z.to_int m)).
  { rewrite <- (NilZero.isi (Z.to_int n)), <- (NilZero.isi (Z.to_int m));
      try apply Hnn. now rewrite H. }
  now injection Hs.
Qed.

(** Two texts without a colon, each followed by a colon, are the same text
    when the whole strings agree. *)
Lemma split_at_colon a : forall b x y,
  numeric a = true -> numeric b = true ->
  a ^^ ":" ^^ x = b ^^ ":" ^^ y -> a = b /\ x = y.
Proof.
  induction a as [|c a IH]; intros [|d b] x y Ha Hb H; cbn in *.
  - injection H as ->. auto.
  - injection H as <- _. discriminate.
  - injection H as -> _. discriminate.
  - injection H as -> H.
    apply andb_prop in Ha, Hb. destruct Ha as [_ Ha], Hb as [_ Hb].
    destruct (IH b x y Ha Hb H) as [-> ->]. auto.
Qed.

Lemma chat_key_inj chat_id chat_id' owner_id owner_id' :
  _chat_key chat_id owner_id = _chat_key chat_id' owner_id' ->
  chat_id = chat_id' /\ owner_id = owner_id'.
Proof.
  unfold _chat_key. intros H.
  apply split_at_colon in H; try apply numeric_str_int.
  destruct H as [Hc Ho]. apply str_int_inj in Hc. split; [exact Hc|].
  destruct owner_id as [o|], owner_id' as [o'|]; auto.
  - apply str_int_inj in Ho. congruence.
  - pose proof (numeric_str_int o) as Hn. rewrite Ho in Hn. discriminate.
  - pose proof (numeric_str_int o') as Hn. rewrite <- Ho in Hn. discriminate.
Qed.

(** X9: two chats share a store key only when they have the same chat id
    and the same owner: entries of different chats never collide. *)
Theorem _chat_key_injective (chat_id chat_id' : Z)
    (owner_id owner_id' : option Z) :
  _chat_key chat_id owner_id = _chat_key chat_id' owner_id'
  <-> chat_id = chat_id' /\ owner_id = owner_id'.
Proof.
  split; [apply chat_key_inj|intros [-> ->]; reflexivity].
Qed.

(** *** Operations and the other chats *)

Section Isolation.

Variable wall_clock : nat -> Z.
Variable resolve_path : string -> string.
Variable process_cwd : string.

(** The chat entry [set_session_resume] works on. *)
Definition ensured (w : Store) (chat_id : Z) (owner_id : option Z)
    : _ChatState :=
  match get (chats (_state w)) (_chat_key chat_id owner_id) with
  | Some chat => chat
  | None => mkChat [] [] None
  end.

Lemma set_session_resume_loaded w chat_id owner_id token fm :
  let w1 := loaded wall_clock w in
  snd (set_session_resume wall_clock resolve_path process_cwd
         chat_id owner_id token fm w)
  = mkStore
      (mkState (version (_state w1))
         (match cwd (_state w1) with
          | Some c => Some c
          | None => Some (resolve_path process_cwd)
          end)
         (set
            (match get (chats (_state w1)) (_chat_key chat_id owner_id) with
             | Some _ => chats (_state w1)
             | None => set (chats (_state w1)) (_chat_key chat_id owner_id)
                         (mkChat [] [] None)
             end)
            (_chat_key chat_id owner_id)
            (set_session_locked (ensured w1 chat_id owner_id) token fm
               (wall_clock (ticks w1)))))
      None (S (ticks w1)).
Proof.
  cbv zeta. unfold set_session_resume. rewrite after_loading.
  unfold ensured, _ensure_chat_locked, update_chat, _save_locked, time,
    get_state, put_state, bind, ret.
  destruct (cwd (_state (loaded wall_clock w))) as [c|] eqn:Hcwd;
    cbn [fst snd _state chats version cwd file_changed ticks];
    destruct (get (chats (_state (loaded wall_clock w)))
                (_chat_key chat_id owner_id)) as [chat|] eqn:Hc;
    cbn [fst snd _state chats version cwd file_changed ticks];
    rewrite ?Hcwd; reflexivity.
Qed.

Lemma set_session_locked_sessions chat token fm now :
  sessions (set_session_locked chat token fm now) = sessions chat.
Proof.
  unfold set_session_locked. now rewrite _prune_sessions_locked_sessions.
Qed.

Lemma ensured_sessions w chat_id owner_id :
  settled w -> sessions (ensured w chat_id owner_id) = None.
Proof.
  intros Hs. unfold ensured.
  destruct (get (chats (_state w)) (_chat_key chat_id owner_id)) eqn:Hc;
    [eapply settled_get; eauto|reflexivity].
Qed.

Lemma set_session_resume_settled w chat_id owner_id token fm :
  settled (snd (set_session_resume wall_clock resolve_path process_cwd
                  chat_id owner_id token fm w)).
Proof.
  rewrite set_session_resume_loaded. cbv zeta.
  pose proof (loaded_settled wall_clock w) as Hset.
  split; [reflexivity|]. cbn [_state chats].
  intros k c Hin. apply In_set in Hin. destruct Hin as [Heq|Hin].
  - injection Heq as _ ->. rewrite set_session_locked_sessions.
    now apply ensured_sessions.
  - destruct Hset as [_ Hs].
    destruct (get (chats (_state (loaded wall_clock w)))
                (_chat_key chat_id owner_id)); [eauto|].
    apply In_set in Hin. destruct Hin as [Heq|Hin]; [|eauto].
    now injection Heq as _ ->.
Qed.

(** The three queries return for a chat in [w'] what they return in [w]. *)
Definition same_view (chat_id : Z) (owner_id : option Z) (w w' : Store)
    : Prop :=
  (forall e, fst (get_session_resume wall_clock chat_id owner_id e w')
             = fst (get_session_resume wall_clock chat_id owner_id e w))
  /\ (forall e, fst (get_active_session_id wall_clock chat_id owner_id e w')
                = fst (get_active_session_id wall_clock chat_id owner_id e w))
  /\ (forall f, fst (list_sessions wall_clock chat_id owner_id f w')
                = fst (list_sessions wall_clock chat_id owner_id f w)).

Lemma same_view_get chat_id owner_id w w' :
  settled w' ->
  get (chats (_state w')) (_chat_key chat_id owner_id)
  = get (chats (_state (loaded wall_clock w))) (_chat_key chat_id owner_id) ->
  same_view chat_id owner_id w w'.
Proof.
  intros Hs Hg.
  destruct (queries_settled wall_clock w' chat_id owner_id Hs)
    as (Hr & Ha & Hl).
  repeat split; intros;
    rewrite ?Hr, ?Ha, ?Hl, ?get_session_resume_loaded,
      ?get_active_session_id_loaded, ?list_sessions_loaded;
    unfold resume_of, active_of, sessions_of; now rewrite Hg.
Qed.

(** X11: an operation on one chat changes nothing of what the queries
    return for any other chat. *)
Theorem other_chats_untouched (w : Store) (chat_id chat_id' : Z)
    (owner_id owner_id' : option Z) :
  (chat_id, owner_id) <> (chat_id', owner_id') ->
  (forall token first_message,
     same_view chat_id' owner_id' w
       (snd (set_session_resume wall_clock resolve_path process_cwd
               chat_id owner_id token first_message w)))
  /\ same_view chat_id' owner_id' w
       (snd (clear_sessions wall_clock chat_id owner_id w))
  /\ (forall engine,
        same_view chat_id' owner_id' w
          (snd (new_session wall_clock chat_id owner_id engine w)))
  /\ (forall resume_id,
        same_view chat_id' owner_id' w
          (snd (switch_session wall_clock chat_id owner_id resume_id w)))
  /\ (forall engine title,
        same_view chat_id' owner_id' w
          (snd (name_session wall_clock chat_id owner_id engine title w)))
  /\ (forall resume_id,
        same_view chat_id' owner_id' w
          (snd (delete_session wall_clock chat_id owner_id resume_id w))).
Proof.
  intros Hne.
  assert (Hk : _chat_key chat_id owner_id <> _chat_key chat_id' owner_id').
  { intros H. apply chat_key_inj in H. destruct H; congruence. }
  pose proof (loaded_settled wall_clock w) as Hset.
  assert (Hsaved : forall chat t,
    get (chats (_state (loaded wall_clock w))) (_chat_key chat_id owner_id)
    = Some chat ->
    forall chat', sessions chat' = sessions chat ->
    same_view chat_id' owner_id' w
      (saved (loaded wall_clock w) chat_id owner_id chat' t)).
  { intros chat t Hc chat' Hs'. apply same_view_get.
    - apply saved_settled; auto. rewrite Hs'. eapply settled_get; eauto.
    - cbn. now apply get_set_other. }
  assert (Hsame : same_view chat_id' owner_id' w (loaded wall_clock w))
    by now apply same_view_get.
  split; [|split; [|split; [|split; [|split]]]].
  - intros token fm. apply same_view_get.
    + apply set_session_resume_settled.
    + rewrite set_session_resume_loaded. cbv zeta. cbn [_state chats].
      rewrite get_set_other by exact Hk.
      destruct (get (chats (_state (loaded wall_clock w)))
                  (_chat_key chat_id owner_id)); auto.
      now apply get_set_other.
  - rewrite clear_sessions_loaded. cbv zeta.
    destruct (get (chats (_state (loaded wall_clock w)))
                (_chat_key chat_id owner_id)) eqn:Hc; eauto.
  - intros engine. rewrite new_session_loaded. cbv zeta.
    destruct (get (chats (_state (loaded wall_clock w)))
                (_chat_key chat_id owner_id)) eqn:Hc; eauto.
  - intros rid. rewrite switch_session_loaded. cbv zeta.
    destruct (get (chats (_state (loaded wall_clock w)))
                (_chat_key chat_id owner_id)) as [chat|] eqn:Hc; auto.
    destruct (get (history chat) rid); cbn [snd]; eauto.
  - intros engine title. rewrite name_session_loaded. cbv zeta.
    destruct (get (chats (_state (loaded wall_clock w)))
                (_chat_key chat_id owner_id)) as [chat|] eqn:Hc; auto.
    destruct (get (active chat) engine) as [rid|]; auto.
    destruct (truthy rid); auto.
    destruct (get (history chat) rid); cbn [snd]; eauto.
  - intros rid. rewrite delete_session_loaded. cbv zeta.
    destruct (get (chats (_state (loaded wall_clock w)))
                (_chat_key chat_id owner_id)) as [chat|] eqn:Hc; auto.
    destruct (get (history chat) rid); cbn [snd]; eauto.
Qed.

End Isolation.

(** *** Active pointers *)

(** The state of a chat is well formed when the keys of its history are
    distinct, as those of a dictionary are, and every active pointer names
    a history entry of the engine it is filed under. *)
Definition well_formed (chat : _ChatState) : Prop :=
  NoDup (keys (history chat))
  /\ forall e rid, get (active chat) e = Some rid ->
       exists s, get (history chat) rid = Some s /\ SessionInfo.engine s = e.

Definition all_well_formed (st : _ChatSessionsState) : Prop :=
  forall key chat, In (key, chat) (chats st) -> well_formed chat.

Lemma get_None_keys {V} (d : dict V) k : get d k = None -> ~ In k (keys d).
Proof.
  unfold keys. induction d as [|[k0 v0] d IH]; cbn; auto.
  destruct (String.eqb_spec k0 k); [discriminate|].
  intros H [E|Hin]; [congruence|]. now apply IH.
Qed.

Lemma keys_set {V} (d : dict V) k v :
  keys (set d k v)
  = match get d k with Some _ => keys d | None => keys d ++ [k] end.
Proof.
  unfold keys. induction d as [|[k0 v0] d IH]; cbn; auto.
  destruct (String.eqb_spec k0 k); cbn; auto.
  rewrite IH. now destruct (get d k).
Qed.

Lemma NoDup_keys_set {V} (d : dict V) k v :
  NoDup (keys d) -> NoDup (keys (set d k v)).
Proof.
  intros H. rewrite keys_set. destruct (get d k) eqn:E; auto.
  apply NoDup_app; auto.
  - constructor; auto. constructor.
  - intros x Hx [<-|[]]. now apply get_None_keys in E.
Qed.

Lemma NoDup_keys_del {V} (d : dict V) k :
  NoDup (keys d) -> NoDup (keys (del d k)).
Proof.
  unfold del, keys. induction d as [|[k0 v0] d IH]; cbn; auto.
  intros H. inversion H as [|? ? Hn Hd]; subst.
  destruct (negb (String.eqb k0 k)); cbn; auto.
  constructor; auto. intros Hin. apply Hn.
  apply in_map_iff in Hin. destruct Hin as (x & Hx & Hin).
  apply filter_In in Hin. apply in_map_iff. exists x. tauto.
Qed.

Lemma NoDup_keys_get {V} (d : dict V) k v :
  NoDup (keys d) -> In (k, v) d -> get d k = Some v.
Proof.
  unfold keys. induction d as [|[k0 v0] d IH]; cbn; [intros _ []|].
  intros H [E|Hin]; inversion H as [|? ? Hn Hd]; subst.
  - injection E as -> ->. now rewrite String.eqb_refl.
  - destruct (String.eqb_spec k0 k) as [->|]; auto.
    exfalso. apply Hn. apply in_map_iff. exists (k, v). auto.
Qed.

Lemma In_firstn {A} (x : A) n l : In x (firstn n l) -> In x l.
Proof.
  intros H. rewrite <- (firstn_skipn n l). apply in_or_app. now left.
Qed.

Lemma well_formed_sessions chat o :
  well_formed chat -> well_formed (mkChat (history chat) (active chat) o).
Proof. auto. Qed.

Lemma migrate_entry_well_formed now chat e :
  well_formed chat -> well_formed (migrate_entry now chat e).
Proof.
  intros [Hnd Hp]. destruct e as [engine old]. unfold migrate_entry.
  destruct (get old "resume") as [r|]; [|split; auto].
  destruct (truthy r && negb (mem (history chat) r)) eqn:Hc; [|split; auto].
  apply andb_prop in Hc. destruct Hc as [_ Hm].
  apply negb_true_iff, get_mem_false in Hm.
  split; cbn [history active].
  - now apply NoDup_keys_set.
  - intros e rid Hg. destruct (String.eqb_spec engine e) as [->|Hne].
    + rewrite get_set_same in Hg. injection Hg as <-.
      rewrite get_set_same. eauto.
    + rewrite get_set_other in Hg by exact Hne.
      destruct (Hp e rid Hg) as (s & Hs & He).
      exists s. split; auto. rewrite get_set_other; auto.
      intros ->. congruence.
Qed.

Lemma fold_migrate_well_formed now legacy : forall chat,
  well_formed chat -> well_formed (fold_left (migrate_entry now) legacy chat).
Proof.
  induction legacy as [|e l IH]; cbn; auto.
  intros chat H. apply IH. now apply migrate_entry_well_formed.
Qed.

Lemma prune_fold_NoDup a l : forall h,
  NoDup (keys h) -> NoDup (keys (fold_left (prune_step a) l h)).
Proof.
  induction l as [|rs l IH]; cbn; auto.
  intros h H. apply IH. unfold prune_step.
  destruct a as [a|]; [destruct (String.eqb a (fst rs))|];
    auto using NoDup_keys_del.
Qed.

Lemma prune_fold_get a l rid : forall h,
  (forall rs, In rs l -> fst rs <> rid) ->
  get (fold_left (prune_step a) l h) rid = get h rid.
Proof.
  induction l as [|rs l IH]; cbn; auto.
  intros h H. rewrite IH by auto. unfold prune_step.
  assert (Hd : get (del h (fst rs)) rid = get h rid)
    by (apply get_del_other; auto).
  destruct a as [a|]; [destruct (String.eqb a (fst rs))|]; auto.
Qed.

Lemma _prune_sessions_locked_well_formed chat engine :
  well_formed chat -> well_formed (_prune_sessions_locked chat engine).
Proof.
  intros [Hnd Hp]. unfold _prune_sessions_locked.
  destruct (_ <=? _)%nat; [split; auto|]. split; cbn [history active].
  - now apply prune_fold_NoDup.
  - intros e rid Hg. destruct (Hp e rid Hg) as (s & Hs & He).
    exists s. split; auto.
    destruct (String.eqb_spec e engine) as [->|Hne].
    + rewrite Hg. now rewrite prune_keeps_active.
    + rewrite prune_fold_get; auto.
      intros [k v] Hin <-. cbn [fst] in *.
      apply In_firstn in Hin.
      apply (proj1 (In_sort_by _ _ _)) in Hin.
      unfold engine_sessions in Hin. apply filter_In in Hin.
      destruct Hin as [Hin Heng]. cbn in Heng.
      apply String.eqb_eq in Heng.
      apply (NoDup_keys_get _ _ _ Hnd) in Hin. congruence.
Qed.

Lemma set_session_locked_well_formed chat token fm now :
  well_formed chat ->
  (forall s, get (history chat) (ResumeToken.value token) = Some s ->
             SessionInfo.engine s = ResumeToken.engine token) ->
  well_formed (set_session_locked chat token fm now).
Proof.
  intros [Hnd Hp] Heng. unfold set_session_locked.
  apply _prune_sessions_locked_well_formed. split; cbn [history active].
  - destruct (get (history chat) (ResumeToken.value token));
      now apply NoDup_keys_set.
  - intros e rid Hg.
    destruct (String.eqb_spec (ResumeToken.engine token) e) as [<-|Hne].
    + rewrite get_set_same in Hg. injection Hg as <-.
      destruct (get (history chat) (ResumeToken.value token)) as [ex|] eqn:Hex;
        rewrite get_set_same; eexists; split; try reflexivity.
      specialize (Heng ex eq_refl).
      destruct (_ && _); cbn; exact Heng.
    + rewrite get_set_other in Hg by exact Hne.
      destruct (Hp e rid Hg) as (s & Hs & He).
      assert (Hrid : ResumeToken.value token <> rid).
      { intros <-. specialize (Heng s Hs). congruence. }
      exists s. split; auto.
      destruct (get (history chat) (ResumeToken.value token));
        rewrite get_set_other; auto.
Qed.

Lemma all_well_formed_set cs key chat :
  (forall k c0, In (k, c0) cs -> well_formed c0) -> well_formed chat ->
  forall k c0,
    In (k, c0) (set (V:=_ChatState) cs key chat) -> well_formed c0.
Proof.
  intros Hcs Hc k c0 Hin. apply In_set in Hin.
  destruct Hin as [Heq|Hin]; [now injection Heq as _ ->|eauto].
Qed.

Section PointerFacts.

Variable wall_clock : nat -> Z.
Variable resolve_path : string -> string.
Variable process_cwd : string.

Lemma migrate_chats_well_formed cs : forall w k c',
  In (k, c') (fst (migrate_chats wall_clock cs w)) ->
  exists c, In (k, c) cs /\ (well_formed c -> well_formed c').
Proof.
  induction cs as [|[k0 chat] cs IH]; intros w k c'; cbn [migrate_chats];
    [intros []|].
  unfold bind, ret.
  assert (H : well_formed chat ->
              well_formed (fst (_migrate_chat_state wall_clock chat w))).
  { unfold _migrate_chat_state, bind, ret, time.
    destruct (sessions chat) as [legacy|]; cbn [fst]; auto.
    intros Hw. apply well_formed_sessions.
    now apply fold_migrate_well_formed. }
  destruct (_migrate_chat_state wall_clock chat w) as [c1 w1].
  cbn [fst] in H.
  specialize (IH w1 k c').
  destruct (migrate_chats wall_clock cs w1) as [cs' w2]. cbn [fst] in *.
  intros [Heq|Hin].
  - injection Heq as -> ->. exists chat. split; [now left|exact H].
  - destruct (IH Hin) as (c & Hc & Hk). exists c. split; [now right|auto].
Qed.

Lemma loaded_well_formed w :
  all_well_formed (current w) ->
  all_well_formed (_state (loaded wall_clock w)).
Proof.
  intros Hk. unfold loaded. rewrite bind_snd.
  unfold _reload_locked_if_needed. cbn [fst snd].
  set (w0 := mkStore (current w) None (ticks w)).
  pose proof (_migrate_if_needed_spec wall_clock w0) as H. cbv zeta in H.
  destruct H as (_ & _ & _ & Hcs).
  intros k c' Hin. rewrite Hcs in Hin.
  apply migrate_chats_well_formed in Hin. destruct Hin as (c & Hc & Hkc).
  apply Hkc. now apply (Hk k).
Qed.

Lemma saved_well_formed w chat_id owner_id chat t :
  all_well_formed (_state w) -> well_formed chat ->
  all_well_formed (current (saved w chat_id owner_id chat t)).
Proof.
  intros Hw Hc. unfold saved, current, all_well_formed.
  cbn [file_changed _state chats].
  now apply all_well_formed_set.
Qed.

Lemma loaded_current w : current (loaded wall_clock w) = _state (loaded wall_clock w).
Proof.
  unfold current. now rewrite (proj1 (loaded_settled wall_clock w)).
Qed.

(** X8: the operations that clear, switch, name and delete sessions keep
    every chat well formed: afterwards each active pointer still names a
    history entry of its own engine. *)
Theorem operations_keep_pointers (w : Store) (chat_id : Z)
    (owner_id : option Z) :
  all_well_formed (current w) ->
  all_well_formed (current (snd (clear_sessions wall_clock chat_id owner_id w)))
  /\ (forall engine,
        all_well_formed
          (current (snd (new_session wall_clock chat_id owner_id engine w))))
  /\ (forall resume_id,
        all_well_formed
          (current (snd (switch_session wall_clock chat_id owner_id
                           resume_id w))))
  /\ (forall engine title,
        all_well_formed
          (current (snd (name_session wall_clock chat_id owner_id engine
                           title w))))
  /\ (forall resume_id,
        all_well_formed
          (current (snd (delete_session wall_clock chat_id owner_id
                           resume_id w)))).
Proof.
  intros Hw. apply loaded_well_formed in Hw.
  pose proof (loaded_current w) as Hcur.
  set (w1 := loaded wall_clock w) in *.
  assert (Hchat : forall chat,
    get (chats (_state w1)) (_chat_key chat_id owner_id) = Some chat ->
    well_formed chat).
  { intros chat Hc. apply get_In in Hc. eapply Hw; eauto. }
  split; [|split; [|split; [|split]]].
  - rewrite clear_sessions_loaded. cbv zeta. fold w1.
    destruct (get (chats (_state w1)) (_chat_key chat_id owner_id))
      as [chat|] eqn:Hc; [|now rewrite Hcur].
    apply saved_well_formed; auto.
    destruct (Hchat chat eq_refl) as [Hnd _].
    split; cbn [history active]; auto. intros e rid Hg. discriminate.
  - intros engine. rewrite new_session_loaded. cbv zeta. fold w1.
    destruct (get (chats (_state w1)) (_chat_key chat_id owner_id))
      as [chat|] eqn:Hc; [|now rewrite Hcur].
    apply saved_well_formed; auto.
    destruct (Hchat chat eq_refl) as [Hnd Hp].
    split; cbn [history active]; auto. intros e rid Hg.
    apply Hp. destruct (mem (active chat) engine); auto.
    destruct (String.eqb_spec engine e) as [->|Hne].
    + now rewrite get_del_gone in Hg.
    + now rewrite get_del_other in Hg.
  - intros rid. rewrite switch_session_loaded. cbv zeta. fold w1.
    destruct (get (chats (_state w1)) (_chat_key chat_id owner_id))
      as [chat|] eqn:Hc; [|cbn [snd]; now rewrite Hcur].
    destruct (get (history chat) rid) as [s|] eqn:Hh; [|cbn [snd]; now rewrite Hcur].
    cbn [snd]. apply saved_well_formed; auto.
    destruct (Hchat chat eq_refl) as [Hnd Hp].
    split; cbn [history active]; [now apply NoDup_keys_set|].
    intros e rid' Hg.
    destruct (String.eqb_spec (SessionInfo.engine s) e) as [<-|Hne].
    + rewrite get_set_same in Hg. injection Hg as <-.
      rewrite get_set_same. eauto.
    + rewrite get_set_other in Hg by exact Hne.
      destruct (Hp e rid' Hg) as (s' & Hs' & He).
      exists s'. split; auto. rewrite get_set_other; auto.
      intros <-. congruence.
  - intros engine title. rewrite name_session_loaded. cbv zeta. fold w1.
    destruct (get (chats (_state w1)) (_chat_key chat_id owner_id))
      as [chat|] eqn:Hc; [|cbn [snd]; now rewrite Hcur].
    destruct (get (active chat) engine) as [rid|] eqn:Ha;
      [|cbn [snd]; now rewrite Hcur].
    destruct (truthy rid); [|cbn [snd]; now rewrite Hcur].
    destruct (get (history chat) rid) as [s|] eqn:Hh; [|cbn [snd]; now rewrite Hcur].
    cbn [snd]. apply saved_well_formed; auto.
    destruct (Hchat chat eq_refl) as [Hnd Hp].
    split; cbn [history active]; [now apply NoDup_keys_set|].
    intros e rid' Hg. destruct (Hp e rid' Hg) as (s' & Hs' & He).
    destruct (String.eqb_spec rid rid') as [<-|Hne].
    + rewrite get_set_same. eexists. split; [reflexivity|].
      cbn. congruence.
    + exists s'. split; auto. now rewrite get_set_other.
  - intros rid. rewrite delete_session_loaded. cbv zeta. fold w1.
    destruct (get (chats (_state w1)) (_chat_key chat_id owner_id))
      as [chat|] eqn:Hc; [|cbn [snd]; now rewrite Hcur].
    destruct (get (history chat) rid) as [s|] eqn:Hh; [|cbn [snd]; now rewrite Hcur].
    cbn [snd]. apply saved_well_formed; auto.
    destruct (Hchat chat eq_refl) as [Hnd Hp].
    split; cbn [history active]; [now apply NoDup_keys_del|].
    intros e rid' Hg.
    assert (Hg0 : get (active chat) e = Some rid'
                  /\ (get (active chat) (SessionInfo.engine s) = Some rid ->
                      e <> SessionInfo.engine s)).
    { destruct (get (active chat) (SessionInfo.engine s)) as [a|] eqn:Ha.
      - destruct (String.eqb_spec a rid) as [->|Hne].
        + destruct (String.eqb_spec (SessionInfo.engine s) e) as [<-|Hne].
          * now rewrite get_del_gone in Hg.
          * rewrite get_del_other in Hg by exact Hne. split; auto.
        + split; auto. congruence.
      - split; auto. discriminate. }
    destruct Hg0 as [Hg0 Hne].
    destruct (Hp e rid' Hg0) as (s' & Hs' & He).
    exists s'. split; auto. rewrite get_del_other; auto.
    intros <-. apply Hne; congruence.
Qed.

(** X12: [set_session_resume] keeps every chat well formed, provided the
    token's id is not already stored in the chat for another engine. *)
Theorem set_session_resume_keeps_pointers (w : Store) (chat_id : Z)
    (owner_id : option Z) (token : ResumeToken.t)
    (first_message : option string) :
  all_well_formed (current w) ->
  (forall s,
     get (history (ensured (loaded wall_clock w) chat_id owner_id))
       (ResumeToken.value token) = Some s ->
     SessionInfo.engine s = ResumeToken.engine token) ->
  all_well_formed
    (current (snd (set_session_resume wall_clock resolve_path process_cwd
                     chat_id owner_id token first_message w))).
Proof.
  intros Hw Heng. apply loaded_well_formed in Hw.
  rewrite set_session_resume_loaded. cbv zeta.
  set (w1 := loaded wall_clock w) in *.
  unfold current, all_well_formed. cbn [file_changed _state chats].
  assert (Hens : well_formed (ensured w1 chat_id owner_id)).
  { unfold ensured.
    destruct (get (chats (_state w1)) (_chat_key chat_id owner_id))
      as [chat|] eqn:Hc.
    - apply get_In in Hc. eapply Hw; eauto.
    - split; [constructor|]. intros e rid Hg. discriminate. }
  apply all_well_formed_set.
  - destruct (get (chats (_state w1)) (_chat_key chat_id owner_id));
      [exact Hw|].
    apply all_well_formed_set; [exact Hw|].
    split; [constructor|]. intros e rid Hg. discriminate.
  - now apply set_session_locked_well_formed.
Qed.

End PointerFacts.

(** *** How many sessions pruning leaves *)

Lemma insert_by_perm {A} (key : A -> Z) x l :
  Permutation (insert_by key x l) (x :: l).
Proof.
  induction l as [|y l IH]; cbn; auto.
  destruct (key x <=? key y)%Z; auto.
  rewrite IH. apply perm_swap.
Qed.

Lemma sort_by_perm {A} (key : A -> Z) l : Permutation (sort_by key l) l.
Proof.
  unfold sort_by. induction l as [|x l IH]; cbn; auto.
  rewrite insert_by_perm. auto.
Qed.

Lemma NoDup_keys_filter {V} (f : string * V -> bool) (d : dict V) :
  NoDup (keys d) -> NoDup (keys (filter f d)).
Proof.
  unfold keys. induction d as [|[k0 v0] d IH]; cbn; auto.
  intros H. inversion H as [|? ? Hn Hd]; subst.
  destruct (f (k0, v0)); cbn; auto.
  constructor; auto. intros Hin. apply Hn.
  apply in_map_iff in Hin. destruct Hin as (x & Hx & Hin).
  apply filter_In in Hin. apply in_map_iff. exists x. tauto.
Qed.

Lemma NoDup_firstn {A} n (l : list A) : NoDup l -> NoDup (firstn n l).
Proof.
  intros H. rewrite <- (firstn_skipn n l) in H.
  now apply NoDup_app_remove_r in H.
Qed.

(** The entries the removal loop skips: those the active pointer names. *)
Definition skipped (active_rid : option string)
    (rs : string * SessionInfo.t) : bool :=
  match active_rid with
  | Some a => String.eqb a (fst rs)
  | None => false
  end.

Lemma skipped_at_most_once a (l : list (string * SessionInfo.t)) :
  NoDup (map fst l) -> (List.length (filter (skipped a) l) <= 1)%nat.
Proof.
  destruct a as [a|]; cbn.
  - induction l as [|[k v] l IH]; cbn; auto.
    intros H. inversion H as [|? ? Hn Hd]; subst.
    destruct (String.eqb_spec a k) as [->|Hne]; auto.
    cbn. assert (Hz : filter (skipped (Some k)) l = []).
    { clear - Hn. induction l as [|[k' v'] l IH]; cbn; auto.
      destruct (String.eqb_spec k k') as [->|Hne].
      - exfalso. apply Hn. now left.
      - apply IH. intros Hin. apply Hn. now right. }
    cbn in Hz. rewrite Hz. auto.
  - intros _. induction l; cbn; auto.
Qed.

Lemma prune_fold_count a engine l : forall h,
  NoDup (keys h) -> NoDup (map fst l) ->
  (forall rs, In rs l -> In rs (engine_sessions h engine)) ->
  (List.length (engine_sessions (fold_left (prune_step a) l h) engine)
   + List.length l
   = List.length (engine_sessions h engine)
     + List.length (filter (skipped a) l))%nat.
Proof.
  induction l as [|[k v] l IH]; intros h Hnd Hl Hin; cbn [fold_left filter].
  - cbn. lia.
  - inversion Hl as [|? ? Hk Hl']; subst.
    assert (Hstep : prune_step a h (k, v)
                    = if skipped a (k, v) then h else del h k).
    { unfold prune_step, skipped. destruct a as [a|]; reflexivity. }
    rewrite Hstep. cbn [List.length]. destruct (skipped a (k, v)) eqn:Hs.
    + assert (H : forall rs, In rs l -> In rs (engine_sessions h engine))
        by (intros rs Hrs; apply Hin; now right).
      specialize (IH h Hnd Hl' H). cbn [List.length]. lia.
    + assert (H : forall rs, In rs l ->
                             In rs (engine_sessions (del h k) engine)).
      { intros [k' v'] Hrs.
        assert (Hne : k' <> k).
        { intros ->. apply Hk. apply in_map_iff. exists (k, v'). auto. }
        specialize (Hin (k', v') (or_intror Hrs)).
        unfold engine_sessions, del in *.
        apply filter_In in Hin. destruct Hin as [Hin He].
        apply filter_In. split; auto. apply filter_In. split; auto.
        cbn. now destruct (String.eqb_spec k' k). }
      specialize (IH (del h k) (NoDup_keys_del h k Hnd) Hl' H).
      pose proof (engine_sessions_del h engine k v Hnd
                    (Hin (k, v) (or_introl eq_refl))) as Hd.
      lia.
Qed.

Lemma engine_sessions_del_other h engine other k v :
  NoDup (keys h) -> In (k, v) h -> SessionInfo.engine v = engine ->
  other <> engine ->
  engine_sessions (del h k) other = engine_sessions h other.
Proof.
  intros Hnd Hin He Hne. unfold engine_sessions, del.
  induction h as [|[k0 v0] h IH]; cbn [filter fst snd]; auto.
  unfold keys in Hnd. cbn in Hnd. inversion Hnd as [|? ? Hk Hnd']; subst.
  destruct (String.eqb_spec k0 k) as [->|Hk0]; cbn [negb filter snd].
  - assert (v0 = v).
    { destruct Hin as [E|Hin]; [congruence|].
      exfalso. apply Hk. apply in_map_iff. exists (k, v). auto. }
    subst v0.
    assert (Hf : String.eqb (SessionInfo.engine v) other = false).
    { destruct (String.eqb_spec (SessionInfo.engine v) other); congruence. }
    rewrite Hf. f_equal.
    apply forallb_filter_id. apply forallb_forall. intros [k' v'] Hin'.
    cbn. destruct (String.eqb_spec k' k) as [->|]; auto.
    exfalso. apply Hk. apply in_map_iff. exists (k, v'). auto.
  - destruct Hin as [E|Hin]; [congruence|].
    rewrite IH; auto.
Qed.

Lemma prune_fold_other a engine other l : forall h,
  NoDup (keys h) -> NoDup (map fst l) ->
  (forall rs, In rs l -> In rs (engine_sessions h engine)) ->
  other <> engine ->
  engine_sessions (fold_left (prune_step a) l h) other
  = engine_sessions h other.
Proof.
  induction l as [|[k v] l IH]; intros h Hnd Hl Hin Hne; cbn [fold_left];
    auto.
  inversion Hl as [|? ? Hk Hl']; subst.
  assert (Hstep : prune_step a h (k, v)
                  = if skipped a (k, v) then h else del h k).
  { unfold prune_step, skipped. destruct a as [a|]; reflexivity. }
  rewrite Hstep. destruct (skipped a (k, v)) eqn:Hs.
  - apply IH; auto. intros rs Hrs. apply Hin. now right.
  - pose proof (Hin (k, v) (or_introl eq_refl)) as Hkv.
    unfold engine_sessions in Hkv. apply filter_In in Hkv.
    destruct Hkv as [Hkv He]. cbn in He. apply String.eqb_eq in He.
    rewrite IH; auto using NoDup_keys_del.
    + eapply engine_sessions_del_other; eauto.
    + intros [k' v'] Hrs.
      assert (Hne' : k' <> k).
      { intros ->. apply Hk. apply in_map_iff. exists (k, v'). auto. }
      specialize (Hin (k', v') (or_intror Hrs)).
      unfold engine_sessions, del in *.
      apply filter_In in Hin. destruct Hin as [Hin He'].
      apply filter_In. split; auto. apply filter_In. split; auto.
      cbn. now destruct (String.eqb_spec k' k).
Qed.

(** X10: with distinct history keys, pruning leaves a chat with at most
    [MAX_SESSIONS_PER_CHAT] sessions of the engine as it is; from a chat
    with more it removes sessions of that engine only until
    [MAX_SESSIONS_PER_CHAT] are left, or one more when the active session
    of the engine is among the oldest ones and is therefore skipped. *)
Theorem prune_bounds (chat : _ChatState) (engine : string) :
  NoDup (keys (history chat)) ->
  let chat' := _prune_sessions_locked chat engine in
  ((count_engine chat engine <= MAX_SESSIONS_PER_CHAT)%nat -> chat' = chat)
  /\ ((MAX_SESSIONS_PER_CHAT < count_engine chat engine)%nat ->
      (MAX_SESSIONS_PER_CHAT <= count_engine chat' engine
       <= S MAX_SESSIONS_PER_CHAT)%nat
      /\ (get (active chat) engine = None ->
          count_engine chat' engine = MAX_SESSIONS_PER_CHAT))
  /\ (forall other, other <> engine ->
        engine_sessions (history chat') other
        = engine_sessions (history chat) other).
Proof.
  intros Hnd. cbv zeta. unfold count_engine, _prune_sessions_locked.
  set (es := engine_sessions (history chat) engine).
  set (sorted := sort_by (fun rs => SessionInfo.updated_at (snd rs)) es).
  set (k := (List.length es - MAX_SESSIONS_PER_CHAT)%nat).
  assert (Ek : k = (List.length es - MAX_SESSIONS_PER_CHAT)%nat)
    by reflexivity.
  clearbody k.
  assert (Hl : NoDup (map fst (firstn k sorted))).
  { rewrite <- firstn_map. apply NoDup_firstn.
    apply (Permutation_NoDup (l := map fst es)).
    - apply Permutation_map, Permutation_sym, sort_by_perm.
    - now apply NoDup_keys_filter. }
  assert (Hin : forall rs, In rs (firstn k sorted) -> In rs es).
  { intros rs Hrs. apply In_firstn in Hrs.
    now apply (proj1 (In_sort_by _ _ _)) in Hrs. }
  destruct (Nat.leb_spec (List.length es) MAX_SESSIONS_PER_CHAT) as [Hle|Hgt].
  - split; [reflexivity|]. split; [lia|reflexivity].
  - split; [lia|]. cbn [history active].
    pose proof (prune_fold_count (get (active chat) engine) engine
                  (firstn k sorted) (history chat) Hnd Hl Hin) as Hc.
    pose proof (skipped_at_most_once (get (active chat) engine)
                  (firstn k sorted) Hl) as Hs.
    assert (Hk : List.length (firstn k sorted) = k).
    { apply firstn_length_le. unfold sorted. rewrite length_sort_by.
      lia. }
    fold es in Hc. rewrite Hk in Hc.
    split; [intros _; split; [lia|]|].
    + intros Hnone. rewrite Hnone in Hc |- *.
      assert (Hz : filter (skipped None) (firstn k sorted) = []).
      { clear. induction (firstn k sorted); cbn; auto. }
      rewrite Hz in Hc. cbn [List.length] in Hc. lia.
    + intros other Hne. now apply prune_fold_other with (engine := engine).
Qed.

(** *** The operations on a concrete store *)

(** A store with one chat holding two sessions of the engine [codex], the
    second one active. *)
Definition two_sessions : Store :=
  mkStore
    (mkState STATE_VERSION (Some "/srv")
       [("42:chat",
         mkChat
           [("s1", SessionInfo.mk "s1" "codex" None (Some "hi") 1 1);
            ("s2", SessionInfo.mk "s2" "codex" None None 2 2)]
           [("codex", "s2")] None)])
    None 2.

Definition clock_at_7 (n : nat) : Z := 7.

Lemma history_keyed_two_sessions : history_keyed (current two_sessions).
Proof.
  intros key chat [E|[]]. injection E as <- <-.
  intros rid s Hin. destruct Hin as [E|[E|[]]]; inversion E; reflexivity.
Qed.

Fixpoint distinct (l : list string) : bool :=
  match l with
  | [] => true
  | x :: l' => negb (existsb (String.eqb x) l') && distinct l'
  end.

Lemma distinct_NoDup l : distinct l = true -> NoDup l.
Proof.
  induction l as [|x l IH]; cbn; [constructor|].
  intros H. apply andb_prop in H. destruct H as [Hx Hl].
  constructor; auto. intros Hin.
  apply negb_true_iff in Hx.
  assert (Ht : existsb (String.eqb x) l = true).
  { apply existsb_exists. exists x. split; auto. apply String.eqb_refl. }
  congruence.
Qed.

Lemma all_well_formed_two_sessions : all_well_formed (current two_sessions).
Proof.
  intros key chat [E|[]]. injection E as <- <-. split.
  - apply distinct_NoDup. reflexivity.
  - intros e rid Hg. cbn [active get] in Hg.
    destruct (String.eqb "codex" e) eqn:E; [|discriminate].
    apply String.eqb_eq in E. subst e.
    injection Hg as <-. eexists. split; reflexivity.
Qed.

Lemma switch_session_activates_witness :
  let w' := snd (switch_session clock_at_7 42 None "s1" two_sessions) in
  fst (get_active_session_id clock_at_7 42 None "codex" w') = Some "s1"
  /\ ("s1" <> "" ->
      fst (get_session_resume clock_at_7 42 None "codex" w')
      = Some (ResumeToken.mk "codex" "s1"))
  /\ 7%Z = clock_at_7 (ticks (loaded clock_at_7 two_sessions))
  /\ In (SessionInfo.mk "s1" "codex" None (Some "hi") 1 7)
       (fst (list_sessions clock_at_7 42 None None w')).
Proof.
  exact (switch_session_activates clock_at_7 two_sessions 42 None "s1"
           (SessionInfo.mk "s1" "codex" None (Some "hi") 1 7) eq_refl).
Defined.

Lemma unknown_session_is_noop_witness :
  switch_session clock_at_7 42 None "s9" two_sessions
  = (None, loaded clock_at_7 two_sessions)
  /\ delete_session clock_at_7 42 None "s9" two_sessions
     = (false, loaded clock_at_7 two_sessions).
Proof.
  apply (unknown_session_is_noop clock_at_7 two_sessions 42 None "s9").
  intros chat Hc. vm_compute in Hc. injection Hc as <-. reflexivity.
Defined.

Lemma delete_session_forgets_witness :
  let w' := snd (delete_session clock_at_7 42 None "s2" two_sessions) in
  (forall engine,
     fst (get_session_resume clock_at_7 42 None engine w')
     <> Some (ResumeToken.mk engine "s2"))
  /\ (forall engine s,
        In s (fst (list_sessions clock_at_7 42 None engine w')) ->
        SessionInfo.resume s <> "s2").
Proof.
  exact (delete_session_forgets clock_at_7 two_sessions 42 None "s2"
           history_keyed_two_sessions eq_refl).
Defined.

(** A store with two chats: the private chat [(42, None)] with two
    sessions, and the chat of the owner 7 in the same group with one. *)
Definition two_chats : Store :=
  mkStore
    (mkState STATE_VERSION (Some "/srv")
       [("42:chat",
         mkChat
           [("s1", SessionInfo.mk "s1" "codex" None (Some "hi") 1 1);
            ("s2", SessionInfo.mk "s2" "codex" None None 2 2)]
           [("codex", "s2")] None);
        ("42:7",
         mkChat
           [("t1", SessionInfo.mk "t1" "codex" None (Some "yo") 3 3)]
           [("codex", "t1")] None)])
    None 4.

(** Deleting the active session of the first chat, and then opening a new
    one there, changes the first chat and leaves the view of the second. *)
Lemma other_chats_untouched_witness :
  delete_session clock_at_7 42 None "s2" two_chats
  = (true,
     mkStore
       (mkState STATE_VERSION (Some "/srv")
          [("42:chat",
            mkChat
              [("s1", SessionInfo.mk "s1" "codex" None (Some "hi") 1 1)]
              [] None);
           ("42:7",
            mkChat
              [("t1", SessionInfo.mk "t1" "codex" None (Some "yo") 3 3)]
              [("codex", "t1")] None)])
       None 4)
  /\ fst (get_session_resume clock_at_7 42 (Some 7%Z) "codex" two_chats)
     = Some (ResumeToken.mk "codex" "t1")
  /\ same_view clock_at_7 42 (Some 7%Z) two_chats
       (snd (delete_session clock_at_7 42 None "s2" two_chats))
  /\ same_view clock_at_7 42 (Some 7%Z) two_chats
       (snd (set_session_resume clock_at_7 identity_path "/srv" 42 None
               (ResumeToken.mk "codex" "s3") (Some "hello") two_chats)).
Proof.
  split; [reflexivity|]. split; [reflexivity|].
  assert (Hne : (42%Z, @None Z) <> (42%Z, Some 7%Z)) by discriminate.
  split.
  - exact (proj2 (proj2 (proj2 (proj2 (proj2
             (other_chats_untouched clock_at_7 identity_path "/srv"
                two_chats 42 42 None (Some 7%Z) Hne))))) "s2").
  - exact (proj1
             (other_chats_untouched clock_at_7 identity_path "/srv"
                two_chats 42 42 None (Some 7%Z) Hne)
             (ResumeToken.mk "codex" "s3") (Some "hello")).
Defined.

Lemma operations_keep_pointers_witness :
  all_well_formed
    (current (snd (delete_session clock_at_7 42 None "s2" two_sessions))).
Proof.
  apply (operations_keep_pointers clock_at_7 two_sessions 42 None).
  exact all_well_formed_two_sessions.
Defined.

Lemma set_session_resume_keeps_pointers_witness :
  all_well_formed
    (current (snd (set_session_resume clock_at_7 identity_path "/srv"
                     42 None (ResumeToken.mk "codex" "s1") None
                     two_sessions))).
Proof.
  apply (set_session_resume_keeps_pointers clock_at_7 identity_path "/srv"
           two_sessions 42 None (ResumeToken.mk "codex" "s1") None).
  - exact all_well_formed_two_sessions.
  - intros s Hs. vm_compute in Hs. injection Hs as <-. reflexivity.
Defined.

(** A chat with twenty-one sessions of [codex], the oldest one active. *)
Definition numbered_session (i : nat) : string * SessionInfo.t :=
  let k := "s" ^^ str_int (Z.of_nat i) in
  (k, SessionInfo.mk k "codex" None None (Z.of_nat i) (Z.of_nat i)).

Definition crowded_chat : _ChatState :=
  mkChat (map numbered_session (seq 1 21)) [("codex", "s1")] None.

Lemma prune_bounds_witness :
  let chat' := _prune_sessions_locked crowded_chat "codex" in
  ((count_engine crowded_chat "codex" <= MAX_SESSIONS_PER_CHAT)%nat ->
   chat' = crowded_chat)
  /\ ((MAX_SESSIONS_PER_CHAT < count_engine crowded_chat "codex")%nat ->
      (MAX_SESSIONS_PER_CHAT <= count_engine chat' "codex"
       <= S MAX_SESSIONS_PER_CHAT)%nat
      /\ (get (active crowded_chat) "codex" = None ->
          count_engine chat' "codex" = MAX_SESSIONS_PER_CHAT))
  /\ (forall other, other <> "codex" ->
        engine_sessions (history chat') other
        = engine_sessions (history crowded_chat) other).
Proof.
  apply (prune_bounds crowded_chat "codex").
  apply distinct_NoDup. vm_compute. reflexivity.
Defined.

(** *** Migration from the single-session format *)

Lemma migrate_entry_get now chat e rid s :
  get (history chat) rid = Some s ->
  get (history (migrate_entry now chat e)) rid = Some s.
Proof.
  intros Hg. destruct e as [engine old]. unfold migrate_entry.
  destruct (get old "resume") as [r|]; auto.
  destruct (truthy r && negb (mem (history chat) r)) eqn:E; auto.
  cbn [history]. rewrite get_set_other; auto.
  intros ->. apply andb_prop in E. destruct E as [_ E].
  unfold mem in E. now rewrite Hg in E.
Qed.

Lemma fold_migrate_get now legacy rid s : forall chat,
  get (history chat) rid = Some s ->
  get (history (fold_left (migrate_entry now) legacy chat)) rid = Some s.
Proof.
  induction legacy as [|e l IH]; cbn; auto.
  intros chat Hg. now apply IH, migrate_entry_get.
Qed.

Lemma fold_migrate_mem now legacy engine old r : forall chat,
  In (engine, old) legacy -> get old "resume" = Some r -> truthy r = true ->
  mem (history (fold_left (migrate_entry now) legacy chat)) r = true.
Proof.
  induction legacy as [|e l IH]; cbn; [intros ? []|].
  intros chat [->|Hin] Hr Ht; [|now apply IH].
  assert (H : exists s,
    get (history (migrate_entry now chat (engine, old))) r = Some s).
  { unfold migrate_entry. rewrite Hr, Ht. cbn [andb].
    unfold mem. destruct (get (history chat) r) as [s|] eqn:Hg; cbn [negb].
    - eauto.
    - cbn [history]. rewrite get_set_same. eauto. }
  destruct H as [s Hs]. unfold mem.
  now rewrite (fold_migrate_get _ _ _ _ _ Hs).
Qed.

(** The entries of other engines that name other resume ids leave the id
    [r] out of the history and the pointer of [engine] as it is. *)
Lemma fold_migrate_others now legacy engine r : forall chat,
  ~ In engine (keys legacy) ->
  (forall e old, In (e, old) legacy -> get old "resume" <> Some r) ->
  get (history (fold_left (migrate_entry now) legacy chat)) r
  = get (history chat) r
  /\ get (active (fold_left (migrate_entry now) legacy chat)) engine
     = get (active chat) engine.
Proof.
  induction legacy as [|[e old] l IH]; cbn [fold_left]; [auto|].
  intros chat Hn Hr.
  assert (Hl : ~ In engine (keys l)) by (intros H; apply Hn; now right).
  assert (He : e <> engine) by (intros H; apply Hn; now left).
  destruct (IH (migrate_entry now chat (e, old)) Hl) as [H1 H2].
  { intros e' old' Hin. apply (Hr e'). now right. }
  rewrite H1, H2. unfold migrate_entry.
  destruct (get old "resume") as [r'|] eqn:Er; auto.
  destruct (truthy r' && negb (mem (history chat) r')); auto.
  cbn [history active]. rewrite !get_set_other; auto.
  intros ->. apply (Hr e old); auto. now left.
Qed.

Lemma fold_migrate_active now legacy engine r : forall chat,
  ~ In engine (keys legacy) ->
  get (active chat) engine = Some r ->
  get (active (fold_left (migrate_entry now) legacy chat)) engine = Some r.
Proof.
  induction legacy as [|[e old] l IH]; cbn [fold_left]; [auto|].
  intros chat Hn Ha. apply IH; [intros H; apply Hn; now right|].
  assert (He : e <> engine) by (intros H; apply Hn; now left).
  unfold migrate_entry.
  destruct (get old "resume") as [r'|]; auto.
  destruct (truthy r' && negb (mem (history chat) r')); auto.
  cbn [active]. now rewrite get_set_other.
Qed.

Section Migration.

Variable wall_clock : nat -> Z.

(** X30: [_migrate_chat_state] clears the legacy field and keeps every
    session the history held as it was; every non-empty resume id of a
    legacy entry is in the history afterwards; and a legacy entry whose
    id is new, in a legacy mapping with one entry per engine and no other
    entry of that id, becomes a session of its engine, created at the time
    of the migration, and the active one of that engine. *)
Theorem _migrate_chat_state_keeps_sessions (chat : _ChatState) (w : Store) :
  let chat' := fst (_migrate_chat_state wall_clock chat w) in
  sessions chat' = None
  /\ (forall rid s,
        get (history chat) rid = Some s -> get (history chat') rid = Some s)
  /\ (forall legacy engine old r,
        sessions chat = Some legacy -> In (engine, old) legacy ->
        get old "resume" = Some r -> r <> "" ->
        mem (history chat') r = true)
  /\ (forall legacy engine old r,
        sessions chat = Some legacy -> NoDup (keys legacy) ->
        In (engine, old) legacy -> get old "resume" = Some r -> r <> "" ->
        get (history chat) r = None ->
        (forall e old', In (e, old') legacy -> e <> engine ->
                        get old' "resume" <> Some r) ->
        let now := wall_clock (ticks w) in
        get (history chat') r
        = Some (SessionInfo.mk r engine None None now now)
        /\ get (active chat') engine = Some r).
Proof.
  cbv zeta. unfold _migrate_chat_state.
  destruct (sessions chat) as [legacy|] eqn:Hs.
  - unfold bind, ret, time. cbn [fst snd sessions history active].
    split; [reflexivity|]. split; [|split].
    + intros rid s. apply fold_migrate_get.
    + intros l engine old r E Hin Hr Hne. injection E as <-.
      apply (fold_migrate_mem _ _ engine old); auto.
      destruct r; [congruence|reflexivity].
    + intros l engine old r E Hnd Hin Hr Hne Hfresh Hother.
      injection E as <-.
      destruct (in_split _ _ Hin) as (l1 & l2 & ->).
      unfold keys in Hnd. rewrite map_app in Hnd. cbn [map fst] in Hnd.
      pose proof (NoDup_remove_2 _ _ _ Hnd) as Hnot.
      assert (H1 : ~ In engine (keys l1))
        by (intros H; apply Hnot, in_or_app; now left).
      assert (H2 : ~ In engine (keys l2))
        by (intros H; apply Hnot, in_or_app; now right).
      rewrite fold_left_app. cbn [fold_left].
      destruct (fold_migrate_others (wall_clock (ticks w)) l1 engine r chat H1)
        as [Eh Ea].
      { intros e old' Hin1. apply (Hother e old').
        - apply in_or_app. now left.
        - intros ->. apply H1. unfold keys. apply in_map_iff.
          now exists (engine, old'). }
      set (c1 := fold_left (migrate_entry (wall_clock (ticks w))) l1 chat)
        in *.
      assert (Hstep : migrate_entry (wall_clock (ticks w)) c1 (engine, old)
        = mkChat
            (set (history c1) r
               (SessionInfo.mk r engine None None (wall_clock (ticks w))
                  (wall_clock (ticks w))))
            (set (active c1) engine r) (sessions c1)).
      { unfold migrate_entry. rewrite Hr. unfold mem.
        rewrite Eh, Hfresh. destruct r; [congruence|reflexivity]. }
      rewrite Hstep. split.
      * apply fold_migrate_get. cbn [history]. apply get_set_same.
      * apply fold_migrate_active; auto. cbn [active]. apply get_set_same.
  - unfold ret. cbn [fst]. split; [exact Hs|]. split; [auto|].
    split; intros; congruence.
Qed.

End Migration.

(** A chat entry of the single-session format, with one session for each
    of two engines. *)
Definition legacy_chat : _ChatState :=
  mkChat [] []
    (Some [("codex", [("resume", "t1")]); ("claude", [("resume", "t2")])]).

Example _migrate_chat_state_legacy_chat :
  fst (_migrate_chat_state clock_at_7 legacy_chat two_sessions)
  = mkChat
      [("t1", SessionInfo.mk "t1" "codex" None None 7 7);
       ("t2", SessionInfo.mk "t2" "claude" None None 7 7)]
      [("codex", "t1"); ("claude", "t2")] None.
Proof. reflexivity. Qed.

End ChatSessions.


(** ** telegram/commands/sessions.py *)

Module SessionCommands.

Import PyDict ChatSessions.

Definition line_feed : string := String "010"%char EmptyString.

(** [a or b] for [a : str | None] and [b : str]. *)
Definition str_or (a : option string) (b : string) : string :=
  match a with
  | Some s => if truthy s then s else b
  | None => b
  end.

(** [s.startswith(prefix)] *)
Definition startswith (s prefix : string) : bool := String.prefix prefix s.

Definition _short_id (resume_id : string) : string := substring 0 8 resume_id.

(** [session.title or session.first_message or _short_id(session.resume)],
    the title the handlers put in their replies. *)
Definition shown_title (session : SessionInfo.t) : string :=
  str_or (SessionInfo.title session)
    (str_or (SessionInfo.first_message session)
       (_short_id (SessionInfo.resume session))).

(** [[s for s in sessions if s.resume.startswith(resume_id)]] *)
Definition matching (resume_id : string) (sessions : list SessionInfo.t)
    : list SessionInfo.t :=
  filter (fun s => startswith (SessionInfo.resume s) resume_id) sessions.

Section Handlers.

Variable wall_clock : nat -> Z.

(** The handlers of the commands work on the store and answer through
    [reply = make_reply(cfg, msg)], the only use they make of [cfg] and
    [msg]; each is given here as the store operation it makes, returning
    the texts it passes to [reply], in the order of the calls.
    [session_key] is [(chat_id, owner_id)] or [None]. *)
Definition handle_switch_command (args_text : string)
    (session_key : option (Z * option Z)) : M (list string) :=
  match session_key with
  | None => ret ["session tracking not available."]
  | Some (chat_id, owner_id) =>
      let resume_id := strip args_text in
      if negb (truthy resume_id) then
        ret ["usage: `/switch <session_id>`" ^^ line_feed
             ^^ "use `/sessions` to see available sessions."]
      else
        sessions <- list_sessions wall_clock chat_id owner_id None ;;
        let matching := matching resume_id sessions in
        match matching with
        | [] => ret ["no session found matching `" ^^ resume_id ^^ "`"]
        | first :: _ =>
            if (1 <? List.length matching)%nat then
              ret ["multiple sessions match `" ^^ resume_id
                   ^^ "`. be more specific."]
            else
              session <- switch_session wall_clock chat_id owner_id
                           (SessionInfo.resume first) ;;
              match session with
              | None => ret ["failed to switch session."]
              | Some session =>
                  ret ["switched to: `" ^^ shown_title session ^^ "`"
                       ^^ line_feed ^^ line_feed
                       ^^ "resume: `claude --resume "
                       ^^ SessionInfo.resume session ^^ "`"]
              end
        end
  end.

Definition handle_name_command (args_text : string)
    (session_key : option (Z * option Z)) (default_engine : string)
    : M (list string) :=
  match session_key with
  | None => ret ["session tracking not available."]
  | Some (chat_id, owner_id) =>
      let title := strip args_text in
      if negb (truthy title) then
        ret ["usage: `/name <title>`" ^^ line_feed
             ^^ "example: `/name API refactoring`"]
      else
        success <- name_session wall_clock chat_id owner_id default_engine
                     title ;;
        if negb success then
          ret ["no active session to name. start a conversation first."]
        else ret ["session named: `" ^^ title ^^ "`"]
  end.

Definition handle_delete_command (args_text : string)
    (session_key : option (Z * option Z)) : M (list string) :=
  match session_key with
  | None => ret ["session tracking not available."]
  | Some (chat_id, owner_id) =>
      let resume_id := strip args_text in
      if negb (truthy resume_id) then
        ret ["usage: `/delete <session_id>`" ^^ line_feed
             ^^ "use `/sessions` to see available sessions."]
      else
        sessions <- list_sessions wall_clock chat_id owner_id None ;;
        let matching := matching resume_id sessions in
        match matching with
        | [] => ret ["no session found matching `" ^^ resume_id ^^ "`"]
        | session :: _ =>
            if (1 <? List.length matching)%nat then
              ret ["multiple sessions match `" ^^ resume_id
                   ^^ "`. be more specific."]
            else
              let title := shown_title session in
              success <- delete_session wall_clock chat_id owner_id
                           (SessionInfo.resume session) ;;
              if negb success then ret ["failed to delete session."]
              else ret ["deleted session: `" ^^ title ^^ "`"]
        end
  end.

(** [handle_switch_callback] returns the response text. *)
Definition handle_switch_callback (session_key : option (Z * option Z))
    (resume_id_prefix : string) : M string :=
  match session_key with
  | None => ret "session tracking not available."
  | Some (chat_id, owner_id) =>
      sessions <- list_sessions wall_clock chat_id owner_id None ;;
      match matching resume_id_prefix sessions with
      | [] => ret "session not found"
      | first :: _ =>
          session <- switch_session wall_clock chat_id owner_id
                       (SessionInfo.resume first) ;;
          match session with
          | None => ret "failed to switch session"
          | Some session => ret ("switched to: " ^^ shown_title session)
          end
      end
  end.

End Handlers.

(** *** Facts about the handlers *)

Lemma filter_all {A} (l : list A) : filter (fun _ => true) l = l.
Proof. induction l as [|x l IH]; cbn; congruence. Qed.

Lemma filter_singleton_perm {A} (f : A -> bool) (l l' : list A) (x : A) :
  Permutation l l' -> filter f l = [x] -> filter f l' = [x].
Proof.
  intros Hp Hf.
  assert (Hq : Permutation (filter f l) (filter f l')).
  { clear Hf. induction Hp; cbn; auto.
    - destruct (f x0); auto.
    - destruct (f x0), (f y); auto. apply perm_swap.
    - eapply perm_trans; eauto. }
  rewrite Hf in Hq. now apply Permutation_length_1_inv in Hq.
Qed.

(** In a history keyed by resume id, a session that alone matches a
    prefix is the entry stored under its id. *)
Lemma unique_match_get (h : dict SessionInfo.t) (p : string)
    (s : SessionInfo.t) :
  (forall rid x, In (rid, x) h -> SessionInfo.resume x = rid) ->
  matching p (map snd h) = [s] ->
  get h (SessionInfo.resume s) = Some s.
Proof.
  unfold matching.
  induction h as [|[k x] h IH]; cbn [map filter snd get]; intros Hk Hf;
    [discriminate|].
  assert (Ek : SessionInfo.resume x = k) by (apply Hk; now left).
  destruct (startswith (SessionInfo.resume x) p) eqn:Ex.
  - injection Hf as -> _. rewrite <- Ek, String.eqb_refl. reflexivity.
  - assert (Hs : startswith (SessionInfo.resume s) p = true).
    { assert (Hin : In s (filter
        (fun s0 => startswith (SessionInfo.resume s0) p) (map snd h)))
        by (rewrite Hf; now left).
      now apply filter_In in Hin. }
    destruct (String.eqb_spec k (SessionInfo.resume s)) as [E|_].
    + rewrite <- E, <- Ek in Hs. congruence.
    + apply IH; auto. intros rid y Hin. apply Hk. now right.
Qed.

Lemma keyed_NoDup_get (h : dict SessionInfo.t) (s : SessionInfo.t) :
  (forall rid x, In (rid, x) h -> SessionInfo.resume x = rid) ->
  NoDup (keys h) -> In s (map snd h) ->
  get h (SessionInfo.resume s) = Some s.
Proof.
  intros Hk Hn Hin. apply in_map_iff in Hin.
  destruct Hin as ([k x] & E & Hin). cbn in E. subst x.
  rewrite (Hk _ _ Hin). now apply NoDup_keys_get.
Qed.

Lemma matching_descending p l :
  descending SessionInfo.updated_at l ->
  descending SessionInfo.updated_at (matching p l).
Proof.
  unfold descending, matching. induction 1 as [|x l Hs IH Hx]; cbn.
  - constructor.
  - destruct (startswith (SessionInfo.resume x) p); auto.
    constructor; auto.
    rewrite Forall_forall in *. intros y Hy. apply Hx.
    now apply filter_In in Hy.
Qed.

Lemma shown_title_with_updated_at s now :
  shown_title (SessionInfo.with_updated_at s now) = shown_title s.
Proof. reflexivity. Qed.

Section HandlerFacts.

Variable wall_clock : nat -> Z.

Lemma loaded_twice w : loaded wall_clock (loaded wall_clock w) = loaded wall_clock w.
Proof. apply settled_loaded, loaded_settled. Qed.

Lemma list_all_loaded w chat_id owner_id :
  list_sessions wall_clock chat_id owner_id None w
  = (sort_by_desc SessionInfo.updated_at
       (sessions_of (loaded wall_clock w) chat_id owner_id),
     loaded wall_clock w).
Proof.
  rewrite list_sessions_loaded. unfold listed. now rewrite filter_all.
Qed.

(** The sessions a prefix matches among those [list_sessions] returns. *)
Definition candidates (w : Store) (chat_id : Z) (owner_id : option Z)
    (prefix : string) : list SessionInfo.t :=
  matching prefix (fst (list_sessions wall_clock chat_id owner_id None w)).

Lemma candidates_loaded w chat_id owner_id prefix :
  candidates (loaded wall_clock w) chat_id owner_id prefix
  = candidates w chat_id owner_id prefix.
Proof.
  unfold candidates. now rewrite !list_all_loaded, loaded_twice.
Qed.

(** What the two commands do once the argument is not blank. *)
Lemma handle_switch_command_loaded w args_text chat_id owner_id :
  truthy (strip args_text) = true ->
  handle_switch_command wall_clock args_text (Some (chat_id, owner_id)) w
  = let resume_id := strip args_text in
    let w1 := loaded wall_clock w in
    match candidates w chat_id owner_id resume_id with
    | [] => (["no session found matching `" ^^ resume_id ^^ "`"], w1)
    | [first] =>
        match switch_session wall_clock chat_id owner_id
                (SessionInfo.resume first) w1 with
        | (None, w2) => (["failed to switch session."], w2)
        | (Some session, w2) =>
            (["switched to: `" ^^ shown_title session ^^ "`"
              ^^ line_feed ^^ line_feed ^^ "resume: `claude --resume "
              ^^ SessionInfo.resume session ^^ "`"], w2)
        end
    | _ :: _ :: _ =>
        (["multiple sessions match `" ^^ resume_id
          ^^ "`. be more specific."], w1)
    end.
Proof.
  intros Ht. unfold handle_switch_command, candidates. rewrite Ht.
  cbn [negb]. unfold bind at 1. rewrite list_all_loaded. cbn [fst snd].
  cbv zeta.
  destruct (matching (strip args_text) _) as [|first [|second rest]];
    [reflexivity| |reflexivity].
  cbn [List.length Nat.ltb Nat.leb]. unfold bind.
  destruct (switch_session wall_clock chat_id owner_id
              (SessionInfo.resume first) (loaded wall_clock w))
    as [[session|] w2]; reflexivity.
Qed.

Lemma handle_delete_command_loaded w args_text chat_id owner_id :
  truthy (strip args_text) = true ->
  handle_delete_command wall_clock args_text (Some (chat_id, owner_id)) w
  = let resume_id := strip args_text in
    let w1 := loaded wall_clock w in
    match candidates w chat_id owner_id resume_id with
    | [] => (["no session found matching `" ^^ resume_id ^^ "`"], w1)
    | [session] =>
        match delete_session wall_clock chat_id owner_id
                (SessionInfo.resume session) w1 with
        | (false, w2) => (["failed to delete session."], w2)
        | (true, w2) =>
            (["deleted session: `" ^^ shown_title session ^^ "`"], w2)
        end
    | _ :: _ :: _ =>
        (["multiple sessions match `" ^^ resume_id
          ^^ "`. be more specific."], w1)
    end.
Proof.
  intros Ht. unfold handle_delete_command, candidates. rewrite Ht.
  cbn [negb]. unfold bind at 1. rewrite list_all_loaded. cbn [fst snd].
  cbv zeta.
  destruct (matching (strip args_text) _) as [|first [|second rest]];
    [reflexivity| |reflexivity].
  cbn [List.length Nat.ltb Nat.leb]. unfold bind.
  destruct (delete_session wall_clock chat_id owner_id
              (SessionInfo.resume first) (loaded wall_clock w))
    as [[|] w2]; reflexivity.
Qed.

Lemma truthy_nonempty s : s <> "" -> truthy s = true.
Proof. destruct s; [congruence|reflexivity]. Qed.

Lemma candidates_chat w chat_id owner_id prefix s l :
  candidates w chat_id owner_id prefix = s :: l ->
  exists chat,
    get (chats (_state (loaded wall_clock w))) (_chat_key chat_id owner_id)
    = Some chat
    /\ In s (map snd (history chat))
    /\ Permutation (s :: l) (matching prefix (map snd (history chat))).
Proof.
  unfold candidates. rewrite list_all_loaded. cbn [fst].
  unfold sessions_of.
  destruct (get (chats (_state (loaded wall_clock w)))
              (_chat_key chat_id owner_id)) as [chat|]; [|discriminate].
  intros H. exists chat. split; [reflexivity|].
  assert (Hp : Permutation (s :: l) (matching prefix (map snd (history chat)))).
  { rewrite <- H. unfold matching.
    generalize (sort_by_desc_perm SessionInfo.updated_at
                  (map snd (history chat))).
    generalize (sort_by_desc SessionInfo.updated_at (map snd (history chat))).
    generalize (map snd (history chat)).
    intros a b Hp. induction Hp; cbn; auto.
    - destruct (startswith (SessionInfo.resume x) prefix); auto.
    - destruct (startswith (SessionInfo.resume x) prefix),
        (startswith (SessionInfo.resume y) prefix); auto. apply perm_swap.
    - eapply perm_trans; eauto. }
  split; [|exact Hp].
  assert (Hin : In s (matching prefix (map snd (history chat))))
    by (eapply Permutation_in; [exact Hp|now left]).
  now apply filter_In in Hin.
Qed.

(** The store after a switch to a session the history holds. *)
Lemma switched_active w chat_id owner_id chat s :
  settled w ->
  get (chats (_state w)) (_chat_key chat_id owner_id) = Some chat ->
  get (history chat) (SessionInfo.resume s) = Some s ->
  exists s' w',
    switch_session wall_clock chat_id owner_id (SessionInfo.resume s) w
    = (Some s', w')
    /\ shown_title s' = shown_title s
    /\ SessionInfo.resume s' = SessionInfo.resume s
    /\ fst (get_active_session_id wall_clock chat_id owner_id
              (SessionInfo.engine s) w') = Some (SessionInfo.resume s).
Proof.
  intros Hset Hc Hh. rewrite switch_session_loaded. cbv zeta.
  rewrite (settled_loaded _ _ Hset), Hc, Hh.
  eexists _, _. split; [reflexivity|].
  split; [reflexivity|]. split; [reflexivity|].
  match goal with |- context [saved w ?c ?o ?ch ?t] =>
    set (w2 := saved w c o ch t) end.
  assert (Hset2 : settled w2).
  { apply saved_settled; auto. cbn. eapply settled_get; eauto. }
  rewrite get_active_session_id_loaded, (settled_loaded _ _ Hset2).
  cbn [fst]. unfold active_of. subst w2. rewrite saved_get.
  cbn [active]. apply get_set_same.
Qed.

(** X25: [/switch] with an argument that is the prefix of exactly one
    session id of the chat, in a store whose histories are keyed by resume
    id, makes that session the active one of its engine and answers once,
    with the title and the full id of the session. *)
Theorem switch_command_unique_prefix (w : Store) (args_text : string)
    (chat_id : Z) (owner_id : option Z) (s : SessionInfo.t) :
  history_keyed (current w) ->
  strip args_text <> "" ->
  candidates w chat_id owner_id (strip args_text) = [s] ->
  let r := handle_switch_command wall_clock args_text
             (Some (chat_id, owner_id)) w in
  fst r = ["switched to: `" ^^ shown_title s ^^ "`" ^^ line_feed ^^ line_feed
           ^^ "resume: `claude --resume " ^^ SessionInfo.resume s ^^ "`"]
  /\ fst (get_active_session_id wall_clock chat_id owner_id
            (SessionInfo.engine s) (snd r)) = Some (SessionInfo.resume s).
Proof.
  intros Hk Hne Hc. cbv zeta.
  rewrite handle_switch_command_loaded by now apply truthy_nonempty.
  cbv zeta. rewrite Hc.
  destruct (candidates_chat _ _ _ _ _ _ Hc) as (chat & Hg & _ & Hp).
  apply Permutation_length_1_inv in Hp.
  assert (Hh : get (history chat) (SessionInfo.resume s) = Some s).
  { apply (unique_match_get _ (strip args_text)); auto.
    apply (get_In_chats _ _ _ (loaded_keyed wall_clock w Hk) Hg). }
  destruct (switched_active _ _ _ _ _ (loaded_settled wall_clock w) Hg Hh)
    as (s' & w' & -> & Ht & Hr & Ha).
  cbn [fst snd]. now rewrite Ht, Hr.
Qed.

(** X26: [/switch] and [/delete] with an argument that matches no session
    id of the chat, or more than one, write nothing: the store is the
    loaded one, and the one answer says which of the two it was. *)
Theorem prefix_without_unique_match (w : Store) (args_text : string)
    (chat_id : Z) (owner_id : option Z) :
  strip args_text <> "" ->
  List.length (candidates w chat_id owner_id (strip args_text)) <> 1%nat ->
  let answer :=
    match candidates w chat_id owner_id (strip args_text) with
    | [] => "no session found matching `" ^^ strip args_text ^^ "`"
    | _ :: _ => "multiple sessions match `" ^^ strip args_text
                ^^ "`. be more specific."
    end in
  handle_switch_command wall_clock args_text (Some (chat_id, owner_id)) w
  = ([answer], loaded wall_clock w)
  /\ handle_delete_command wall_clock args_text (Some (chat_id, owner_id)) w
     = ([answer], loaded wall_clock w).
Proof.
  intros Hne Hl. cbv zeta.
  rewrite handle_switch_command_loaded, handle_delete_command_loaded
    by now apply truthy_nonempty.
  cbv zeta.
  destruct (candidates w chat_id owner_id (strip args_text))
    as [|a [|b l]]; cbn in Hl; [auto|congruence|auto].
Qed.

(** X27: the switch button switches to the first of the sessions its
    prefix matches, which is the one updated last: no other match has a
    later [updated_at].  Unlike [/switch] it does not ask for the match to
    be unique. *)
Theorem switch_callback_takes_latest (w : Store) (prefix : string)
    (chat_id : Z) (owner_id : option Z) (first : SessionInfo.t)
    (rest : list SessionInfo.t) :
  history_keyed (current w) ->
  all_well_formed (current w) ->
  candidates w chat_id owner_id prefix = first :: rest ->
  let r := handle_switch_callback wall_clock (Some (chat_id, owner_id))
             prefix w in
  fst r = "switched to: " ^^ shown_title first
  /\ fst (get_active_session_id wall_clock chat_id owner_id
            (SessionInfo.engine first) (snd r))
     = Some (SessionInfo.resume first)
  /\ Forall (fun s => (SessionInfo.updated_at s
                       <= SessionInfo.updated_at first)%Z) rest.
Proof.
  intros Hk Hwf Hc. cbv zeta.
  destruct (candidates_chat _ _ _ _ _ _ Hc) as (chat & Hg & Hin & _).
  assert (Hh : get (history chat) (SessionInfo.resume first) = Some first).
  { apply keyed_NoDup_get; auto.
    - apply (get_In_chats _ _ _ (loaded_keyed wall_clock w Hk) Hg).
    - apply (loaded_well_formed wall_clock w Hwf
               (_chat_key chat_id owner_id) chat).
      now apply get_In. }
  destruct (switched_active _ _ _ _ _ (loaded_settled wall_clock w) Hg Hh)
    as (s' & w' & Hsw & Ht & Hr & Ha).
  pose proof Hc as Hc'. unfold candidates in Hc'.
  rewrite list_all_loaded in Hc'. cbn [fst] in Hc'.
  assert (E : handle_switch_callback wall_clock (Some (chat_id, owner_id))
                prefix w
              = ("switched to: " ^^ shown_title first, w')).
  { unfold handle_switch_callback. unfold bind at 1.
    rewrite list_all_loaded. cbn [fst snd]. rewrite Hc'.
    unfold bind. rewrite Hsw. now rewrite Ht. }
  rewrite E. cbn [fst snd].
  split; [reflexivity|]. split; [exact Ha|].
  assert (Hd : descending SessionInfo.updated_at (first :: rest)).
  { rewrite <- Hc'. apply matching_descending, sort_by_desc_sorted. }
  now inversion Hd.
Qed.

Lemma matching_del_gone (h : dict SessionInfo.t) p s :
  (forall rid x, In (rid, x) h -> SessionInfo.resume x = rid) ->
  matching p (map snd h) = [s] ->
  matching p (map snd (del h (SessionInfo.resume s))) = [].
Proof.
  intros Hk Hm.
  destruct (matching p (map snd (del h (SessionInfo.resume s))))
    as [|y l] eqn:E; [reflexivity|exfalso].
  assert (Hy : In y (matching p (map snd (del h (SessionInfo.resume s)))))
    by (rewrite E; now left).
  apply filter_In in Hy. destruct Hy as [Hy Hp].
  apply in_map_iff in Hy. destruct Hy as ([k x] & Ex & Hin).
  cbn in Ex. subst x. unfold del in Hin. apply filter_In in Hin.
  destruct Hin as [Hin Hne]. cbn in Hne.
  assert (Hys : In y (matching p (map snd h))).
  { apply filter_In. split; auto. apply in_map_iff. now exists (k, y). }
  rewrite Hm in Hys. destruct Hys as [<-|[]].
  rewrite (Hk _ _ Hin), String.eqb_refl in Hne. discriminate.
Qed.

(** X28: [/delete] with an argument that is the prefix of exactly one
    session id of the chat, in a store whose histories are keyed by resume
    id, answers with the title of that session and removes it and no
    other: the prefix matches nothing afterwards, so that the same command
    again finds no session, and every session of another id is still
    listed. *)
Theorem delete_command_unique_prefix (w : Store) (args_text : string)
    (chat_id : Z) (owner_id : option Z) (s : SessionInfo.t) :
  history_keyed (current w) ->
  strip args_text <> "" ->
  candidates w chat_id owner_id (strip args_text) = [s] ->
  let r := handle_delete_command wall_clock args_text
             (Some (chat_id, owner_id)) w in
  fst r = ["deleted session: `" ^^ shown_title s ^^ "`"]
  /\ candidates (snd r) chat_id owner_id (strip args_text) = []
  /\ fst (handle_delete_command wall_clock args_text
            (Some (chat_id, owner_id)) (snd r))
     = ["no session found matching `" ^^ strip args_text ^^ "`"]
  /\ forall x,
       In x (fst (list_sessions wall_clock chat_id owner_id None w)) ->
       SessionInfo.resume x <> SessionInfo.resume s ->
       In x (fst (list_sessions wall_clock chat_id owner_id None (snd r))).
Proof.
  intros Hk Hne Hc. cbv zeta.
  pose proof (truthy_nonempty _ Hne) as Ht.
  rewrite (handle_delete_command_loaded w) by exact Ht.
  cbv zeta. rewrite Hc.
  destruct (candidates_chat _ _ _ _ _ _ Hc) as (chat & Hg & _ & Hp).
  apply Permutation_length_1_inv in Hp.
  pose proof (get_In_chats _ _ _ (loaded_keyed wall_clock w Hk) Hg) as Hkc.
  assert (Hh : get (history chat) (SessionInfo.resume s) = Some s)
    by now apply (unique_match_get _ (strip args_text)).
  pose proof (loaded_settled wall_clock w) as Hset.
  rewrite delete_session_loaded. cbv zeta.
  rewrite loaded_twice, Hg, Hh.
  match goal with |- context [saved ?w1 ?c ?o ?ch ?t] =>
    set (w2 := saved w1 c o ch t) end.
  cbn [fst snd].
  assert (Hset2 : settled w2).
  { apply saved_settled; auto. cbn. eapply settled_get; eauto. }
  assert (Hs2 : sessions_of w2 chat_id owner_id
                = map snd (del (history chat) (SessionInfo.resume s))).
  { unfold sessions_of. subst w2. now rewrite saved_get. }
  assert (Hgone : candidates w2 chat_id owner_id (strip args_text) = []).
  { unfold candidates. rewrite list_all_loaded. cbn [fst].
    rewrite (settled_loaded _ _ Hset2), Hs2.
    pose proof (matching_del_gone _ _ _ Hkc Hp) as Hm.
    destruct (matching (strip args_text) (sort_by_desc _ _)) as [|y l] eqn:E;
      [reflexivity|exfalso].
    assert (Hy : In y (matching (strip args_text)
              (map snd (del (history chat) (SessionInfo.resume s))))).
    { assert (Hy : In y (y :: l)) by now left.
      rewrite <- E in Hy. apply filter_In in Hy. destruct Hy as [Hy Hpy].
      apply filter_In. split; auto. now apply In_sort_by_desc in Hy. }
    now rewrite Hm in Hy. }
  split; [reflexivity|]. split; [exact Hgone|]. split.
  - rewrite (handle_delete_command_loaded w2) by exact Ht.
    cbv zeta. now rewrite Hgone.
  - intros x Hx Hr. rewrite list_all_loaded in Hx |- *. cbn [fst] in *.
    rewrite (settled_loaded _ _ Hset2), Hs2.
    apply In_sort_by_desc. apply In_sort_by_desc in Hx.
    unfold sessions_of in Hx. rewrite Hg in Hx.
    apply in_map_iff in Hx. destruct Hx as ([k y] & E & Hin).
    cbn in E. subst y. apply in_map_iff. exists (k, x). split; auto.
    unfold del. apply filter_In. split; auto. cbn.
    rewrite <- (Hkc _ _ Hin).
    destruct (String.eqb_spec (SessionInfo.resume x) (SessionInfo.resume s));
      [contradiction|reflexivity].
Qed.

End HandlerFacts.

(** *** The commands on a chat with two sessions *)

Lemma switch_command_unique_prefix_witness :
  let r := handle_switch_command clock_at_7 (" s1" ^^ no_break_space)
             (Some (42%Z, None)) two_sessions in
  fst r = ["switched to: `hi`" ^^ line_feed ^^ line_feed
           ^^ "resume: `claude --resume s1`"]
  /\ fst (get_active_session_id clock_at_7 42 None "codex" (snd r))
     = Some "s1".
Proof.
  apply (switch_command_unique_prefix clock_at_7 two_sessions
           (" s1" ^^ no_break_space) 42 None
           (SessionInfo.mk "s1" "codex" None (Some "hi") 1 1)).
  - exact history_keyed_two_sessions.
  - discriminate.
  - reflexivity.
Defined.

Lemma prefix_without_unique_match_witness :
  handle_switch_command clock_at_7 (no_break_space ^^ "s")
      (Some (42%Z, None)) two_sessions
  = (["multiple sessions match `s`. be more specific."],
     loaded clock_at_7 two_sessions)
  /\ handle_delete_command clock_at_7 (no_break_space ^^ "s")
      (Some (42%Z, None)) two_sessions
     = (["multiple sessions match `s`. be more specific."],
        loaded clock_at_7 two_sessions).
Proof.
  apply (prefix_without_unique_match clock_at_7 two_sessions
           (no_break_space ^^ "s") 42 None).
  - discriminate.
  - discriminate.
Defined.

Lemma switch_callback_takes_latest_witness :
  let r := handle_switch_callback clock_at_7 (Some (42%Z, None)) "s"
             two_sessions in
  fst r = "switched to: s2"
  /\ fst (get_active_session_id clock_at_7 42 None "codex" (snd r))
     = Some "s2"
  /\ Forall (fun s => (SessionInfo.updated_at s <= 2)%Z)
       [SessionInfo.mk "s1" "codex" None (Some "hi") 1 1].
Proof.
  apply (switch_callback_takes_latest clock_at_7 two_sessions "s" 42 None
           (SessionInfo.mk "s2" "codex" None None 2 2)
           [SessionInfo.mk "s1" "codex" None (Some "hi") 1 1]).
  - exact history_keyed_two_sessions.
  - exact all_well_formed_two_sessions.
  - reflexivity.
Defined.

Lemma delete_command_unique_prefix_witness :
  let r := handle_delete_command clock_at_7 ("s1" ^^ no_break_space)
             (Some (42%Z, None))
             two_sessions in
  fst r = ["deleted session: `hi`"]
  /\ candidates clock_at_7 (snd r) 42 None "s1" = []
  /\ fst (handle_delete_command clock_at_7 ("s1" ^^ no_break_space)
             (Some (42%Z, None)) (snd r))
     = ["no session found matching `s1`"]
  /\ forall x,
       In x (fst (list_sessions clock_at_7 42 None None two_sessions)) ->
       SessionInfo.resume x <> "s1" ->
       In x (fst (list_sessions clock_at_7 42 None None (snd r))).
Proof.
  apply (delete_command_unique_prefix clock_at_7 two_sessions
           ("s1" ^^ no_break_space) 42 None
           (SessionInfo.mk "s1" "codex" None (Some "hi") 1 1)).
  - exact history_keyed_two_sessions.
  - discriminate.
  - reflexivity.
Defined.

(** An argument of white space only, here a no-break space, is blank for
    [strip]: the two handlers answer with their usage text and leave the
    store alone. *)
Example blank_argument_gets_usage :
  handle_switch_command clock_at_7 no_break_space (Some (42%Z, None))
    two_sessions
  = (["usage: `/switch <session_id>`" ^^ line_feed
      ^^ "use `/sessions` to see available sessions."], two_sessions)
  /\ handle_delete_command clock_at_7 no_break_space (Some (42%Z, None))
       two_sessions
     = (["usage: `/delete <session_id>`" ^^ line_feed
         ^^ "use `/sessions` to see available sessions."], two_sessions).
Proof. split; reflexivity. Qed.

End SessionCommands.

(** ** config_migrations.py *)

Module ConfigMigrations.

(** A TOML value as [read_raw_toml] returns it; floats and dates carry their
    text, which no migration looks at. *)
Inductive Value :=
| VStr (s : string)
| VInt (n : Z)
| VBool (b : bool)
| VFloat (text : string)
| VDate (text : string)
| VList (items : list Value)
| VTable (table : dict Value).

Definition Config := dict Value.

(** The outcome of a migration on the configuration it mutates in place:
    the returned value, or the [ConfigError] raised, and the configuration
    as the call leaves it. *)
Inductive Outcome (A : Type) :=
| Ok (a : A) (config : Config)
| Raised (error : string) (config : Config).
Arguments Ok {A} a config.
Arguments Raised {A} error config.

(** The [mapping] table of [_migrate_topics_scope]. *)
Definition mapping (cleaned : string) : option string :=
  if String.eqb cleaned "multi_project_chat" then Some "main"
  else if String.eqb cleaned "per_project_chat" then Some "projects"
  else None.

Section Migrations.

Variable config_path : string.

Definition table_error (name : string) : string :=
  "Invalid `" ^^ name ^^ "` in " ^^ config_path ^^ "; expected a table.".

(** [_ensure_table(config, key)]: the table under [key], created empty when
    absent, and the configuration after the call. *)
Definition _ensure_table (config : Config) (key : string)
    : Outcome (dict Value) :=
  match get config key with
  | None => Ok [] (set config key (VTable []))
  | Some (VTable t) => Ok t config
  | Some _ => Raised (table_error key) config
  end.

(** [if k in config and k not in telegram: telegram[k] = config[k]] *)
Definition copy_key (config : Config) (k : string) (telegram : dict Value)
    : dict Value :=
  match get config k with
  | Some v => if mem telegram k then telegram else set telegram k v
  | None => telegram
  end.

Definition _migrate_legacy_telegram (config : Config) : Outcome bool :=
  let has_legacy := mem config "bot_token" || mem config "chat_id" in
  if negb has_legacy then Ok false config
  else
    match _ensure_table config "transports" with
    | Raised e c => Raised e c
    | Ok transports config1 =>
        let found :=
          match get transports "telegram" with
          | None => Some []
          | Some (VTable t) => Some t
          | Some _ => None
          end in
        match found with
        | None => Raised (table_error "transports.telegram") config1
        | Some telegram =>
            let telegram1 := copy_key config1 "bot_token" telegram in
            let telegram2 := copy_key config1 "chat_id" telegram1 in
            let config2 :=
              set config1 "transports"
                (VTable (set transports "telegram" (VTable telegram2))) in
            let config3 := del (del config2 "bot_token") "chat_id" in
            Ok true (setdefault config3 "transport" (VStr "telegram"))
        end
    end.

Definition _migrate_topics_scope (config : Config) : Outcome bool :=
  match get config "transports" with
  | None => Ok false config
  | Some (VTable transports) =>
      match get transports "telegram" with
      | None => Ok false config
      | Some (VTable telegram) =>
          match get telegram "topics" with
          | None => Ok false config
          | Some (VTable topics) =>
              if negb (mem topics "mode") then Ok false config
              else
                let write (topics' : dict Value) : Config :=
                  set config "transports"
                    (VTable (set transports "telegram"
                       (VTable (set telegram "topics" (VTable topics'))))) in
                if negb (mem topics "scope") then
                  match get topics "mode" with
                  | Some (VStr mode) =>
                      match mapping (strip mode) with
                      | Some scope =>
                          Ok true
                            (write (del (set topics "scope" (VStr scope)) "mode"))
                      | None =>
                          Raised
                            ("Invalid `transports.telegram.topics.mode` in "
                             ^^ config_path
                             ^^ "; expected 'multi_project_chat' or 'per_project_chat'.")
                            config
                      end
                  | _ =>
                      Raised
                        ("Invalid `transports.telegram.topics.mode` in "
                         ^^ config_path ^^ "; expected a string.")
                        config
                  end
                else Ok true (write (del topics "mode"))
          | Some _ => Raised (table_error "transports.telegram.topics") config
          end
      | Some _ => Raised (table_error "transports.telegram") config
      end
  | Some _ =>
      Raised ("Invalid `transports` in " ^^ config_path ^^ "; expected a table.")
        config
  end.

Definition migrate_config (config : Config) : Outcome (list string) :=
  match _migrate_legacy_telegram config with
  | Raised e c => Raised e c
  | Ok b1 config1 =>
      let applied1 := if b1 then ["legacy-telegram"] else [] in
      match _migrate_topics_scope config1 with
      | Raised e c => Raised e c
      | Ok b2 config2 =>
          Ok (if b2 then applied1 ++ ["topics-scope"] else applied1) config2
      end
  end.

End Migrations.

(** *** Legacy configuration trees

    A legacy tree has nothing but top-level [bot_token] and [chat_id] and a
    [transports.telegram.topics.mode] holding one of the two legacy modes. *)

Definition only_keys (d : dict Value) (allowed : list string) : bool :=
  forallb (fun kv => existsb (String.eqb (fst kv)) allowed) d.

Definition legacy_mode (v : Value) : bool :=
  match v with
  | VStr m => match mapping (strip m) with Some _ => true | None => false end
  | _ => false
  end.

(** [field d k good]: the key is absent, or its value is good. *)
Definition field (d : dict Value) (k : string) (good : Value -> bool) : bool :=
  match get d k with Some v => good v | None => true end.

Definition legacy_topics (v : Value) : bool :=
  match v with
  | VTable t => only_keys t ["mode"] && field t "mode" legacy_mode
  | _ => false
  end.

Definition legacy_telegram (v : Value) : bool :=
  match v with
  | VTable t => only_keys t ["topics"] && field t "topics" legacy_topics
  | _ => false
  end.

Definition legacy_transports (v : Value) : bool :=
  match v with
  | VTable t => only_keys t ["telegram"] && field t "telegram" legacy_telegram
  | _ => false
  end.

Definition legacy_tree (config : Config) : bool :=
  only_keys config ["bot_token"; "chat_id"; "transports"]
  && field config "transports" legacy_transports.

(** The [transports.telegram.topics] value, when the path leads to it. *)
Definition topics_of (config : Config) : option Value :=
  match get config "transports" with
  | Some (VTable transports) =>
      match get transports "telegram" with
      | Some (VTable telegram) => get telegram "topics"
      | _ => None
      end
  | _ => None
  end.

(** [transports] and [transports.telegram] are tables where present. *)
Definition path_ok (config : Config) : bool :=
  match get config "transports" with
  | None => true
  | Some (VTable transports) =>
      match get transports "telegram" with
      | None | Some (VTable _) => true
      | Some _ => false
      end
  | Some _ => false
  end.

(** *** Facts about dictionaries used by the migrations *)

Lemma mem_set_other {V} (d : dict V) k k' v :
  k <> k' -> mem (set d k v) k' = mem d k'.
Proof. intros H. unfold mem. now rewrite ChatSessions.get_set_other. Qed.

Lemma mem_del_other {V} (d : dict V) k k' :
  k <> k' -> mem (del d k) k' = mem d k'.
Proof. intros H. unfold mem. now rewrite ChatSessions.get_del_other. Qed.

Lemma get_del_same {V} (d : dict V) k : get (del d k) k = None.
Proof.
  unfold del. induction d as [|[k0 v0] d IH]; simpl; auto.
  destruct (String.eqb k0 k) eqn:E; simpl; auto. now rewrite E.
Qed.

Lemma mem_del_same {V} (d : dict V) k : mem (del d k) k = false.
Proof. unfold mem. now rewrite get_del_same. Qed.

Lemma mem_setdefault_other {V} (d : dict V) k k' v :
  k <> k' -> mem (setdefault d k v) k' = mem d k'.
Proof.
  intros H. unfold setdefault. destruct (mem d k); auto.
  now apply mem_set_other.
Qed.

Section MigrationFacts.

Variable config_path : string.

Lemma legacy_clears config b config1 :
  _migrate_legacy_telegram config_path config = Ok b config1 ->
  mem config1 "bot_token" = false /\ mem config1 "chat_id" = false.
Proof.
  unfold _migrate_legacy_telegram, _ensure_table.
  destruct (mem config "bot_token") eqn:Hb;
    destruct (mem config "chat_id") eqn:Hc; cbn [orb negb];
    try (intros H; injection H as <- <-; auto; fail);
    (destruct (get config "transports") as [[]|]; try discriminate;
     match goal with
     | |- context [match get ?t "telegram" with _ => _ end] =>
         destruct (get t "telegram") as [[]|]; try discriminate
     end;
     intros H; injection H as <- <-;
     rewrite !mem_setdefault_other by discriminate;
     rewrite mem_del_same;
     rewrite mem_del_other by discriminate;
     rewrite mem_del_same; auto).
Qed.

Lemma legacy_noop config :
  mem config "bot_token" = false -> mem config "chat_id" = false ->
  _migrate_legacy_telegram config_path config = Ok false config.
Proof.
  intros Hb Hc. unfold _migrate_legacy_telegram. now rewrite Hb, Hc.
Qed.

Lemma topics_keeps_top config b config2 k :
  k <> "transports" ->
  _migrate_topics_scope config_path config = Ok b config2 ->
  mem config2 k = mem config k.
Proof.
  intros Hk. unfold _migrate_topics_scope.
  destruct (get config "transports") as [[| | | | | |transports]|];
    try discriminate; try (intros H; injection H as <- <-; reflexivity).
  destruct (get transports "telegram") as [[| | | | | |telegram]|];
    try discriminate; try (intros H; injection H as <- <-; reflexivity).
  destruct (get telegram "topics") as [[| | | | | |topics]|];
    try discriminate; try (intros H; injection H as <- <-; reflexivity).
  destruct (mem topics "mode"); cbn [negb];
    try (intros H; injection H as <- <-; reflexivity).
  destruct (mem topics "scope"); cbn [negb].
  - intros H; injection H as <- <-. apply mem_set_other. congruence.
  - destruct (get topics "mode") as [[mode| | | | | |]|]; try discriminate.
    destruct (mapping (strip mode)); try discriminate.
    intros H; injection H as <- <-. apply mem_set_other. congruence.
Qed.

(** Once the topics migration has run, running it again changes nothing. *)
Lemma topics_settles config b config2 :
  _migrate_topics_scope config_path config = Ok b config2 ->
  _migrate_topics_scope config_path config2 = Ok false config2.
Proof.
  unfold _migrate_topics_scope at 1.
  destruct (get config "transports") as [[| | | | | |transports]|] eqn:Ht;
    try discriminate;
    try (intros H; injection H as <- <-; unfold _migrate_topics_scope;
         now rewrite Ht).
  destruct (get transports "telegram") as [[| | | | | |telegram]|] eqn:Hg;
    try discriminate;
    try (intros H; injection H as <- <-; unfold _migrate_topics_scope;
         now rewrite Ht, Hg).
  destruct (get telegram "topics") as [[| | | | | |topics]|] eqn:Hp;
    try discriminate;
    try (intros H; injection H as <- <-; unfold _migrate_topics_scope;
         now rewrite Ht, Hg, Hp).
  destruct (mem topics "mode") eqn:Hm; cbn [negb];
    try (intros H; injection H as <- <-; unfold _migrate_topics_scope;
         now rewrite Ht, Hg, Hp, Hm).
  assert (Hdone : forall topics',
    mem topics' "mode" = false ->
    let c := set config "transports"
               (VTable (set transports "telegram"
                  (VTable (set telegram "topics" (VTable topics'))))) in
    _migrate_topics_scope config_path c = Ok false c).
  { intros topics' Hm' c. subst c. unfold _migrate_topics_scope.
    rewrite !ChatSessions.get_set_same. now rewrite Hm'. }
  destruct (mem topics "scope"); cbn [negb].
  - intros H; injection H as <- <-. apply Hdone. apply mem_del_same.
  - destruct (get topics "mode") as [[mode| | | | | |]|]; try discriminate.
    destruct (mapping (strip mode)); try discriminate.
    intros H; injection H as <- <-. apply Hdone. apply mem_del_same.
Qed.

(** Idempotence after application, for every configuration on which the
    first run succeeds. *)
Lemma migrate_config_settles config applied config' :
  migrate_config config_path config = Ok applied config' ->
  migrate_config config_path config' = Ok [] config'.
Proof.
  unfold migrate_config at 1.
  destruct (_migrate_legacy_telegram config_path config) as [b1 c1|] eqn:H1;
    try discriminate.
  destruct (_migrate_topics_scope config_path c1) as [b2 c2|] eqn:H2;
    try discriminate.
  intros H; injection H as _ <-.
  apply legacy_clears in H1. destruct H1 as [Hb Hc].
  unfold migrate_config.
  rewrite legacy_noop.
  - now rewrite (topics_settles _ _ _ H2).
  - rewrite (topics_keeps_top _ _ _ "bot_token" ltac:(discriminate) H2). exact Hb.
  - rewrite (topics_keeps_top _ _ _ "chat_id" ltac:(discriminate) H2). exact Hc.
Qed.

Lemma get_setdefault_other {V} (d : dict V) k k' v :
  k <> k' -> get (setdefault d k v) k' = get d k'.
Proof.
  intros H. unfold setdefault. destruct (mem d k); auto.
  now apply ChatSessions.get_set_other.
Qed.

Lemma legacy_total config :
  path_ok config = true ->
  exists b config1,
    _migrate_legacy_telegram config_path config = Ok b config1
    /\ path_ok config1 = true
    /\ topics_of config1 = topics_of config.
Proof.
  intros Hp. unfold _migrate_legacy_telegram, _ensure_table.
  destruct (negb (mem config "bot_token" || mem config "chat_id")).
  { exists false, config. auto. }
  assert (Hfill : forall (telegram : dict Value) (c : Config),
    get (copy_key c "chat_id" (copy_key c "bot_token" telegram)) "topics"
    = get telegram "topics").
  { intros telegram c. unfold copy_key.
    destruct (get c "chat_id"); destruct (get c "bot_token");
      repeat match goal with
             | |- context [if ?b then _ else _] => destruct b
             end;
      rewrite ?ChatSessions.get_set_other by discriminate; reflexivity. }
  assert (Hview : forall (c : Config) transports telegram2,
    let c' := setdefault
                (del (del (set c "transports"
                             (VTable (set transports "telegram"
                                        (VTable telegram2))))
                        "bot_token") "chat_id")
                "transport" (VStr "telegram") in
    path_ok c' = true /\ topics_of c' = get telegram2 "topics").
  { intros c transports telegram2 c'. subst c'. unfold path_ok, topics_of.
    rewrite get_setdefault_other by discriminate.
    rewrite !ChatSessions.get_del_other by discriminate.
    rewrite !ChatSessions.get_set_same. auto. }
  unfold path_ok in Hp. unfold topics_of at 2.
  destruct (get config "transports") as [[| | | | | |transports]|] eqn:Ht;
    try discriminate.
  - destruct (get transports "telegram") as [[| | | | | |telegram]|] eqn:Hg;
      try discriminate.
    + eexists _, _. split; [reflexivity|].
      match goal with
      | |- path_ok ?c = true /\ topics_of ?c = _ =>
          match c with
          | setdefault (del (del (set ?c0 _ (VTable (set ?tr _ (VTable ?t2))))
                          _) _) _ _ =>
              destruct (Hview c0 tr t2) as [H1 H2]
          end
      end.
      split; [exact H1|]. rewrite H2. apply Hfill.
    + eexists _, _. split; [reflexivity|].
      match goal with
      | |- path_ok ?c = true /\ topics_of ?c = _ =>
          match c with
          | setdefault (del (del (set ?c0 _ (VTable (set ?tr _ (VTable ?t2))))
                          _) _) _ _ =>
              destruct (Hview c0 tr t2) as [H1 H2]
          end
      end.
      split; [exact H1|]. rewrite H2. rewrite Hfill. reflexivity.
  - cbn [get]. eexists _, _. split; [reflexivity|].
    match goal with
    | |- path_ok ?c = true /\ topics_of ?c = _ =>
        match c with
        | setdefault (del (del (set ?c0 _ (VTable (set ?tr _ (VTable ?t2))))
                        _) _) _ _ =>
            destruct (Hview c0 tr t2) as [H1 H2]
        end
    end.
    split; [exact H1|]. rewrite H2. rewrite Hfill. reflexivity.
Qed.

Lemma topics_total config :
  path_ok config = true ->
  match topics_of config with
  | Some v => legacy_topics v = true
  | None => True
  end ->
  exists b config2, _migrate_topics_scope config_path config = Ok b config2.
Proof.
  unfold path_ok, topics_of, _migrate_topics_scope.
  destruct (get config "transports") as [[| | | | | |transports]|];
    try discriminate; [|eauto].
  destruct (get transports "telegram") as [[| | | | | |telegram]|];
    try discriminate; [|eauto].
  intros _.
  destruct (get telegram "topics") as [[| | | | | |topics]|];
    try discriminate; [|eauto].
  cbn [legacy_topics]. intros H. apply andb_prop in H. destruct H as [_ H].
  unfold field in H. unfold mem.
  destruct (get topics "mode") as [v|]; cbn [negb]; [|eauto].
  destruct (get topics "scope"); cbn [negb]; [eauto|].
  destruct v; try discriminate. cbn in H.
  destruct (mapping (strip s)); [eauto|discriminate].
Qed.

Lemma legacy_tree_path config :
  legacy_tree config = true ->
  path_ok config = true
  /\ match topics_of config with
     | Some v => legacy_topics v = true
     | None => True
     end.
Proof.
  unfold legacy_tree, path_ok, topics_of, field. intros H.
  apply andb_prop in H. destruct H as [_ H].
  destruct (get config "transports") as [[| | | | | |transports]|];
    try discriminate; auto.
  cbn [legacy_transports] in H. apply andb_prop in H. destruct H as [_ H].
  unfold field in H.
  destruct (get transports "telegram") as [[| | | | | |telegram]|];
    try discriminate; auto.
  cbn [legacy_telegram] in H. apply andb_prop in H. destruct H as [_ H].
  unfold field in H.
  destruct (get telegram "topics"); auto.
Qed.

(** C7: whenever [migrate_config] succeeds on a tree, and so on every
    legacy tree, a second [migrate_config] on the tree it leaves applies no
    migration and leaves that tree as it is; and on a legacy tree (only
    top-level [bot_token] / [chat_id] and a
    [transports.telegram.topics.mode] holding a legacy mode) it does
    succeed. *)
Theorem migrate_config_idempotent (config : Config) :
  (forall applied config',
     migrate_config config_path config = Ok applied config' ->
     migrate_config config_path config' = Ok [] config')
  /\ (legacy_tree config = true ->
      exists applied config',
        migrate_config config_path config = Ok applied config'
        /\ migrate_config config_path config' = Ok [] config').
Proof.
  split; [exact (migrate_config_settles config)|].
  intros H. apply legacy_tree_path in H. destruct H as [Hp Ht].
  destruct (legacy_total config Hp) as (b1 & c1 & H1 & Hp1 & Ht1).
  rewrite <- Ht1 in Ht.
  destruct (topics_total c1 Hp1 Ht) as (b2 & c2 & H2).
  assert (Hm : migrate_config config_path config
               = Ok (if b2 then (if b1 then ["legacy-telegram"] else [])
                                  ++ ["topics-scope"]
                     else (if b1 then ["legacy-telegram"] else [])) c2).
  { unfold migrate_config. now rewrite H1, H2. }
  eexists _, _. split; [exact Hm|].
  exact (migrate_config_settles _ _ _ Hm).
Qed.

End MigrationFacts.

(** The configuration of the end-to-end scenario:
    [bot_token = "T"], [chat_id = 42] and
    [transports.telegram.topics.mode = "per_project_chat"]. *)
Definition legacy_example : Config :=
  [("bot_token", VStr "T"); ("chat_id", VInt 42);
   ("transports",
    VTable [("telegram",
             VTable [("topics", VTable [("mode", VStr "per_project_chat")])])])].

Definition migrated_example : Config :=
  [("transports",
    VTable [("telegram",
             VTable [("topics", VTable [("scope", VStr "projects")]);
                     ("bot_token", VStr "T"); ("chat_id", VInt 42)])]);
   ("transport", VStr "telegram")].

Example migrate_legacy_example :
  migrate_config "takopi.toml" legacy_example
  = Ok ["legacy-telegram"; "topics-scope"] migrated_example.
Proof. reflexivity. Qed.

Lemma migrate_config_idempotent_witness :
  exists applied config',
    migrate_config "takopi.toml" legacy_example = Ok applied config'
    /\ migrate_config "takopi.toml" config' = Ok [] config'.
Proof.
  apply (proj2 (migrate_config_idempotent "takopi.toml" legacy_example)).
  reflexivity.
Defined.



(** *** What the migrations do to a configuration *)

(** The [transports.telegram] table, empty when the path does not lead to
    a table. *)
Definition telegram_of (config : Config) : dict Value :=
  match get config "transports" with
  | Some (VTable transports) =>
      match get transports "telegram" with
      | Some (VTable telegram) => telegram
      | _ => []
      end
  | _ => []
  end.

Lemma get_copy_key config k telegram k' :
  get (copy_key config k telegram) k'
  = if String.eqb k k'
    then match get telegram k with Some v => Some v | None => get config k end
    else get telegram k'.
Proof.
  unfold copy_key, mem.
  destruct (String.eqb_spec k k') as [<-|Hne].
  - destruct (get config k) as [v|] eqn:Hc;
      destruct (get telegram k) as [w|] eqn:Ht; auto.
    now rewrite ChatSessions.get_set_same.
  - destruct (get config k) as [v|]; auto.
    destruct (get telegram k); auto.
    now apply ChatSessions.get_set_other.
Qed.

Lemma get_setdefault_same {V} (d : dict V) k v :
  get (setdefault d k v) k
  = Some (match get d k with Some w => w | None => v end).
Proof.
  unfold setdefault, mem. destruct (get d k) as [w|] eqn:E; auto.
  now rewrite ChatSessions.get_set_same.
Qed.

Section MigrationResults.

Variable config_path : string.

(** The configuration after a legacy migration that applied. *)
Lemma legacy_applied config config' :
  _migrate_legacy_telegram config_path config = Ok true config' ->
  exists base transports telegram,
    (base = config \/ base = set config "transports" (VTable []))
    /\ get base "transports" = Some (VTable transports)
    /\ telegram_of config = telegram
    /\ (get transports "telegram" = Some (VTable telegram)
        \/ (get transports "telegram" = None /\ telegram = []))
    /\ config'
       = setdefault
           (del (del (set base "transports"
                        (VTable (set transports "telegram"
                           (VTable (copy_key base "chat_id"
                                      (copy_key base "bot_token" telegram))))))
                   "bot_token") "chat_id")
           "transport" (VStr "telegram").
Proof.
  unfold _migrate_legacy_telegram, _ensure_table, telegram_of.
  destruct (negb (mem config "bot_token" || mem config "chat_id"));
    [discriminate|].
  destruct (get config "transports") as [[| | | | | |transports]|] eqn:Ht;
    try discriminate.
  - destruct (get transports "telegram") as [[| | | | | |telegram]|] eqn:Hg;
      try discriminate; intros H; injection H as <-.
    + exists config, transports, telegram. rewrite Hg. auto 6.
    + exists config, transports, []. rewrite Hg. auto 7.
  - cbn [get]. intros H; injection H as <-.
    exists (set config "transports" (VTable [])), [], [].
    rewrite ChatSessions.get_set_same. cbn [get]. auto 7.
Qed.

(** X18: when the legacy migration applies, the top-level [bot_token] and
    [chat_id] are gone; under [transports.telegram] each of the two keys
    keeps the value it had there, and takes the top-level value only when
    it was absent; the other keys of that table are untouched; [transport]
    keeps its value or becomes ["telegram"]; every other top-level key is
    untouched. *)
Theorem legacy_telegram_moves_keys (config config' : Config) :
  _migrate_legacy_telegram config_path config = Ok true config' ->
  mem config' "bot_token" = false /\ mem config' "chat_id" = false
  /\ (forall k, k = "bot_token" \/ k = "chat_id" ->
        get (telegram_of config') k
        = match get (telegram_of config) k with
          | Some v => Some v
          | None => get config k
          end)
  /\ (forall k, k <> "bot_token" -> k <> "chat_id" ->
        get (telegram_of config') k = get (telegram_of config) k)
  /\ get config' "transport"
     = Some (match get config "transport" with
             | Some v => v
             | None => VStr "telegram"
             end)
  /\ (forall k, k <> "bot_token" -> k <> "chat_id" -> k <> "transports" ->
        k <> "transport" -> get config' k = get config k).
Proof.
  intros H. pose proof (legacy_clears config_path _ _ _ H) as [Hb Hc].
  split; [exact Hb|]. split; [exact Hc|].
  apply legacy_applied in H.
  destruct H as (base & transports & telegram & Hbase & Ht & Htel & Hg & ->).
  assert (Hget : forall k, k <> "transports" -> get base k = get config k).
  { intros k Hk. destruct Hbase as [->| ->]; auto.
    apply ChatSessions.get_set_other. congruence. }
  assert (Htel' : telegram_of
            (setdefault
               (del (del (set base "transports"
                            (VTable (set transports "telegram"
                               (VTable (copy_key base "chat_id"
                                          (copy_key base "bot_token"
                                             telegram))))))
                       "bot_token") "chat_id")
               "transport" (VStr "telegram"))
          = copy_key base "chat_id" (copy_key base "bot_token" telegram)).
  { unfold telegram_of.
    rewrite get_setdefault_other by discriminate.
    rewrite !ChatSessions.get_del_other by discriminate.
    rewrite ChatSessions.get_set_same.
    now rewrite ChatSessions.get_set_same. }
  rewrite Htel', Htel. split; [|split; [|split]].
  - intros k [-> | ->]; rewrite !get_copy_key; cbn [String.eqb Ascii.eqb
      Bool.eqb]; rewrite ?get_copy_key; cbn [String.eqb Ascii.eqb Bool.eqb];
      rewrite Hget by discriminate; reflexivity.
  - intros k Hk1 Hk2. rewrite !get_copy_key.
    destruct (String.eqb_spec "chat_id" k); [congruence|].
    destruct (String.eqb_spec "bot_token" k); [congruence|]. reflexivity.
  - rewrite get_setdefault_same.
    rewrite !ChatSessions.get_del_other by discriminate.
    rewrite ChatSessions.get_set_other by discriminate.
    now rewrite Hget by discriminate.
  - intros k H1 H2 H3 H4.
    rewrite get_setdefault_other by congruence.
    rewrite !ChatSessions.get_del_other by congruence.
    rewrite ChatSessions.get_set_other by congruence.
    now apply Hget.
Qed.


(** The configuration after a topics migration that applied. *)
Lemma topics_applied config config' :
  _migrate_topics_scope config_path config = Ok true config' ->
  exists transports telegram topics topics',
    get config "transports" = Some (VTable transports)
    /\ get transports "telegram" = Some (VTable telegram)
    /\ get telegram "topics" = Some (VTable topics)
    /\ mem topics "mode" = true
    /\ config'
       = set config "transports"
           (VTable (set transports "telegram"
              (VTable (set telegram "topics" (VTable topics')))))
    /\ topics'
       = del (match get topics "scope" with
              | Some _ => topics
              | None =>
                  match get topics "mode" with
                  | Some (VStr mode) =>
                      match mapping (strip mode) with
                      | Some scope => set topics "scope" (VStr scope)
                      | None => topics
                      end
                  | _ => topics
                  end
              end) "mode"
    /\ (get topics "scope" = None ->
        exists mode scope, get topics "mode" = Some (VStr mode)
                           /\ mapping (strip mode) = Some scope).
Proof.
  unfold _migrate_topics_scope.
  destruct (get config "transports") as [[| | | | | |transports]|] eqn:Ht;
    try discriminate.
  destruct (get transports "telegram") as [[| | | | | |telegram]|] eqn:Hg;
    try discriminate.
  destruct (get telegram "topics") as [[| | | | | |topics]|] eqn:Hp;
    try discriminate.
  destruct (mem topics "mode") eqn:Hm; cbn [negb]; [|discriminate].
  unfold mem. destruct (get topics "scope") as [sc|] eqn:Hs; cbn [negb].
  - intros H; injection H as H'; subst config'.
    exists transports, telegram, topics, (del topics "mode").
    split; [reflexivity|]. split; [assumption|]. split; [assumption|].
    split; [exact Hm|]. split; [reflexivity|].
    split; [now rewrite Hs|intros Hn; congruence].
  - destruct (get topics "mode") as [[mode| | | | | |]|] eqn:Hmode;
      try discriminate.
    destruct (mapping (strip mode)) as [scope|] eqn:Hmap; try discriminate.
    intros H; injection H as H'; subst config'.
    exists transports, telegram, topics,
      (del (set topics "scope" (VStr scope)) "mode").
    split; [reflexivity|]. split; [assumption|]. split; [assumption|].
    split; [exact Hm|]. split; [reflexivity|].
    split; [now rewrite Hs, Hmode, Hmap|intros _; eauto].
Qed.

(** X19: when the topics migration applies, [topics.mode] is gone and
    [topics.scope] is set: an existing scope is kept as it is, otherwise
    it is [main] for the mode [multi_project_chat] and [projects] for
    [per_project_chat] (white space around the mode aside); the other keys
    of the topics table and every top-level key but [transports] are
    untouched. *)
Theorem topics_scope_replaces_mode (config config' : Config) :
  _migrate_topics_scope config_path config = Ok true config' ->
  exists topics topics',
    topics_of config = Some (VTable topics)
    /\ topics_of config' = Some (VTable topics')
    /\ mem topics "mode" = true
    /\ mem topics' "mode" = false
    /\ (get topics' "scope"
        = match get topics "scope" with
          | Some v => Some v
          | None =>
              match get topics "mode" with
              | Some (VStr mode) => option_map VStr (mapping (strip mode))
              | _ => None
              end
          end)
    /\ get topics' "scope" <> None
    /\ (forall k, k <> "mode" -> k <> "scope" ->
          get topics' k = get topics k)
    /\ (forall k, k <> "transports" -> get config' k = get config k).
Proof.
  intros H. apply topics_applied in H.
  destruct H as (transports & telegram & topics & topics'
                 & Ht & Hg & Hp & Hm & -> & Htop & Hscope).
  exists topics, topics'.
  assert (Hsc : get topics' "scope"
                = match get topics "scope" with
                  | Some v => Some v
                  | None =>
                      match get topics "mode" with
                      | Some (VStr mode) =>
                          option_map VStr (mapping (strip mode))
                      | _ => None
                      end
                  end).
  { rewrite Htop. rewrite ChatSessions.get_del_other by discriminate.
    destruct (get topics "scope") as [v|] eqn:Hs; auto.
    destruct (Hscope eq_refl) as (mode & scope & Hmode & Hmap).
    rewrite Hmode, Hmap. cbn. apply ChatSessions.get_set_same. }
  split; [unfold topics_of; now rewrite Ht, Hg|].
  split; [unfold topics_of; now rewrite !ChatSessions.get_set_same|].
  split; [exact Hm|].
  split; [rewrite Htop; apply mem_del_same|].
  split; [exact Hsc|]. split.
  - rewrite Hsc. destruct (get topics "scope"); [discriminate|].
    destruct (Hscope eq_refl) as (mode & scope & Hmode & Hmap).
    rewrite Hmode, Hmap. discriminate.
  - split.
    + intros k Hk1 Hk2. rewrite Htop.
      rewrite ChatSessions.get_del_other by congruence.
      destruct (get topics "scope"); auto.
      destruct (get topics "mode") as [[mode| | | | | |]|]; auto.
      destruct (mapping (strip mode)); auto.
      apply ChatSessions.get_set_other. congruence.
    + intros k Hk. apply ChatSessions.get_set_other. congruence.
Qed.

(** After a topics migration that succeeded, no [mode] is left. *)
Lemma topics_scope_settled config config' :
  _migrate_topics_scope config_path config = Ok true config' ->
  forall topics, topics_of config' = Some (VTable topics) ->
                 mem topics "mode" = false.
Proof.
  intros H topics Ht. apply topics_applied in H.
  destruct H as (transports & telegram & topics0 & topics'
                 & _ & _ & _ & _ & -> & Htop & _).
  unfold topics_of in Ht. rewrite !ChatSessions.get_set_same in Ht.
  injection Ht as <-. rewrite Htop. apply mem_del_same.
Qed.

Lemma legacy_flag config b config' :
  _migrate_legacy_telegram config_path config = Ok b config' ->
  if b then mem config "bot_token" || mem config "chat_id" = true
  else config' = config.
Proof.
  unfold _migrate_legacy_telegram.
  destruct (mem config "bot_token" || mem config "chat_id"); cbn [negb].
  - destruct (_ensure_table config_path config "transports")
      as [transports c1|]; [|discriminate].
    destruct (get transports "telegram") as [[| | | | | |telegram]|];
      try discriminate; intros H; injection H as <- _; reflexivity.
  - intros H; injection H as <- <-. reflexivity.
Qed.

Lemma legacy_raised config e c :
  _migrate_legacy_telegram config_path config = Raised e c -> c = config.
Proof.
  unfold _migrate_legacy_telegram, _ensure_table.
  destruct (negb (mem config "bot_token" || mem config "chat_id"));
    [discriminate|].
  destruct (get config "transports") as [[| | | | | |transports]|];
    try (intros H; injection H as _ <-; reflexivity).
  - destruct (get transports "telegram") as [[| | | | | |telegram]|];
      try discriminate; intros H; injection H as _ <-; reflexivity.
  - cbn [get]. discriminate.
Qed.

Lemma topics_flag config b config' :
  _migrate_topics_scope config_path config = Ok b config' ->
  if b then exists topics, topics_of config = Some (VTable topics)
                           /\ mem topics "mode" = true
  else config' = config.
Proof.
  destruct b.
  - intros H. apply topics_applied in H.
    destruct H as (transports & telegram & topics & topics'
                   & Ht & Hg & Hp & Hm & _).
    exists topics. unfold topics_of. now rewrite Ht, Hg.
  - unfold _migrate_topics_scope.
    destruct (get config "transports") as [[| | | | | |transports]|];
      try discriminate; try (intros H; injection H as <-; reflexivity).
    destruct (get transports "telegram") as [[| | | | | |telegram]|];
      try discriminate; try (intros H; injection H as <-; reflexivity).
    destruct (get telegram "topics") as [[| | | | | |topics]|];
      try discriminate; try (intros H; injection H as <-; reflexivity).
    destruct (mem topics "mode"); cbn [negb];
      try (intros H; injection H as <-; reflexivity).
    destruct (mem topics "scope"); cbn [negb]; [discriminate|].
    destruct (get topics "mode") as [[mode| | | | | |]|]; try discriminate.
    destruct (mapping (strip mode)); discriminate.
Qed.

Lemma topics_raised config e c :
  _migrate_topics_scope config_path config = Raised e c -> c = config.
Proof.
  unfold _migrate_topics_scope.
  destruct (get config "transports") as [[| | | | | |transports]|];
    try discriminate; try (intros H; injection H as _ <-; reflexivity).
  destruct (get transports "telegram") as [[| | | | | |telegram]|];
    try discriminate; try (intros H; injection H as _ <-; reflexivity).
  destruct (get telegram "topics") as [[| | | | | |topics]|];
    try discriminate; try (intros H; injection H as _ <-; reflexivity).
  destruct (mem topics "mode"); cbn [negb]; [|discriminate].
  destruct (mem topics "scope"); cbn [negb]; [discriminate|].
  destruct (get topics "mode") as [[mode| | | | | |]|];
    try (intros H; injection H as _ <-; reflexivity).
  destruct (mapping (strip mode)); [discriminate|].
  intros H; injection H as _ <-; reflexivity.
Qed.

(** A successful [migrate_config] reports no migration exactly when it
    left the configuration as it was. *)
Lemma migrate_config_applied config applied config' :
  migrate_config config_path config = Ok applied config' ->
  (applied = [] <-> config' = config).
Proof.
  unfold migrate_config.
  destruct (_migrate_legacy_telegram config_path config) as [b1 c1|] eqn:H1;
    [|discriminate].
  destruct (_migrate_topics_scope config_path c1) as [b2 c2|] eqn:H2;
    [|discriminate].
  intros H; injection H as <- <-.
  pose proof (legacy_flag _ _ _ H1) as F1.
  pose proof (topics_flag _ _ _ H2) as F2.
  assert (Hdiff1 : b1 = true -> c2 <> config).
  { intros -> Heq. subst c2.
    apply legacy_clears in H1. destruct H1 as [Hb Hc].
    rewrite <- (topics_keeps_top config_path _ _ _ "bot_token"
                  ltac:(discriminate) H2) in Hb.
    rewrite <- (topics_keeps_top config_path _ _ _ "chat_id"
                  ltac:(discriminate) H2) in Hc.
    rewrite Hb, Hc in F1. discriminate. }
  assert (Hdiff2 : b2 = true -> c2 <> c1).
  { intros -> Heq. destruct F2 as (topics & Ht & Hm).
    pose proof (topics_scope_settled c1 c2 H2) as Hno.
    subst c2. specialize (Hno topics Ht). congruence. }
  destruct b1, b2; cbn [app]; split; intros H; try discriminate;
    try reflexivity.
  - exfalso. now apply Hdiff1.
  - exfalso. now apply Hdiff1.
  - subst c1. exfalso. now apply Hdiff2.
  - now subst.
Qed.


(** X20: a migration step that raises [ConfigError] has not touched the
    configuration; [migrate_config] that raises leaves it untouched or
    with the legacy migration alone applied; and [migrate_config] that
    returns reports no migration exactly when it left the configuration
    as it was. *)
Theorem migrate_config_reports_changes (config : Config) :
  match migrate_config config_path config with
  | Ok applied config' => applied = [] <-> config' = config
  | Raised e c =>
      c = config \/ _migrate_legacy_telegram config_path config = Ok true c
  end
  /\ (forall e c,
        _migrate_legacy_telegram config_path config = Raised e c ->
        c = config)
  /\ (forall e c,
        _migrate_topics_scope config_path config = Raised e c -> c = config).
Proof.
  split; [|split; [apply legacy_raised|apply topics_raised]].
  destruct (migrate_config config_path config) as [applied config'|e c]
    eqn:Hm.
  - now apply migrate_config_applied.
  - unfold migrate_config in Hm.
    destruct (_migrate_legacy_telegram config_path config) as [b1 c1|e1 c1]
      eqn:H1.
    + destruct (_migrate_topics_scope config_path c1) as [b2 c2|e2 c2]
        eqn:H2; [discriminate|].
      injection Hm as _ <-. apply topics_raised in H2. subst c2.
      pose proof (legacy_flag _ _ _ H1) as F1.
      destruct b1; [now right|now left].
    + injection Hm as _ <-. left. now apply legacy_raised in H1.
Qed.

End MigrationResults.

(** [migrate_config_file].  [read_raw_toml] and [write_raw_toml] are not
    among the sources: the file is taken as the configuration it parses to,
    and a write replaces it by the configuration written. *)
Record FileRun := mkFileRun {
  outcome : Outcome (list string);
  file_after : Config;
  written : bool
}.

Definition migrate_config_file (path : string) (file : Config) : FileRun :=
  match migrate_config path file with
  | Ok applied config =>
      match applied with
      | [] => mkFileRun (Ok applied config) file false
      | _ :: _ => mkFileRun (Ok applied config) config true
      end
  | Raised e c => mkFileRun (Raised e c) file false
  end.

(** X21: [migrate_config_file] writes the file exactly when the migration
    changed the configuration; after a call that returns, the file holds
    the migrated configuration, and a second call applies nothing and
    writes nothing; a call that raises leaves the file as it was. *)
Theorem migrate_config_file_rewrites (path : string) (file : Config) :
  let r := migrate_config_file path file in
  match outcome r with
  | Ok applied config' =>
      file_after r = config'
      /\ (written r = true <-> config' <> file)
      /\ migrate_config_file path (file_after r)
         = mkFileRun (Ok [] config') config' false
  | Raised _ _ => file_after r = file /\ written r = false
  end.
Proof.
  cbv zeta. unfold migrate_config_file.
  destruct (migrate_config path file) as [applied config'|e c] eqn:Hm;
    [|cbn; auto].
  pose proof (migrate_config_applied path _ _ _ Hm) as Hiff.
  pose proof (migrate_config_settles path _ _ _ Hm) as Hset.
  destruct applied as [|a rest]; cbn [outcome file_after written].
  - assert (config' = file) by (now apply Hiff). subst config'.
    split; [reflexivity|]. split; [split; [discriminate|congruence]|].
    now rewrite Hm.
  - split; [reflexivity|]. split.
    + split; [|reflexivity]. intros _ Heq.
      apply Hiff in Heq. discriminate.
    + now rewrite Hset.
Qed.

(** The example configuration after the legacy migration alone. *)
Definition legacy_moved_example : Config :=
  [("transports",
    VTable [("telegram",
             VTable [("topics", VTable [("mode", VStr "per_project_chat")]);
                     ("bot_token", VStr "T"); ("chat_id", VInt 42)])]);
   ("transport", VStr "telegram")].

Lemma legacy_telegram_moves_keys_witness :
  get (telegram_of legacy_moved_example) "bot_token" = Some (VStr "T")
  /\ mem legacy_moved_example "bot_token" = false.
Proof.
  destruct (legacy_telegram_moves_keys "takopi.toml" legacy_example
              legacy_moved_example eq_refl) as (Hb & _ & Hk & _).
  split; [|exact Hb].
  exact (Hk "bot_token" (or_introl eq_refl)).
Defined.

(** A configuration whose topics mode is padded with no-break spaces,
    which [mode.strip()] removes, and what it migrates to. *)
Definition padded_mode_example : Config :=
  [("transports",
    VTable [("telegram",
             VTable [("topics",
                      VTable [("mode",
                               VStr (no_break_space ^^ "per_project_chat"
                                     ^^ no_break_space));
                              ("delay", VInt 3)])])])].

Definition padded_mode_migrated : Config :=
  [("transports",
    VTable [("telegram",
             VTable [("topics",
                      VTable [("delay", VInt 3);
                              ("scope", VStr "projects")])])])].

Lemma topics_scope_replaces_mode_witness :
  exists topics topics',
    topics_of padded_mode_example = Some (VTable topics)
    /\ topics_of padded_mode_migrated = Some (VTable topics')
    /\ mem topics "mode" = true
    /\ mem topics' "mode" = false
    /\ (get topics' "scope"
        = match get topics "scope" with
          | Some v => Some v
          | None =>
              match get topics "mode" with
              | Some (VStr mode) => option_map VStr (mapping (strip mode))
              | _ => None
              end
          end)
    /\ get topics' "scope" <> None
    /\ (forall k, k <> "mode" -> k <> "scope" ->
          get topics' k = get topics k)
    /\ (forall k, k <> "transports" ->
          get padded_mode_migrated k = get padded_mode_example k).
Proof.
  exact (topics_scope_replaces_mode "takopi.toml" padded_mode_example
           padded_mode_migrated eq_refl).
Defined.

End ConfigMigrations.

(** ** Decoded JSON *)

Module Json.

(** A value as [json.loads] returns it.  A float is kept by what the code
    can observe of it: whether it is non-zero, and its text. *)
Inductive t :=
| JNull
| JBool (b : bool)
| JInt (n : Z)
| JFloat (nonzero : bool) (text : string)
| JStr (s : string)
| JArr (items : list t)
| JObj (members : dict t).

(** Truthiness of the Python object. *)
Definition truth (j : t) : bool :=
  match j with
  | JNull => false
  | JBool b => b
  | JInt n => negb (n =? 0)%Z
  | JFloat nz _ => nz
  | JStr s => negb (String.eqb s "")
  | JArr l => match l with [] => false | _ => true end
  | JObj m => match m with [] => false | _ => true end
  end.

(** [d.get(k)] on a decoded object: [None] is [JNull]. *)
Definition member (m : dict t) (k : string) : t :=
  match get m k with Some v => v | None => JNull end.

(** [a or b] *)
Definition or_else (a b : t) : t := if truth a then a else b.

End Json.

(** ** runner.py and utils/streams.py *)

Module Runner.

Import Json.

(** Modelled from the spec: [model.py] is not among the sources; the events
    are the tagged union of the data model, with the fields the runner
    passes to their constructors. *)
Record Action := mkAction {
  id : string;
  kind : string;
  title : string;
  detail : dict Json.t
}.

Inductive TakopiEvent :=
| StartedEvent (engine : string) (resume : ResumeToken.t)
    (title : option string)
| ActionEvent (engine : string) (action : Action) (phase : string)
    (ok : option bool) (message : option string) (level : option string)
| CompletedEvent (engine : string) (ok : bool) (answer : string)
    (resume : option ResumeToken.t) (error : option string).

Definition is_completed (e : TakopiEvent) : bool :=
  match e with CompletedEvent _ _ _ _ _ => true | _ => false end.

(** A call that returns or raises an [Exception] with a message. *)
Inductive Result (A : Type) :=
| Return (a : A)
| Raise (error : string).
Arguments Return {A} a.
Arguments Raise {A} error.

(** [JsonlRunState], with the engine's own scratch state beside it. *)
Record JsonlRunState (Scratch : Type) := mkRunState {
  note_seq : Z;
  scratch : Scratch
}.
Arguments mkRunState {Scratch}.
Arguments note_seq {Scratch}.
Arguments scratch {Scratch}.

(** What a concrete engine supplies to [JsonlSubprocessRunner]; [command],
    [build_args], [stdin_payload] and [env] decide which child is spawned,
    and the child is given below by what it writes and how it exits. *)
Class Engine (Scratch : Type) := mkEngine {
  engine : string;
  new_scratch : string -> option ResumeToken.t -> Scratch;
  translate :
    Json.t -> JsonlRunState Scratch -> option ResumeToken.t ->
    option ResumeToken.t ->
    Result (list TakopiEvent) * JsonlRunState Scratch
}.

(** The child process: which pipes were opened, the bytes it writes to its
    standard output before closing it, and its exit code. *)
Record Child := mkChild {
  has_stdin : bool;
  has_stdout : bool;
  has_stderr : bool;
  stdout : string;
  returncode : Z
}.

(** What iterating [run] yields, and how the iteration ends. *)
Inductive Run :=
| Returned (events : list TakopiEvent)
| Raised (events : list TakopiEvent) (error : string).

Definition events_of (r : Run) : list TakopiEvent :=
  match r with Returned evs => evs | Raised evs _ => evs end.

(** [json.loads] as the runner uses it. *)
Inductive Loaded :=
| Value (j : Json.t)
| JSONDecodeError
| OtherError (error : string).

(** [iter_bytes_lines]: the records ended by a newline; what follows the
    last newline is an incomplete read and is dropped. *)
Fixpoint lines_from (acc : string) (stream : string) : list string :=
  match stream with
  | EmptyString => []
  | String c rest =>
      if Ascii.eqb c "010"%char then acc :: lines_from EmptyString rest
      else lines_from (acc ^^ String c EmptyString) rest
  end.

Definition iter_bytes_lines (stream : string) : list string :=
  lines_from EmptyString stream.

Definition is_newline (c : ascii) : bool := Ascii.eqb c "010"%char.

(** White space of [bytes.strip()]. *)
Definition is_bytes_space (c : ascii) : bool :=
  let n := nat_of_ascii c in
  ((9 <=? n) && (n <=? 13) || (n =? 32))%nat.

(** [iter_json_lines] *)
Definition iter_json_lines (stream : string) : list string :=
  map (rstrip_by is_newline) (iter_bytes_lines stream).

(** The state of the read loop of [run_impl]. *)
Record Loop (Scratch : Type) := mkLoop {
  state : JsonlRunState Scratch;
  found_session : option ResumeToken.t;
  did_emit_completed : bool;
  yielded : list TakopiEvent
}.
Arguments mkLoop {Scratch}.
Arguments state {Scratch}.
Arguments found_session {Scratch}.
Arguments did_emit_completed {Scratch}.
Arguments yielded {Scratch}.

Section Runner.

Context {Scratch : Type} {E : Engine Scratch}.

(** [json.loads], [bytes.decode("utf-8", errors="replace")] and [repr] on
    a string. *)
Variable json_loads : string -> Loaded.
Variable decode_utf8 : string -> string.
Variable repr : string -> string.

Definition tag : string := engine.

Definition new_state (prompt : string) (resume : option ResumeToken.t)
    : JsonlRunState Scratch :=
  mkRunState 0 (new_scratch prompt resume).

Definition pipes_error_message : string :=
  tag ^^ " failed to open subprocess pipes".

Definition next_note_id (st : JsonlRunState Scratch)
    : string * JsonlRunState Scratch :=
  let st' := mkRunState (note_seq st + 1) (scratch st) in
  (tag ^^ ".note." ^^ str_int (note_seq st'), st').

Definition note_event (message : string) (st : JsonlRunState Scratch)
    (ok : bool) (detail : option (dict Json.t))
    : TakopiEvent * JsonlRunState Scratch :=
  let (note_id, st') := next_note_id st in
  let action :=
    mkAction note_id "warning" message
      (match detail with Some d => d | None => [] end) in
  (ActionEvent engine action "completed" (Some ok) (Some message)
     (Some (if ok then "info" else "warning")), st').

Definition invalid_json_events (raw line : string)
    (st : JsonlRunState Scratch)
    : list TakopiEvent * JsonlRunState Scratch :=
  let message := "invalid JSON from " ^^ tag ^^ "; ignoring line" in
  let (evt, st') :=
    note_event message st false (Some [("line", JStr line)]) in
  ([evt], st').

(** [decode_jsonl]: [None] on a [JSONDecodeError] and on the JSON [null]. *)
Definition decode_jsonl (line : string) : Result (option Json.t) :=
  match json_loads (decode_utf8 line) with
  | Value JNull => Return None
  | Value j => Return (Some j)
  | JSONDecodeError => Return None
  | OtherError e => Raise e
  end.

Definition decode_error_events (raw line error : string)
    (st : JsonlRunState Scratch)
    : list TakopiEvent * JsonlRunState Scratch :=
  let message := "invalid event from " ^^ tag ^^ "; ignoring line" in
  let detail := [("line", JStr line); ("error", JStr error)] in
  let (evt, st') := note_event message st false (Some detail) in
  ([evt], st').

Definition translate_error_events (data : Json.t) (error : string)
    (st : JsonlRunState Scratch)
    : list TakopiEvent * JsonlRunState Scratch :=
  let message := tag ^^ " translation error; ignoring event" in
  let detail0 := [("error", JStr error)] in
  let detail :=
    match data with
    | JObj m =>
        let detail1 := set detail0 "type" (member m "type") in
        match member m "item" with
        | JObj item =>
            set detail1 "item_type"
              (or_else (member item "type") (member item "item_type"))
        | _ => detail1
        end
    | _ => detail0
    end in
  let (evt, st') := note_event message st false (Some detail) in
  ([evt], st').

(** [found_session or resume] *)
Definition resume_for_completed (resume found_session : option ResumeToken.t)
    : option ResumeToken.t :=
  match found_session with Some f => Some f | None => resume end.

Definition process_error_events (rc : Z) (resume found : option ResumeToken.t)
    (st : JsonlRunState Scratch)
    : list TakopiEvent * JsonlRunState Scratch :=
  let message := tag ^^ " failed (rc=" ^^ str_int rc ^^ ")." in
  let (note, st') := note_event message st false None in
  ([note;
    CompletedEvent engine false "" (resume_for_completed resume found)
      (Some message)], st').

Definition stream_end_events (resume found : option ResumeToken.t)
    (st : JsonlRunState Scratch)
    : list TakopiEvent * JsonlRunState Scratch :=
  let message := tag ^^ " finished without a result event" in
  ([CompletedEvent engine false "" (resume_for_completed resume found)
      (Some message)], st).

Definition mismatch_message (got expected : ResumeToken.t) : string :=
  tag ^^ " emitted session id " ^^ ResumeToken.value got
  ^^ " but expected " ^^ ResumeToken.value expected.

(** [handle_started_event]: the session found so far and whether to emit
    the event, or the [RuntimeError] raised. *)
Definition handle_started_event (event_engine : string)
    (event_resume : ResumeToken.t)
    (expected_session found_session : option ResumeToken.t)
    : Result (option ResumeToken.t * bool) :=
  if negb (String.eqb event_engine engine) then
    Raise (tag ^^ " emitted session token for engine " ^^ repr event_engine)
  else
    match expected_session with
    | Some expected =>
        if negb (ResumeToken.eqb event_resume expected)
        then Raise (mismatch_message event_resume expected)
        else
          match found_session with
          | None => Return (Some event_resume, true)
          | Some found =>
              if negb (ResumeToken.eqb event_resume found)
              then Raise (mismatch_message event_resume found)
              else Return (Some found, false)
          end
    | None =>
        match found_session with
        | None => Return (Some event_resume, true)
        | Some found =>
            if negb (ResumeToken.eqb event_resume found)
            then Raise (mismatch_message event_resume found)
            else Return (Some found, false)
        end
    end.

(** The events one stdout line gives rise to. *)
Definition line_events (resume found : option ResumeToken.t)
    (raw_line line : string) (st : JsonlRunState Scratch)
    : list TakopiEvent * JsonlRunState Scratch :=
  let raw_text := decode_utf8 raw_line in
  let line_text := decode_utf8 line in
  match decode_jsonl line with
  | Raise exc => decode_error_events raw_text line_text exc st
  | Return None => invalid_json_events raw_text line_text st
  | Return (Some decoded) =>
      match translate decoded st resume found with
      | (Return events, st') => (events, st')
      | (Raise exc, st') => translate_error_events decoded exc st'
      end
  end.

(** The loop [for evt in events] of [run_impl]: the loop state after it, or
    the events yielded before [handle_started_event] raised and its error. *)
Fixpoint emit_events (expected : option ResumeToken.t)
    (events : list TakopiEvent) (l : Loop Scratch)
    : Loop Scratch + list TakopiEvent * string :=
  match events with
  | [] => inl l
  | evt :: rest =>
      match evt with
      | StartedEvent eng r _ =>
          match handle_started_event eng r expected (found_session l) with
          | Raise error => inr (yielded l, error)
          | Return (found, emit) =>
              if emit
              then emit_events expected rest
                     (mkLoop (state l) found false (yielded l ++ [evt]))
              else emit_events expected rest
                     (mkLoop (state l) found false (yielded l))
          end
      | CompletedEvent _ _ _ _ _ =>
          inl (mkLoop (state l) (found_session l) true (yielded l ++ [evt]))
      | ActionEvent _ _ _ _ _ _ =>
          emit_events expected rest
            (mkLoop (state l) (found_session l) false (yielded l ++ [evt]))
      end
  end.

(** The loop over the lines of the child's standard output. *)
Fixpoint read_lines (resume : option ResumeToken.t) (lines : list string)
    (l : Loop Scratch) : Loop Scratch + list TakopiEvent * string :=
  match lines with
  | [] => inl l
  | raw_line :: rest =>
      if did_emit_completed l then read_lines resume rest l
      else
        let line := strip_by is_bytes_space raw_line in
        if negb (truthy line) then read_lines resume rest l
        else
          let (events, st') :=
            line_events resume (found_session l) raw_line line (state l) in
          match emit_events resume events
                  (mkLoop st' (found_session l) false (yielded l)) with
          | inl l' => read_lines resume rest l'
          | inr failure => inr failure
          end
  end.

Definition run_impl (child : Child) (prompt : string)
    (resume : option ResumeToken.t) : Run :=
  let st := new_state prompt resume in
  if negb (has_stdout child) || negb (has_stderr child) then
    Raised [] pipes_error_message
  else if negb (has_stdin child) then Raised [] pipes_error_message
  else
    match read_lines resume (iter_json_lines (stdout child))
            (mkLoop st None false []) with
    | inr (evs, error) => Raised evs error
    | inl l =>
        let rc := returncode child in
        if did_emit_completed l then Returned (yielded l)
        else if negb (rc =? 0)%Z then
          Returned (yielded l
                    ++ fst (process_error_events rc resume (found_session l)
                              (state l)))
        else
          Returned (yielded l
                    ++ fst (stream_end_events resume (found_session l)
                              (state l)))
    end.

(** [run] / [run_locked]: a resume token of another engine is refused by
    [run_with_resume_lock]; the session lock is free for a single
    invocation, so taking it changes nothing of what is yielded. *)
Definition run (child : Child) (prompt : string)
    (resume : option ResumeToken.t) : Run :=
  match resume with
  | Some token =>
      if negb (String.eqb (ResumeToken.engine token) engine) then
        Raised []
          ("resume token is for engine " ^^ repr (ResumeToken.engine token)
           ^^ ", not " ^^ repr engine)
      else run_impl child prompt resume
  | None => run_impl child prompt None
  end.

End Runner.

(** *** Counting the [Completed] events of a sequence *)

Definition count_completed (evs : list TakopiEvent) : nat :=
  List.length (filter is_completed evs).

(** Exactly one [Completed], and it is the last event. *)
Definition one_completed_last (evs : list TakopiEvent) : Prop :=
  count_completed evs = 1%nat
  /\ exists pre c, evs = pre ++ [c] /\ is_completed c = true.

Lemma count_completed_app a b :
  count_completed (a ++ b) = (count_completed a + count_completed b)%nat.
Proof. unfold count_completed. now rewrite filter_app, length_app. Qed.

Lemma one_completed_last_snoc pre c :
  count_completed pre = 0%nat -> is_completed c = true ->
  one_completed_last (pre ++ [c]).
Proof.
  intros Hp Hc. split.
  - rewrite count_completed_app, Hp. unfold count_completed. cbn.
    now rewrite Hc.
  - now exists pre, c.
Qed.

Lemma token_eqb_eq a b : ResumeToken.eqb a b = true <-> a = b.
Proof.
  unfold ResumeToken.eqb. destruct a as [e v], b as [e' v']. cbn.
  rewrite andb_true_iff, !String.eqb_eq. split.
  - intros [-> ->]. reflexivity.
  - intros H. injection H. auto.
Qed.

Lemma token_eqb_refl a : ResumeToken.eqb a a = true.
Proof. now apply token_eqb_eq. Qed.

Lemma token_eqb_neq a b : a <> b -> ResumeToken.eqb a b = false.
Proof.
  intros H. destruct (ResumeToken.eqb a b) eqn:E; auto.
  apply token_eqb_eq in E. contradiction.
Qed.

Section RunnerFacts.

Context {Scratch : Type} {E : Engine Scratch}.
Variable json_loads : string -> Loaded.
Variable decode_utf8 : string -> string.
Variable repr : string -> string.

(** What the read loop maintains: nothing completed yet and no [Completed]
    yielded, or completed and the [Completed] is the one last event. *)
Definition loop_inv (l : Loop Scratch) : Prop :=
  if did_emit_completed l then one_completed_last (yielded l)
  else count_completed (yielded l) = 0%nat.

Definition outcome_inv (r : Loop Scratch + list TakopiEvent * string) : Prop :=
  match r with
  | inl l => loop_inv l
  | inr (evs, _) => count_completed evs = 0%nat
  end.

Lemma emit_events_inv expected events : forall l,
  did_emit_completed l = false ->
  count_completed (yielded l) = 0%nat ->
  outcome_inv (emit_events repr expected events l).
Proof.
  induction events as [|evt rest IH]; intros l Hd Hc; cbn.
  - unfold loop_inv. now rewrite Hd.
  - destruct evt as [eng r t| eng a ph ok m lv | eng ok ans r err].
    + destruct (handle_started_event repr eng r expected (found_session l))
        as [[found emit]|error]; cbn; [|assumption].
      destruct emit; apply IH; cbn [did_emit_completed yielded]; auto.
      rewrite count_completed_app, Hc. reflexivity.
    + apply IH; cbn [did_emit_completed yielded]; auto.
      rewrite count_completed_app, Hc. reflexivity.
    + unfold loop_inv. cbn [did_emit_completed yielded].
      now apply one_completed_last_snoc.
Qed.

Lemma read_lines_inv resume lines : forall l,
  loop_inv l ->
  outcome_inv (read_lines json_loads decode_utf8 repr resume lines l).
Proof.
  induction lines as [|raw rest IH]; intros l Hl; cbn; auto.
  destruct (did_emit_completed l) eqn:Hd; [now apply IH|].
  destruct (negb (truthy (strip_by is_bytes_space raw))); [now apply IH|].
  destruct (line_events json_loads decode_utf8 resume (found_session l) raw
              (strip_by is_bytes_space raw) (state l)) as [events st'].
  unfold loop_inv in Hl. rewrite Hd in Hl.
  pose proof (emit_events_inv resume events
                (mkLoop st' (found_session l) false (yielded l))
                eq_refl Hl) as H.
  destruct (emit_events repr resume events
              (mkLoop st' (found_session l) false (yielded l)))
    as [l'|[evs error]]; cbn in H; auto.
Qed.

Lemma run_impl_inv child prompt resume :
  match run_impl json_loads decode_utf8 repr child prompt resume with
  | Returned evs => one_completed_last evs
  | Raised evs _ => count_completed evs = 0%nat
  end.
Proof.
  unfold run_impl.
  destruct (negb (has_stdout child) || negb (has_stderr child));
    [reflexivity|].
  destruct (negb (has_stdin child)); [reflexivity|].
  pose proof (read_lines_inv resume (iter_json_lines (stdout child))
                (mkLoop (new_state prompt resume) None false []) eq_refl)
    as H.
  destruct (read_lines json_loads decode_utf8 repr resume
              (iter_json_lines (stdout child))
              (mkLoop (new_state prompt resume) None false []))
    as [l|[evs error]]; cbn in H; auto.
  unfold loop_inv in H.
  destruct (did_emit_completed l); auto.
  destruct (negb (returncode child =? 0)%Z).
  - unfold process_error_events, note_event, next_note_id. cbn [fst].
    change (yielded l ++ [?a; ?c]) with (yielded l ++ [a] ++ [c]).
    rewrite app_assoc. apply one_completed_last_snoc; auto.
    rewrite count_completed_app, H. reflexivity.
  - unfold stream_end_events. cbn [fst].
    apply one_completed_last_snoc; auto.
Qed.

Lemma run_inv child prompt resume :
  match run json_loads decode_utf8 repr child prompt resume with
  | Returned evs => one_completed_last evs
  | Raised evs _ => count_completed evs = 0%nat
  end.
Proof.
  unfold run. destruct resume as [token|]; [|apply run_impl_inv].
  destruct (negb (String.eqb (ResumeToken.engine token) engine));
    [reflexivity|apply run_impl_inv].
Qed.

(** C1 (amended): whenever the iteration of [run] ends without a fatal
    runtime error, the events it yielded contain exactly one [Completed],
    and that event is the last one; this covers a child that emits its own
    terminal event, one that exits non-zero and one that exits zero without
    a terminal event.  The sequence is a finite list in every case. *)
Theorem run_returns_one_completed (child : Child) (prompt : string)
    (resume : option ResumeToken.t) (evs : list TakopiEvent) :
  run json_loads decode_utf8 repr child prompt resume = Returned evs ->
  count_completed evs = 1%nat
  /\ exists pre c, evs = pre ++ [c] /\ is_completed c = true.
Proof.
  intros H. pose proof (run_inv child prompt resume) as Hi.
  rewrite H in Hi. exact Hi.
Qed.

(** A run that ends in a fatal runtime error has yielded no [Completed]. *)
Lemma run_raised_no_completed child prompt resume evs error :
  run json_loads decode_utf8 repr child prompt resume = Raised evs error ->
  count_completed evs = 0%nat.
Proof.
  intros H. pose proof (run_inv child prompt resume) as Hi.
  rewrite H in Hi. exact Hi.
Qed.

(** C5: when the pipes are open, the read loop ends without a [Completed]
    and the child's exit code is not zero, [run_impl] yields exactly two
    more events: the warning note, then the synthetic [Completed] with
    [ok = false], an empty answer, the found session or else the supplied
    resume, and the error message that carries [rc=<code>]. *)
Theorem nonzero_exit_events (child : Child) (prompt : string)
    (resume : option ResumeToken.t) (l : Loop Scratch) :
  has_stdin child = true -> has_stdout child = true ->
  has_stderr child = true ->
  read_lines json_loads decode_utf8 repr resume
    (iter_json_lines (stdout child))
    (mkLoop (new_state prompt resume) None false []) = inl l ->
  did_emit_completed l = false ->
  returncode child <> 0%Z ->
  let message := tag ^^ " failed (rc=" ^^ str_int (returncode child) ^^ ")." in
  let note :=
    ActionEvent engine
      (mkAction (tag ^^ ".note." ^^ str_int (note_seq (state l) + 1))
         "warning" message [])
      "completed" (Some false) (Some message) (Some "warning") in
  let completed :=
    CompletedEvent engine false ""
      (match found_session l with Some f => Some f | None => resume end)
      (Some message) in
  run_impl json_loads decode_utf8 repr child prompt resume
  = Returned (yielded l ++ [note; completed]).
Proof.
  intros Hin Hout Herr Hloop Hd Hrc. cbv zeta.
  unfold run_impl. rewrite Hin, Hout, Herr. cbn [negb orb].
  rewrite Hloop, Hd.
  destruct (Z.eqb_spec (returncode child) 0) as [Hz|_]; [contradiction|].
  reflexivity.
Qed.

(** How [handle_started_event] decides, for an event of the runner's own
    engine. *)
Lemma handle_started_event_cases (r : ResumeToken.t)
    (expected found : option ResumeToken.t) :
  (forall x, expected = Some x -> r <> x ->
     exists msg, handle_started_event repr engine r expected found = Raise msg)
  /\ (expected = None \/ expected = Some r ->
      (found = Some r ->
         handle_started_event repr engine r expected found
         = Return (Some r, false))
      /\ (forall f, found = Some f -> r <> f ->
            exists msg,
              handle_started_event repr engine r expected found = Raise msg)
      /\ (found = None ->
            handle_started_event repr engine r expected found
            = Return (Some r, true))).
Proof.
  unfold handle_started_event. rewrite String.eqb_refl. cbn [negb].
  split.
  - intros x -> Hne. rewrite (token_eqb_neq _ _ Hne). cbn. eauto.
  - intros Hexp.
    assert (Hsame : forall A (a b : A),
      match expected with
      | Some e => if negb (ResumeToken.eqb r e) then a else b
      | None => b
      end = b).
    { intros A a b. destruct Hexp as [-> | ->]; auto.
      now rewrite token_eqb_refl. }
    repeat split.
    + intros ->. destruct Hexp as [-> | ->];
        rewrite ?token_eqb_refl; cbn; rewrite ?token_eqb_refl; reflexivity.
    + intros f -> Hne. destruct Hexp as [-> | ->];
        rewrite ?token_eqb_refl; cbn; rewrite (token_eqb_neq _ _ Hne); cbn;
        eauto.
    + intros ->. destruct Hexp as [-> | ->];
        rewrite ?token_eqb_refl; reflexivity.
Qed.

(** C4 (amended): for a [SessionStarted] event of the runner's own engine,
    met by the event loop before any [Completed]:
    - a supplied resume that differs from the event's is fatal: nothing more
      is yielded and the error is raised;
    - otherwise, a session already found and equal to the event's is
      swallowed: the loop goes on as if the event were not there;
    - otherwise, a session already found and different is fatal;
    - otherwise the event is the first one: its session is recorded and the
      event is yielded.
    A run that ends in such an error has yielded no [Completed]. *)
Theorem started_event_handling (r : ResumeToken.t) (title : option string)
    (expected : option ResumeToken.t) (rest : list TakopiEvent)
    (l : Loop Scratch) :
  did_emit_completed l = false ->
  let evt := StartedEvent engine r title in
  (forall x, expected = Some x -> r <> x ->
     exists msg,
       emit_events repr expected (evt :: rest) l = inr (yielded l, msg))
  /\ (expected = None \/ expected = Some r ->
      (found_session l = Some r ->
         emit_events repr expected (evt :: rest) l
         = emit_events repr expected rest l)
      /\ (forall f, found_session l = Some f -> r <> f ->
            exists msg,
              emit_events repr expected (evt :: rest) l
              = inr (yielded l, msg))
      /\ (found_session l = None ->
            emit_events repr expected (evt :: rest) l
            = emit_events repr expected rest
                (mkLoop (state l) (Some r) false (yielded l ++ [evt]))))
  /\ (forall child prompt resume evs error,
        run json_loads decode_utf8 repr child prompt resume = Raised evs error ->
        count_completed evs = 0%nat).
Proof.
  intros Hd evt.
  destruct (handle_started_event_cases r expected (found_session l))
    as [H1 H2].
  split; [|split].
  - intros x Hx Hne. destruct (H1 x Hx Hne) as [msg Hm].
    exists msg. cbn. now rewrite Hm.
  - intros Hexp. destruct (H2 Hexp) as (Hs & Hf & Hn). repeat split.
    + intros Hfound. cbn. rewrite (Hs Hfound).
      destruct l as [st fs d y]. cbn in *. now subst.
    + intros f Hfound Hne. destruct (Hf f Hfound Hne) as [msg Hm].
      exists msg. cbn. now rewrite Hm.
    + intros Hfound. cbn. now rewrite (Hn Hfound).
  - intros child prompt resume evs error.
    apply run_raised_no_completed.
Qed.

End RunnerFacts.

(** *** The end-to-end scenarios

    An engine named [codex] with the event vocabulary of the scenarios, and
    a decoder that agrees with [json.loads] on the lines they use. *)

Definition scenario_translate (data : Json.t) (st : JsonlRunState unit)
    (resume found : option ResumeToken.t)
    : Result (list TakopiEvent) * JsonlRunState unit :=
  match data with
  | JObj m =>
      match member m "type" with
      | JStr ty =>
          if String.eqb ty "session.started" then
            match member m "id" with
            | JStr sid =>
                (Return [StartedEvent "codex" (ResumeToken.mk "codex" sid)
                           None], st)
            | _ => (Raise "session.started without id", st)
            end
          else if String.eqb ty "turn.completed" then
            match member m "text" with
            | JStr text =>
                (Return [CompletedEvent "codex" true text found None], st)
            | _ => (Raise "turn.completed without text", st)
            end
          else if String.eqb ty "item.started" then
            match member m "item" with
            | JObj item =>
                match member item "id", member item "command" with
                | JStr i, JStr c =>
                    (Return [ActionEvent "codex" (mkAction i "command" c [])
                               "started" None None None], st)
                | _, _ => (Raise "item without id", st)
                end
            | _ => (Raise "item.started without item", st)
            end
          else (Return [], st)
      | _ => (Return [], st)
      end
  | _ => (Return [], st)
  end.

#[local] Instance scenario_engine : Engine unit :=
  mkEngine unit "codex" (fun _ _ => tt) scenario_translate.

(** The text of a JSON string and of a JSON object with the given member
    texts. *)
Definition quote : string := String "034"%char EmptyString.
Definition jtext (s : string) : string := quote ^^ s ^^ quote.

Fixpoint jmembers (ms : list (string * string)) : string :=
  match ms with
  | [] => EmptyString
  | [(k, v)] => jtext k ^^ ":" ^^ v
  | (k, v) :: rest => jtext k ^^ ":" ^^ v ^^ "," ^^ jmembers rest
  end.

Definition jobject (ms : list (string * string)) : string :=
  "{" ^^ jmembers ms ^^ "}".

Definition line_session (sid : string) : string :=
  jobject [("type", jtext "session.started"); ("id", jtext sid)].

Definition line_turn_completed (text : string) : string :=
  jobject [("type", jtext "turn.completed"); ("text", jtext text)].

Definition line_item_started : string :=
  jobject [("type", jtext "item.started");
           ("item", jobject [("type", jtext "command_execution");
                             ("id", jtext "i1"); ("command", jtext "ls")])].

Definition scenario_loads (text : string) : Loaded :=
  if String.eqb text (line_session "sess-ABC") then
    Value (JObj [("type", JStr "session.started"); ("id", JStr "sess-ABC")])
  else if String.eqb text (line_session "sess-Y") then
    Value (JObj [("type", JStr "session.started"); ("id", JStr "sess-Y")])
  else if String.eqb text (line_turn_completed "Hi!") then
    Value (JObj [("type", JStr "turn.completed"); ("text", JStr "Hi!")])
  else if String.eqb text (line_turn_completed "ok") then
    Value (JObj [("type", JStr "turn.completed"); ("text", JStr "ok")])
  else if String.eqb text line_item_started then
    Value (JObj [("type", JStr "item.started");
                 ("item", JObj [("type", JStr "command_execution");
                                ("id", JStr "i1"); ("command", JStr "ls")])])
  else JSONDecodeError.

(** The lines of the scenarios are ASCII, which [decode] leaves alone. *)
Definition ascii_decode (b : string) : string := b.

(** [repr] of a string without quotes or escapes. *)
Definition plain_repr (s : string) : string := "'" ^^ s ^^ "'".

Definition newline : string := String "010"%char EmptyString.

Definition child_writes (lines : list string) (rc : Z) : Child :=
  mkChild true true true
    (fold_right (fun l acc => l ^^ newline ^^ acc) EmptyString lines) rc.

Definition scenario_run (child : Child) (prompt : string)
    (resume : option ResumeToken.t) : Run :=
  run scenario_loads ascii_decode plain_repr child prompt resume.

Definition sess (sid : string) : ResumeToken.t := ResumeToken.mk "codex" sid.

(** Scenario (a): a fresh session that completes. *)
Example scenario_happy_path :
  scenario_run
    (child_writes [line_session "sess-ABC"; line_turn_completed "Hi!"] 0)
    "hello" None
  = Returned [StartedEvent "codex" (sess "sess-ABC") None;
              CompletedEvent "codex" true "Hi!" (Some (sess "sess-ABC")) None].
Proof. reflexivity. Qed.

(** Scenario (c): a malformed line, then the result. *)
Example scenario_malformed_line :
  scenario_run (child_writes ["not-json"; line_turn_completed "ok"] 0)
    "x" None
  = Returned
      [ActionEvent "codex"
         (mkAction "codex.note.1" "warning"
            "invalid JSON from codex; ignoring line"
            [("line", JStr "not-json")])
         "completed" (Some false)
         (Some "invalid JSON from codex; ignoring line") (Some "warning");
       CompletedEvent "codex" true "ok" None None].
Proof. reflexivity. Qed.

(** Scenario (d): one action, then exit code 2. *)
Definition child_exit_2 : Child := child_writes [line_item_started] 2.

Definition events_exit_2 : list TakopiEvent :=
  [ActionEvent "codex" (mkAction "i1" "command" "ls" []) "started"
     None None None;
   ActionEvent "codex"
     (mkAction "codex.note.1" "warning" "codex failed (rc=2)." [])
     "completed" (Some false) (Some "codex failed (rc=2).") (Some "warning");
   CompletedEvent "codex" false "" None (Some "codex failed (rc=2).")].

Lemma run_returns_one_completed_witness :
  count_completed events_exit_2 = 1%nat
  /\ exists pre c, events_exit_2 = pre ++ [c] /\ is_completed c = true.
Proof.
  apply (run_returns_one_completed scenario_loads ascii_decode plain_repr
           child_exit_2 "x" None events_exit_2).
  reflexivity.
Defined.

(** C1 as stated fails when the child announces a session other than the
    one to resume (scenario (b)): the iteration ends in a runtime error and
    the events it yielded contain no [Completed]. *)
Lemma mismatch_run_has_no_completed :
  scenario_run (child_writes [line_session "sess-Y"] 0) "hello"
    (Some (sess "sess-X"))
  = Raised [] "codex emitted session id sess-Y but expected sess-X"
  /\ count_completed
       (events_of
          (scenario_run (child_writes [line_session "sess-Y"] 0) "hello"
             (Some (sess "sess-X"))))
     <> 1%nat.
Proof. split; [reflexivity|]. vm_compute. discriminate. Qed.

Definition loop_after_item : Loop unit :=
  mkLoop (mkRunState 0 tt) None false
    [ActionEvent "codex" (mkAction "i1" "command" "ls" []) "started"
       None None None].

Lemma nonzero_exit_events_witness :
  run_impl scenario_loads ascii_decode plain_repr child_exit_2 "x" None
  = Returned events_exit_2.
Proof.
  exact (nonzero_exit_events scenario_loads ascii_decode plain_repr
           child_exit_2 "x" None loop_after_item
           eq_refl eq_refl eq_refl eq_refl eq_refl
           ltac:(discriminate)).
Defined.

(** A loop that has found the session [sess-ABC] and yielded its event. *)
Definition loop_found : Loop unit :=
  mkLoop (mkRunState 0 tt) (Some (sess "sess-ABC")) false
    [StartedEvent "codex" (sess "sess-ABC") None].

Lemma started_event_handling_witness :
  emit_events plain_repr None
    [StartedEvent "codex" (sess "sess-ABC") None;
     CompletedEvent "codex" true "Hi!" None None] loop_found
  = inl (mkLoop (mkRunState 0 tt) (Some (sess "sess-ABC")) true
           [StartedEvent "codex" (sess "sess-ABC") None;
            CompletedEvent "codex" true "Hi!" None None]).
Proof.
  destruct (started_event_handling scenario_loads ascii_decode plain_repr
              (sess "sess-ABC") None None
              [CompletedEvent "codex" true "Hi!" None None] loop_found
              eq_refl) as (_ & H & _).
  destruct (H (or_introl eq_refl)) as (Hswallow & _).
  change (@engine unit scenario_engine) with "codex" in Hswallow.
  rewrite (Hswallow eq_refl). reflexivity.
Defined.

(** C4 as stated fails for an event that carries another engine's name:
    its session equals the one already found, yet it is not swallowed; the
    engine guard raises. *)
Lemma foreign_engine_not_swallowed :
  emit_events plain_repr None
    [StartedEvent "claude" (sess "sess-ABC") None] loop_found
  = inr (yielded loop_found,
         "codex emitted session token for engine 'claude'")
  /\ emit_events plain_repr None
       [StartedEvent "claude" (sess "sess-ABC") None] loop_found
     <> emit_events plain_repr None [] loop_found.
Proof. split; [reflexivity|]. vm_compute. discriminate. Qed.


(** *** Framing of the child's output *)

(** The records [ls], each written with its newline. *)
Definition framed (ls : list string) : string :=
  fold_right (fun l acc => l ^^ newline ^^ acc) EmptyString ls.

(** No newline occurs in [s]. *)
Fixpoint one_line (s : string) : bool :=
  match s with
  | EmptyString => true
  | String c s' => negb (is_newline c) && one_line s'
  end.

Lemma append_assoc (a b c : string) : (a ^^ b) ^^ c = a ^^ b ^^ c.
Proof. induction a as [|x a IH]; cbn; [reflexivity|now rewrite IH]. Qed.

Lemma append_nil_r (a : string) : a ^^ EmptyString = a.
Proof. induction a as [|x a IH]; cbn; [reflexivity|now rewrite IH]. Qed.

Lemma lines_from_record l : forall acc rest,
  one_line l = true ->
  lines_from acc (l ^^ newline ^^ rest)
  = (acc ^^ l) :: lines_from EmptyString rest.
Proof.
  induction l as [|c l IH]; intros acc rest H; cbn in *.
  - now rewrite append_nil_r.
  - apply andb_prop in H. destruct H as [Hc Hl].
    unfold is_newline in Hc. apply negb_true_iff in Hc. rewrite Hc.
    rewrite IH by exact Hl. now rewrite append_assoc.
Qed.

Lemma lines_from_tail tail : forall acc,
  one_line tail = true -> lines_from acc tail = [].
Proof.
  induction tail as [|c t IH]; intros acc H; cbn in *; auto.
  apply andb_prop in H. destruct H as [Hc Hl].
  unfold is_newline in Hc. apply negb_true_iff in Hc. rewrite Hc. auto.
Qed.

Lemma iter_bytes_lines_framed ls tail :
  forallb one_line ls = true -> one_line tail = true ->
  iter_bytes_lines (framed ls ^^ tail) = ls.
Proof.
  unfold iter_bytes_lines. intros Hls Ht.
  induction ls as [|l ls IH].
  - cbn. now apply lines_from_tail.
  - cbn [forallb] in Hls. apply andb_prop in Hls. destruct Hls as [Hl Hls].
    change (framed (l :: ls)) with (l ^^ newline ^^ framed ls).
    rewrite !append_assoc. rewrite lines_from_record by exact Hl.
    cbn [String.append]. now rewrite IH.
Qed.

Lemma rstrip_one_line l :
  one_line l = true -> rstrip_by is_newline l = l.
Proof.
  induction l as [|c l IH]; cbn; auto.
  intros H. apply andb_prop in H. destruct H as [Hc Hl].
  rewrite IH by exact Hl. apply negb_true_iff in Hc. rewrite Hc.
  now destruct l.
Qed.

Lemma lines_from_one_line s : forall acc l,
  one_line acc = true -> In l (lines_from acc s) -> one_line l = true.
Proof.
  induction s as [|c s IH]; intros acc l Hacc; cbn; [intros []|].
  destruct (Ascii.eqb c "010"%char) eqn:Hc.
  - intros [<-|Hin]; auto. now apply (IH EmptyString).
  - apply IH. clear - Hacc Hc.
    induction acc as [|a acc IH]; cbn in *.
    + unfold is_newline. now rewrite Hc.
    + apply andb_prop in Hacc. destruct Hacc as [-> Hacc]. cbn. auto.
Qed.

(** X13: [iter_bytes_lines] yields the records that end in a newline, in
    order and without their newline, and drops what follows the last
    newline; every record it yields is free of newlines, so the
    [rstrip] of [iter_json_lines] changes nothing. *)
Theorem iter_bytes_lines_round_trip (ls : list string) (tail : string) :
  forallb one_line ls = true -> one_line tail = true ->
  iter_bytes_lines (framed ls ^^ tail) = ls
  /\ iter_json_lines (framed ls ^^ tail) = ls
  /\ forall stream l, In l (iter_bytes_lines stream) -> one_line l = true.
Proof.
  intros Hls Ht. split; [now apply iter_bytes_lines_framed|]. split.
  - unfold iter_json_lines. rewrite iter_bytes_lines_framed by assumption.
    clear Ht. induction ls as [|l ls IH]; cbn in *; auto.
    apply andb_prop in Hls. destruct Hls as [Hl Hls].
    now rewrite rstrip_one_line, IH.
  - intros stream l. now apply lines_from_one_line.
Qed.

Lemma iter_bytes_lines_round_trip_witness :
  iter_bytes_lines (framed ["{}"; ""; "x y"] ^^ "partial") = ["{}"; ""; "x y"]
  /\ iter_json_lines (framed ["{}"; ""; "x y"] ^^ "partial")
     = ["{}"; ""; "x y"]
  /\ forall stream l, In l (iter_bytes_lines stream) -> one_line l = true.
Proof.
  apply (iter_bytes_lines_round_trip ["{}"; ""; "x y"] "partial");
    reflexivity.
Defined.

(** *** What a run yields *)

Definition is_started (e : TakopiEvent) : bool :=
  match e with StartedEvent _ _ _ => true | _ => false end.

Definition count_started (evs : list TakopiEvent) : nat :=
  List.length (filter is_started evs).

Lemma count_started_app a b :
  count_started (a ++ b) = (count_started a + count_started b)%nat.
Proof. unfold count_started. now rewrite filter_app, length_app. Qed.

(** A warning note: a completed action of kind [warning] that did not
    succeed. *)
Definition is_warning_note (e : TakopiEvent) : bool :=
  match e with
  | ActionEvent _ a phase ok _ level =>
      String.eqb (kind a) "warning" && String.eqb phase "completed"
      && match ok with Some false => true | _ => false end
      && match level with Some l => String.eqb l "warning" | None => false end
  | _ => false
  end.

Section RunFacts.

Context {Scratch : Type} {E : Engine Scratch}.
Variable json_loads : string -> Loaded.
Variable decode_utf8 : string -> string.
Variable repr : string -> string.

Lemma read_lines_completed resume lines : forall l,
  did_emit_completed l = true ->
  read_lines json_loads decode_utf8 repr resume lines l = inl l.
Proof.
  induction lines as [|raw rest IH]; intros l Hd; cbn; auto.
  rewrite Hd. now apply IH.
Qed.

Lemma read_lines_app resume a b : forall l,
  read_lines json_loads decode_utf8 repr resume (a ++ b) l
  = match read_lines json_loads decode_utf8 repr resume a l with
    | inl l' => read_lines json_loads decode_utf8 repr resume b l'
    | inr failure => inr failure
    end.
Proof.
  induction a as [|raw rest IH]; intros l; cbn; auto.
  destruct (did_emit_completed l); auto.
  destruct (negb (truthy (strip_by is_bytes_space raw))); auto.
  destruct (line_events json_loads decode_utf8 resume (found_session l) raw
              (strip_by is_bytes_space raw) (state l)) as [events st'].
  destruct (emit_events repr resume events
              (mkLoop st' (found_session l) false (yielded l)))
    as [l'|failure]; auto.
Qed.

(** X14: when the pipes are open, the read loop ends without a
    [Completed] and the child exits with code zero, [run_impl] yields
    exactly one more event: the synthetic [Completed] with [ok = false], an
    empty answer, the found session or else the supplied resume, and the
    error [<tag> finished without a result event]; no warning note
    precedes it. *)
Theorem zero_exit_events (child : Child) (prompt : string)
    (resume : option ResumeToken.t) (l : Loop Scratch) :
  has_stdin child = true -> has_stdout child = true ->
  has_stderr child = true ->
  read_lines json_loads decode_utf8 repr resume
    (iter_json_lines (stdout child))
    (mkLoop (new_state prompt resume) None false []) = inl l ->
  did_emit_completed l = false ->
  returncode child = 0%Z ->
  run_impl json_loads decode_utf8 repr child prompt resume
  = Returned
      (yielded l
       ++ [CompletedEvent engine false ""
             (match found_session l with Some f => Some f | None => resume end)
             (Some (tag ^^ " finished without a result event"))]).
Proof.
  intros Hin Hout Herr Hloop Hd Hrc.
  unfold run_impl. rewrite Hin, Hout, Herr. cbn [negb orb].
  rewrite Hloop, Hd, Hrc. reflexivity.
Qed.

(** X15: once the read loop has yielded a [Completed], whatever the child
    writes afterwards is read and ignored and its exit code does not
    matter: the run returns the events yielded up to that [Completed]. *)
Theorem completed_ends_run (child child' : Child) (prompt : string)
    (resume : option ResumeToken.t) (l : Loop Scratch)
    (more : list string) :
  has_stdin child' = true -> has_stdout child' = true ->
  has_stderr child' = true ->
  read_lines json_loads decode_utf8 repr resume
    (iter_json_lines (stdout child))
    (mkLoop (new_state prompt resume) None false []) = inl l ->
  did_emit_completed l = true ->
  iter_json_lines (stdout child')
  = iter_json_lines (stdout child) ++ more ->
  run_impl json_loads decode_utf8 repr child' prompt resume
  = Returned (yielded l).
Proof.
  intros Hin Hout Herr Hloop Hd Hmore.
  unfold run_impl. rewrite Hin, Hout, Herr. cbn [negb orb].
  rewrite Hmore, read_lines_app, Hloop.
  rewrite read_lines_completed by exact Hd. now rewrite Hd.
Qed.

(** What the loop maintains about [Started] events: none is yielded before
    a session is found; afterwards exactly one is, it carries the found
    session and the runner's engine, and the found session is the supplied
    resume when one was supplied. *)
Definition started_inv (expected : option ResumeToken.t)
    (found : option ResumeToken.t) (evs : list TakopiEvent) : Prop :=
  match found with
  | None => count_started evs = 0%nat
  | Some f =>
      count_started evs = 1%nat
      /\ (forall x, expected = Some x -> f = x)
      /\ forall eng r t, In (StartedEvent eng r t) evs ->
           eng = engine /\ r = f
  end.

Definition started_outcome (expected : option ResumeToken.t)
    (r : Loop Scratch + list TakopiEvent * string) : Prop :=
  match r with
  | inl l => started_inv expected (found_session l) (yielded l)
  | inr (evs, _) =>
      (count_started evs <= 1)%nat
      /\ forall eng r t, In (StartedEvent eng r t) evs ->
           eng = engine /\ forall x, expected = Some x -> r = x
  end.

Lemma started_inv_weaken expected found evs :
  started_inv expected found evs ->
  (count_started evs <= 1)%nat
  /\ forall eng r t, In (StartedEvent eng r t) evs ->
       eng = engine /\ forall x, expected = Some x -> r = x.
Proof.
  unfold started_inv. destruct found as [f|].
  - intros (Hc & Hx & Hin). split; [lia|].
    intros eng r t H. destruct (Hin eng r t H) as [-> ->]. auto.
  - intros Hc. split; [lia|]. intros eng r t H. exfalso.
    unfold count_started in Hc.
    assert (Hf : In (StartedEvent eng r t) (filter is_started evs))
      by (apply filter_In; auto).
    destruct (filter is_started evs); [contradiction|discriminate].
Qed.

Lemma started_inv_snoc_other expected found evs e :
  is_started e = false ->
  started_inv expected found evs -> started_inv expected found (evs ++ [e]).
Proof.
  intros He. unfold started_inv.
  assert (Hc : count_started (evs ++ [e]) = count_started evs).
  { rewrite count_started_app. unfold count_started at 2. cbn.
    rewrite He. cbn. lia. }
  destruct found as [f|]; rewrite Hc; auto.
  intros (H1 & Hx & Hin). split; [exact H1|]. split; [exact Hx|].
  intros eng r t H. apply in_app_or in H.
  destruct H as [H|[H|[]]]; [now apply (Hin eng r t)|].
  subst e. discriminate.
Qed.

Lemma handle_started_event_returns eng r expected found found' emit :
  handle_started_event repr eng r expected found = Return (found', emit) ->
  eng = engine
  /\ (forall x, expected = Some x -> r = x)
  /\ match found with
     | None => found' = Some r /\ emit = true
     | Some f => found' = Some f /\ emit = false /\ r = f
     end.
Proof.
  unfold handle_started_event.
  destruct (String.eqb_spec eng engine) as [->|]; cbn [negb];
    [|discriminate].
  intros H. split; [reflexivity|].
  assert (Hx : forall x, expected = Some x -> r = x).
  { intros x ->. destruct (ResumeToken.eqb r x) eqn:Hr; cbn in H;
      [now apply token_eqb_eq|discriminate]. }
  split; [exact Hx|].
  assert (H' : match found with
               | None => Return (Some r, true)
               | Some f =>
                   if negb (ResumeToken.eqb r f)
                   then Raise (mismatch_message r f)
                   else Return (Some f, false)
               end = Return (found', emit)).
  { destruct expected as [x|]; auto.
    destruct (ResumeToken.eqb r x); cbn in H; [exact H|discriminate]. }
  destruct found as [f|].
  - destruct (ResumeToken.eqb r f) eqn:Hr; cbn in H'; [|discriminate].
    apply token_eqb_eq in Hr. injection H' as <- <-. auto.
  - injection H' as <- <-. auto.
Qed.

Lemma emit_events_started expected events : forall l,
  started_inv expected (found_session l) (yielded l) ->
  started_outcome expected (emit_events repr expected events l).
Proof.
  induction events as [|evt rest IH]; intros l Hl; cbn [emit_events].
  - exact Hl.
  - destruct evt as [eng r t| eng a ph ok m lv | eng ok ans r err].
    + destruct (handle_started_event repr eng r expected (found_session l))
        as [[found emit]|error] eqn:Hh.
      * apply handle_started_event_returns in Hh.
        destruct Hh as (-> & Hx & Hf).
        destruct (found_session l) as [f|] eqn:Hfound.
        -- destruct Hf as (-> & -> & ->). apply IH.
           cbn [found_session yielded]. exact Hl.
        -- destruct Hf as (-> & ->). apply IH.
           cbn [found_session yielded]. unfold started_inv in *.
           split; [|split; [exact Hx|]].
           ++ rewrite count_started_app, Hl. reflexivity.
           ++ intros eng r' t' H. apply in_app_or in H.
              destruct H as [H|[H|[]]].
              ** exfalso. unfold count_started in Hl.
                 assert (Hin : In (StartedEvent eng r' t')
                                 (filter is_started (yielded l)))
                   by (apply filter_In; auto).
                 destruct (filter is_started (yielded l));
                   [contradiction|discriminate].
              ** injection H as <- <- _. auto.
      * cbn. now apply started_inv_weaken with (found := found_session l).
    + apply IH. cbn [found_session yielded].
      now apply started_inv_snoc_other.
    + cbn [started_outcome found_session yielded].
      now apply started_inv_snoc_other.
Qed.

Lemma read_lines_started resume lines : forall l,
  started_inv resume (found_session l) (yielded l) ->
  started_outcome resume
    (read_lines json_loads decode_utf8 repr resume lines l).
Proof.
  induction lines as [|raw rest IH]; intros l Hl; cbn; auto.
  destruct (did_emit_completed l); [now apply IH|].
  destruct (negb (truthy (strip_by is_bytes_space raw))); [now apply IH|].
  destruct (line_events json_loads decode_utf8 resume (found_session l) raw
              (strip_by is_bytes_space raw) (state l)) as [events st'].
  pose proof (emit_events_started resume events
                (mkLoop st' (found_session l) false (yielded l)) Hl) as H.
  destruct (emit_events repr resume events
              (mkLoop st' (found_session l) false (yielded l)))
    as [l'|[evs error]]; cbn in H; auto.
Qed.

Lemma run_impl_started child prompt resume :
  let evs :=
    events_of (run_impl json_loads decode_utf8 repr child prompt resume) in
  (count_started evs <= 1)%nat
  /\ forall eng r t, In (StartedEvent eng r t) evs ->
       eng = engine /\ forall x, resume = Some x -> r = x.
Proof.
  cbv zeta. unfold run_impl.
  destruct (negb (has_stdout child) || negb (has_stderr child));
    [cbn; split; [lia|intros ? ? ? []]|].
  destruct (negb (has_stdin child)); [cbn; split; [lia|intros ? ? ? []]|].
  pose proof (read_lines_started resume (iter_json_lines (stdout child))
                (mkLoop (new_state prompt resume) None false []) eq_refl)
    as H.
  destruct (read_lines json_loads decode_utf8 repr resume
              (iter_json_lines (stdout child))
              (mkLoop (new_state prompt resume) None false []))
    as [l|[evs error]]; cbn [started_outcome events_of] in *; auto.
  destruct (did_emit_completed l);
    [now apply started_inv_weaken with (found := found_session l)|].
  destruct (negb (returncode child =? 0)%Z); cbn [events_of].
  - unfold process_error_events, note_event, next_note_id. cbn [fst].
    change (yielded l ++ [?a; ?c]) with (yielded l ++ [a] ++ [c]).
    rewrite app_assoc.
    apply started_inv_weaken with (found := found_session l).
    apply started_inv_snoc_other; [reflexivity|].
    now apply started_inv_snoc_other.
  - unfold stream_end_events. cbn [fst].
    apply started_inv_weaken with (found := found_session l).
    now apply started_inv_snoc_other.
Qed.

(** X16: whatever the child writes and however the run ends, the events a
    run yields contain at most one [Started]; every [Started] yielded is of
    the runner's engine and, when a resume token was supplied, carries
    exactly that token. *)
Theorem at_most_one_started (child : Child) (prompt : string)
    (resume : option ResumeToken.t) :
  let evs :=
    events_of (run json_loads decode_utf8 repr child prompt resume) in
  (count_started evs <= 1)%nat
  /\ forall eng r t, In (StartedEvent eng r t) evs ->
       eng = engine /\ forall x, resume = Some x -> r = x.
Proof.
  unfold run. destruct resume as [token|]; [|apply run_impl_started].
  destruct (negb (String.eqb (ResumeToken.engine token) engine));
    [|apply run_impl_started].
  cbn. split; [lia|intros ? ? ? []].
Qed.

(** X17: a line that cannot be decoded, or whose translation raises, does
    not end the run: the loop yields exactly one warning note for it,
    keeps the session found so far and goes on with the next line. *)
Theorem bad_line_yields_one_warning (resume : option ResumeToken.t)
    (raw : string) (rest : list string) (l : Loop Scratch) :
  let line := strip_by is_bytes_space raw in
  did_emit_completed l = false ->
  line <> "" ->
  ((exists e, decode_jsonl json_loads decode_utf8 line = Raise e)
   \/ decode_jsonl json_loads decode_utf8 line = Return None
   \/ (exists d e, decode_jsonl json_loads decode_utf8 line = Return (Some d)
                   /\ fst (translate d (state l) resume (found_session l))
                      = Raise e)) ->
  exists note st',
    is_warning_note note = true
    /\ read_lines json_loads decode_utf8 repr resume (raw :: rest) l
       = read_lines json_loads decode_utf8 repr resume rest
           (mkLoop st' (found_session l) false (yielded l ++ [note])).
Proof.
  cbv zeta. intros Hd Hne Hbad. cbn [read_lines]. rewrite Hd.
  assert (Ht : truthy (strip_by is_bytes_space raw) = true).
  { destruct (strip_by is_bytes_space raw); [congruence|reflexivity]. }
  rewrite Ht. cbn [negb]. unfold line_events.
  destruct Hbad as [[e He]|[He|(d & e & He & Htr)]]; rewrite He.
  - unfold decode_error_events, note_event, next_note_id.
    eexists. eexists. split; [|reflexivity]. reflexivity.
  - unfold invalid_json_events, note_event, next_note_id.
    eexists. eexists. split; [|reflexivity]. reflexivity.
  - destruct (translate d (state l) resume (found_session l))
      as [[events|exc] st'] eqn:Hte; cbn [fst] in Htr; [discriminate|].
    unfold translate_error_events, note_event, next_note_id.
    eexists. eexists. split; [|reflexivity]. reflexivity.
Qed.

End RunFacts.

(** *** The theorems on the scenario engine *)

Lemma zero_exit_events_witness :
  run_impl scenario_loads ascii_decode plain_repr
    (child_writes [line_item_started] 0) "x" None
  = Returned
      [ActionEvent "codex" (mkAction "i1" "command" "ls" []) "started"
         None None None;
       CompletedEvent "codex" false "" None
         (Some "codex finished without a result event")].
Proof.
  exact (zero_exit_events scenario_loads ascii_decode plain_repr
           (child_writes [line_item_started] 0) "x" None loop_after_item
           eq_refl eq_refl eq_refl eq_refl eq_refl eq_refl).
Defined.

(** A loop that has yielded the result of the turn. *)
Definition loop_completed : Loop unit :=
  mkLoop (mkRunState 0 tt) None true
    [CompletedEvent "codex" true "ok" None None].

Lemma completed_ends_run_witness :
  run_impl scenario_loads ascii_decode plain_repr
    (child_writes [line_turn_completed "ok"; "not-json"; line_item_started] 3)
    "x" None
  = Returned [CompletedEvent "codex" true "ok" None None].
Proof.
  exact (completed_ends_run scenario_loads ascii_decode plain_repr
           (child_writes [line_turn_completed "ok"] 0)
           (child_writes
              [line_turn_completed "ok"; "not-json"; line_item_started] 3)
           "x" None loop_completed ["not-json"; line_item_started]
           eq_refl eq_refl eq_refl eq_refl eq_refl eq_refl).
Defined.

Lemma bad_line_yields_one_warning_witness :
  exists note st',
    is_warning_note note = true
    /\ read_lines scenario_loads ascii_decode plain_repr None
         ["not-json"; line_turn_completed "ok"]
         (mkLoop (mkRunState 0 tt) None false [])
       = read_lines scenario_loads ascii_decode plain_repr None
           [line_turn_completed "ok"]
           (mkLoop st' None false ([] ++ [note])).
Proof.
  apply (bad_line_yields_one_warning scenario_loads ascii_decode plain_repr
           None "not-json" [line_turn_completed "ok"]
           (mkLoop (mkRunState 0 tt) None false [])).
  - reflexivity.
  - discriminate.
  - right. left. reflexivity.
Defined.

End Runner.

(** ** codex_telegram_bridge/exec_render.py: the progress renderer *)

Module ExecRender.

Import Json Runner.

(** [collections.deque] with a [maxlen]. *)
Record deque := mkDeque {
  maxlen : nat;
  elements : list string
}.

(** [d.append(x)]: once the deque is full, items are discarded from the
    other end; with [maxlen = 0] nothing is kept. *)
Definition append (d : deque) (x : string) : deque :=
  let l := elements d ++ [x] in
  mkDeque (maxlen d) (skipn (List.length l - maxlen d) l).

(** [d[-1]], for a non-empty deque. *)
Definition last_element (d : deque) : option string :=
  match rev (elements d) with x :: _ => Some x | [] => None end.

(** The part of [ExecRenderState] that [render_event_progress] reads and
    writes through [_record_item]: the items seen and the last turn. *)
Record Recorded := mkRecorded {
  items : dict Json.t;
  last_turn : option Z
}.

Record ExecRenderState := mkRenderState {
  recorded : Recorded;
  recent : deque
}.

(** The default of [max_lines] in [ExecProgressRenderer.__init__]. *)
Definition default_max_lines : nat := 4.

(** [ExecProgressRenderer(max_lines)] *)
Definition ExecProgressRenderer (max_lines : nat) : ExecRenderState :=
  mkRenderState (mkRecorded [] None) (mkDeque max_lines []).

Section Renderer.

(** [render_event_progress(event, state)]: the line or [None], or the
    exception raised on an event of an unexpected shape; of the state it
    touches [items] and [last_turn] only. *)
Variable render_event_progress :
  Json.t -> Recorded -> Result (option string) * Recorded.

(** [note_event]: the returned line, or the exception, and the state. *)
Definition note_event (st : ExecRenderState) (event : Json.t)
    : Result (option string) * ExecRenderState :=
  match render_event_progress event (recorded st) with
  | (Raise e, rec') => (Raise e, mkRenderState rec' (recent st))
  | (Return None, rec') => (Return None, mkRenderState rec' (recent st))
  | (Return (Some line0), rec') =>
      if negb (truthy line0) then
        (Return None, mkRenderState rec' (recent st))
      else
        let line := strip line0 in
        if negb (truthy line) then
          (Return None, mkRenderState rec' (recent st))
        else
          match last_element (recent st) with
          | Some l =>
              if String.eqb l line
              then (Return (Some line), mkRenderState rec' (recent st))
              else (Return (Some line),
                    mkRenderState rec' (append (recent st) line))
          | None =>
              (Return (Some line),
               mkRenderState rec' (append (recent st) line))
          end
  end.

(** Feeding a sequence of events, whatever each call returns or raises. *)
Definition feed (st : ExecRenderState) (events : list Json.t)
    : ExecRenderState :=
  fold_left (fun s e => snd (note_event s e)) events st.

End Renderer.

Lemma append_maxlen d x : maxlen (append d x) = maxlen d.
Proof. reflexivity. Qed.

Lemma append_bounded d x :
  (List.length (elements (append d x)) <= maxlen d)%nat.
Proof.
  unfold append. cbn [elements]. rewrite length_skipn. lia.
Qed.

(** On a full deque the oldest element goes and the new one comes last. *)
Lemma append_full_evicts d x :
  List.length (elements d) = maxlen d -> (0 < maxlen d)%nat ->
  elements (append d x) = tl (elements d) ++ [x].
Proof.
  intros Hlen Hpos. unfold append. cbn [elements].
  rewrite length_app. cbn [List.length]. rewrite Hlen.
  replace (maxlen d + 1 - maxlen d)%nat with 1%nat by lia.
  destruct (elements d) as [|y l]; [cbn in Hlen; lia|reflexivity].
Qed.

(** Below its bound a deque just grows. *)
Lemma append_room d x :
  (List.length (elements d) < maxlen d)%nat ->
  elements (append d x) = elements d ++ [x].
Proof.
  intros Hlen. unfold append. cbn [elements].
  rewrite length_app. cbn [List.length].
  replace (List.length (elements d) + 1 - maxlen d)%nat with 0%nat by lia.
  reflexivity.
Qed.

Section RendererFacts.

Variable render_event_progress :
  Json.t -> Recorded -> Result (option string) * Recorded.

Definition within_bound (st : ExecRenderState) : Prop :=
  (List.length (elements (recent st)) <= maxlen (recent st))%nat.

Lemma note_event_recent st event :
  recent (snd (note_event render_event_progress st event)) = recent st
  \/ exists line,
       recent (snd (note_event render_event_progress st event))
       = append (recent st) line.
Proof.
  unfold note_event.
  destruct (render_event_progress event (recorded st)) as [[[line0|]|e] rec'];
    cbn; auto.
  destruct (negb (truthy line0)); cbn; auto.
  destruct (negb (truthy (strip line0))); cbn; auto.
  destruct (last_element (recent st)) as [l|]; cbn; eauto.
  destruct (String.eqb l (strip line0)); cbn; eauto.
Qed.

Lemma note_event_bound st event :
  within_bound st ->
  within_bound (snd (note_event render_event_progress st event))
  /\ maxlen (recent (snd (note_event render_event_progress st event)))
     = maxlen (recent st).
Proof.
  intros Hb. unfold within_bound.
  destruct (note_event_recent st event) as [-> | [line ->]]; auto.
  rewrite append_maxlen. split; [apply append_bounded|reflexivity].
Qed.

Lemma feed_bound events : forall st,
  within_bound st ->
  within_bound (feed render_event_progress st events)
  /\ maxlen (recent (feed render_event_progress st events))
     = maxlen (recent st).
Proof.
  induction events as [|e events IH]; intros st Hb; [auto|].
  change (feed render_event_progress st (e :: events))
    with (feed render_event_progress
            (snd (note_event render_event_progress st e)) events).
  destruct (note_event_bound st e Hb) as [Hb' Hm].
  destruct (IH _ Hb') as [H1 H2]. split; [exact H1|].
  now rewrite H2.
Qed.

(** What one call of [note_event] does to the lines kept: a new line goes
    last, and the oldest one goes when the deque is full. *)
Lemma note_event_evicts st event :
  within_bound st ->
  let r := note_event render_event_progress st event in
  let kept := elements (recent st) in
  let kept' := elements (recent (snd r)) in
  match fst r with
  | Return (Some line) =>
      if match last_element (recent st) with
         | Some l => String.eqb l line
         | None => false
         end
      then kept' = kept
      else ((List.length kept < maxlen (recent st))%nat ->
            kept' = kept ++ [line])
           /\ (List.length kept = maxlen (recent st) ->
               (0 < maxlen (recent st))%nat -> kept' = tl kept ++ [line])
           /\ (maxlen (recent st) = 0%nat -> kept' = [])
  | _ => kept' = kept
  end.
Proof.
  intros Hb. cbv zeta.
  assert (Happ : forall line,
    ((List.length (elements (recent st)) < maxlen (recent st))%nat ->
     elements (append (recent st) line) = elements (recent st) ++ [line])
    /\ (List.length (elements (recent st)) = maxlen (recent st) ->
        (0 < maxlen (recent st))%nat ->
        elements (append (recent st) line)
        = tl (elements (recent st)) ++ [line])
    /\ (maxlen (recent st) = 0%nat ->
        elements (append (recent st) line) = [])).
  { intros line. split; [apply append_room|].
    split; [apply append_full_evicts|].
    intros Hz. unfold append. cbn [elements]. rewrite Hz.
    rewrite Nat.sub_0_r. apply skipn_all. }
  unfold note_event.
  destruct (render_event_progress event (recorded st))
    as [[[line0|]|e] rec']; cbn [fst snd recent]; auto.
  destruct (negb (truthy line0)); cbn [fst snd recent]; auto.
  destruct (negb (truthy (strip line0))); cbn [fst snd recent]; auto.
  destruct (last_element (recent st)) as [l|]; cbn [fst snd recent].
  - destruct (String.eqb l (strip line0)) eqn:E; cbn [fst snd recent];
      rewrite E; [reflexivity|apply Happ].
  - apply Happ.
Qed.

(** C8 (amended): a renderer built with [max_lines] keeps at most
    [max_lines] rendered lines after any sequence of events, and the
    default of [max_lines] is 4.  At any time, that is after any sequence
    of events, [note_event] changes the lines kept only when it returns a
    line that is not the last one kept: that line then goes last, and when
    [max_lines] lines are kept already the oldest of them is evicted and
    the others stay in their order; a line appended to a full deque evicts
    the oldest line. *)
Theorem recent_bounded (max_lines : nat) (events : list Json.t) :
  (List.length
     (elements
        (recent (feed render_event_progress
                   (ExecProgressRenderer max_lines) events)))
   <= max_lines)%nat
  /\ default_max_lines = 4%nat
  /\ (List.length
        (elements
           (recent (feed render_event_progress
                      (ExecProgressRenderer default_max_lines) events)))
      <= 4)%nat
  /\ (forall d x,
        List.length (elements d) = maxlen d -> (0 < maxlen d)%nat ->
        elements (append d x) = tl (elements d) ++ [x])
  /\ (forall event,
        let st := feed render_event_progress
                    (ExecProgressRenderer max_lines) events in
        let r := note_event render_event_progress st event in
        let kept := elements (recent st) in
        let kept' := elements (recent (snd r)) in
        match fst r with
        | Return (Some line) =>
            if match last_element (recent st) with
               | Some l => String.eqb l line
               | None => false
               end
            then kept' = kept
            else ((List.length kept < max_lines)%nat ->
                  kept' = kept ++ [line])
                 /\ (List.length kept = max_lines -> (0 < max_lines)%nat ->
                     kept' = tl kept ++ [line])
                 /\ (max_lines = 0%nat -> kept' = [])
        | _ => kept' = kept
        end).
Proof.
  assert (H : forall n,
    (List.length
       (elements
          (recent (feed render_event_progress (ExecProgressRenderer n)
                     events))) <= n)%nat).
  { intros n.
    destruct (feed_bound events (ExecProgressRenderer n)) as [Hb Hm].
    - unfold within_bound. cbn. lia.
    - unfold within_bound in Hb. rewrite Hm in Hb. exact Hb. }
  split; [apply H|]. split; [reflexivity|]. split; [apply (H 4%nat)|].
  split; [exact append_full_evicts|].
  intros event.
  destruct (feed_bound events (ExecProgressRenderer max_lines)) as [Hb Hm];
    [unfold within_bound; cbn; lia|].
  cbn [recent ExecProgressRenderer maxlen] in Hm.
  pose proof (note_event_evicts _ event Hb) as He.
  rewrite Hm in He. exact He.
Qed.

End RendererFacts.

(** [render_event_progress] on the events [{"type": "error", "message": m}]
    with a string [m], which it renders as [stream error: m] without a look
    at the state; no line for any other event. *)
Definition render_stream_errors (event : Json.t) (r : Recorded)
    : Result (option string) * Recorded :=
  match event with
  | JObj m =>
      match member m "type", member m "message" with
      | JStr ty, JStr msg =>
          if String.eqb ty "error"
          then (Return (Some ("stream error: " ^^ msg)), r)
          else (Return None, r)
      | _, _ => (Return None, r)
      end
  | _ => (Return None, r)
  end.

Definition stream_error (msg : string) : Json.t :=
  JObj [("type", JStr "error"); ("message", JStr msg)].

Definition five_errors : list Json.t :=
  map stream_error ["m1"; "m2"; "m3"; "m4"; "m5"].

Definition four_errors : list Json.t :=
  map stream_error ["m1"; "m2"; "m3"; "m4"].

Lemma recent_bounded_witness :
  (List.length
     (elements
        (recent (feed render_stream_errors
                   (ExecProgressRenderer default_max_lines) five_errors)))
   <= 4)%nat
  /\ elements
       (recent
          (snd (note_event render_stream_errors
                  (feed render_stream_errors
                     (ExecProgressRenderer default_max_lines) four_errors)
                  (stream_error "m5"))))
     = tl (elements
             (recent (feed render_stream_errors
                        (ExecProgressRenderer default_max_lines)
                        four_errors)))
       ++ ["stream error: m5"].
Proof.
  split.
  - exact (proj1 (proj2 (proj2
             (recent_bounded render_stream_errors default_max_lines
                five_errors)))).
  - exact (proj1 (proj2
             (proj2 (proj2 (proj2 (proj2
                (recent_bounded render_stream_errors default_max_lines
                   four_errors))))
                (stream_error "m5")))
             eq_refl (Nat.lt_0_succ 3)).
Defined.

(** C8 as stated fails on the default: it is 4, not 5, so the renderer
    built with default parameters keeps four of five distinct lines. *)
Lemma default_max_lines_is_not_5 :
  default_max_lines <> 5%nat
  /\ elements
       (recent (feed render_stream_errors
                  (ExecProgressRenderer default_max_lines) five_errors))
     = ["stream error: m2"; "stream error: m3"; "stream error: m4";
        "stream error: m5"].
Proof. split; [discriminate|reflexivity]. Qed.


(** *** The lines the renderer keeps *)

Lemma rstrip_by_idempotent space s :
  rstrip_by space (rstrip_by space s) = rstrip_by space s.
Proof.
  induction s as [|c s IH]; cbn; auto.
  destruct (rstrip_by space s) as [|d r] eqn:Hr.
  - destruct (space c) eqn:Hc; cbn; auto. now rewrite Hc.
  - cbn [rstrip_by]. cbn [rstrip_by] in IH. rewrite IH. reflexivity.
Qed.

(** Stripping on the right leaves a first character that is no white
    space where it is. *)
Lemma lstrip_rstrip space s :
  lstrip_by space s = s ->
  lstrip_by space (rstrip_by space s) = rstrip_by space s.
Proof.
  destruct s as [|c s]; cbn; auto.
  destruct (space c) eqn:Hc.
  - intros H. exfalso.
    assert (Hlen : forall t, (String.length (lstrip_by space t)
                              <= String.length t)%nat).
    { intros t. induction t as [|x t IH]; cbn; auto.
      destruct (space x); cbn; lia. }
    specialize (Hlen s). rewrite H in Hlen. cbn in Hlen. lia.
  - intros _. destruct (rstrip_by space s); cbn; now rewrite Hc.
Qed.

Lemma lstrip_by_idempotent space s :
  lstrip_by space (lstrip_by space s) = lstrip_by space s.
Proof.
  induction s as [|c s IH]; cbn; auto.
  destruct (space c) eqn:Hc; auto. cbn. now rewrite Hc.
Qed.

Lemma strip_by_idempotent space s :
  strip_by space (strip_by space s) = strip_by space s.
Proof.
  unfold strip_by.
  rewrite lstrip_rstrip by apply lstrip_by_idempotent.
  apply rstrip_by_idempotent.
Qed.

(** No line is followed by an equal one. *)
Fixpoint distinct_neighbours (l : list string) : Prop :=
  match l with
  | a :: ((b :: _) as rest) => a <> b /\ distinct_neighbours rest
  | _ => True
  end.

(** A kept line: not empty, and without white space at either end. *)
Definition clean_line (l : string) : Prop := l <> "" /\ strip l = l.

Lemma distinct_neighbours_skipn n : forall l,
  distinct_neighbours l -> distinct_neighbours (skipn n l).
Proof.
  induction n as [|n IH]; intros l H; [exact H|].
  destruct l as [|a l]; [exact I|]. cbn [skipn]. apply IH.
  destruct l as [|b l]; [exact I|]. now destruct H.
Qed.

Lemma distinct_neighbours_snoc l x :
  distinct_neighbours l ->
  match rev l with y :: _ => y <> x | [] => True end ->
  distinct_neighbours (l ++ [x]).
Proof.
  induction l as [|a l IH]; intros H Hlast; [exact I|].
  destruct l as [|b l].
  - cbn in *. auto.
  - destruct H as [Hab H]. cbn [app] in *. split; [exact Hab|].
    apply IH; auto.
    cbn [rev] in Hlast. cbn [rev].
    destruct (rev l ++ [b]) as [|y r] eqn:E.
    + destruct (rev l); discriminate.
    + cbn in Hlast. exact Hlast.
Qed.

Lemma Forall_skipn {A} (P : A -> Prop) n : forall l,
  Forall P l -> Forall P (skipn n l).
Proof.
  induction n as [|n IH]; intros l H; [exact H|].
  destruct l as [|a l]; [constructor|]. cbn. apply IH.
  now inversion H.
Qed.

Section LineFacts.

Variable render_event_progress :
  Json.t -> Recorded -> Result (option string) * Recorded.

Definition tidy (st : ExecRenderState) : Prop :=
  distinct_neighbours (elements (recent st))
  /\ Forall clean_line (elements (recent st)).

Lemma append_tidy d x :
  distinct_neighbours (elements d) -> Forall clean_line (elements d) ->
  clean_line x ->
  match last_element d with Some y => y <> x | None => True end ->
  distinct_neighbours (elements (append d x))
  /\ Forall clean_line (elements (append d x)).
Proof.
  intros Hd Hc Hx Hlast. unfold append. cbn [elements]. split.
  - apply distinct_neighbours_skipn. apply distinct_neighbours_snoc; auto.
    unfold last_element in Hlast. now destruct (rev (elements d)).
  - apply Forall_skipn. apply Forall_app. split; auto.
Qed.

Lemma note_event_tidy st event :
  tidy st -> tidy (snd (note_event render_event_progress st event)).
Proof.
  intros [Hd Hc]. unfold note_event, tidy.
  destruct (render_event_progress event (recorded st)) as [[[line0|]|e] rec'];
    cbn [snd recent]; auto.
  destruct (negb (truthy line0)); cbn [snd recent]; auto.
  destruct (truthy (strip line0)) eqn:Ht; cbn [negb snd recent]; auto.
  assert (Hclean : clean_line (strip line0)).
  { split; [|apply strip_by_idempotent].
    intros E. rewrite E in Ht. discriminate. }
  destruct (last_element (recent st)) as [l|] eqn:Hl.
  - destruct (String.eqb_spec l (strip line0)) as [->|Hne];
      cbn [snd recent]; auto.
    apply append_tidy; auto. now rewrite Hl.
  - cbn [snd recent]. apply append_tidy; auto. now rewrite Hl.
Qed.

Lemma feed_tidy events : forall st,
  tidy st -> tidy (feed render_event_progress st events).
Proof.
  induction events as [|e events IH]; intros st H; [exact H|].
  change (feed render_event_progress st (e :: events))
    with (feed render_event_progress
            (snd (note_event render_event_progress st e)) events).
  apply IH. now apply note_event_tidy.
Qed.

(** X22: after any sequence of events the lines a renderer keeps are
    tidy: no line is followed by an equal one (a repeated progress line is
    not appended again), and every line is non-empty and has no white space
    at either end. *)
Theorem recent_lines_tidy (max_lines : nat) (events : list Json.t) :
  let ls :=
    elements (recent (feed render_event_progress
                        (ExecProgressRenderer max_lines) events)) in
  distinct_neighbours ls
  /\ Forall (fun l => l <> "" /\ strip l = l) ls.
Proof.
  apply (feed_tidy events (ExecProgressRenderer max_lines)).
  split; [exact I|constructor].
Qed.

End LineFacts.

(** A rendered line that ends in a no-break space is kept without it, and
    one of white space only is not kept. *)
Example note_event_strips_no_break_space :
  elements
    (recent (feed render_stream_errors (ExecProgressRenderer 4)
               [stream_error ("m1" ^^ no_break_space)]))
  = ["stream error: m1"]
  /\ note_event (fun _ r => (Return (Some no_break_space), r))
       (ExecProgressRenderer 4) JNull
     = (Return None, ExecProgressRenderer 4).
Proof. split; reflexivity. Qed.

(** *** [_shorten] and [_truncate_output] *)

(** [s[:stop]] and [s[start:]] for a Python integer: a negative index
    counts from the end. *)
Definition from_end (len : nat) (i : Z) : nat :=
  if (i <? 0)%Z then Z.to_nat (Z.of_nat len + i) else Z.to_nat i.

Definition str_slice_to (s : string) (stop : Z) : string :=
  substring 0 (from_end (String.length s) stop) s.

Definition str_slice_from (s : string) (start : Z) : string :=
  let n := from_end (String.length s) start in
  substring n (String.length s - n) s.

Definition list_slice_from {A} (l : list A) (start : Z) : list A :=
  skipn (from_end (List.length l) start) l.

Definition _shorten (text : string) (max_len : Z) : string :=
  if (Z.of_nat (String.length text) <=? max_len)%Z then text
  else str_slice_to text (max_len - 3) ^^ "...".

(** The line boundaries of [str.splitlines]. *)
Definition is_line_break (c : ascii) : bool :=
  let n := nat_of_ascii c in
  ((10 <=? n) && (n <=? 13) || (28 <=? n) && (n <=? 30) || (n =? 133))%nat.

(** [s.splitlines()], with the line read so far: a carriage return
    followed by a line feed is one boundary, and no empty line is reported
    after the last boundary. *)
Fixpoint splitlines_from (acc : string) (s : string) : list string :=
  match s with
  | EmptyString => if truthy acc then [acc] else []
  | String c rest =>
      if is_line_break c then
        acc :: splitlines_from EmptyString
                 (match rest with
                  | String d rest' =>
                      if Ascii.eqb c "013"%char && Ascii.eqb d "010"%char
                      then rest' else rest
                  | EmptyString => rest
                  end)
      else splitlines_from (acc ^^ String c EmptyString) rest
  end.

Definition splitlines (s : string) : list string :=
  splitlines_from EmptyString s.

(** [sep.join(ls)] *)
Fixpoint join (sep : string) (ls : list string) : string :=
  match ls with
  | [] => EmptyString
  | [l] => l
  | l :: rest => l ^^ sep ^^ join sep rest
  end.

Definition _truncate_output (text : string) (max_lines max_chars : Z)
    : string :=
  if negb (truthy text) then EmptyString
  else
    let text1 :=
      if (max_chars <? Z.of_nat (String.length text))%Z
      then str_slice_from text (- max_chars) else text in
    let lines := splitlines text1 in
    let lines1 :=
      if (max_lines <? Z.of_nat (List.length lines))%Z
      then "..." :: list_slice_from lines (- max_lines) else lines in
    join newline lines1.

(** The number of line feeds in a text. *)
Fixpoint count_newlines (s : string) : nat :=
  match s with
  | EmptyString => 0
  | String c s' => (if is_newline c then 1 else 0) + count_newlines s'
  end.

Lemma length_append (a b : string) :
  String.length (a ^^ b) = (String.length a + String.length b)%nat.
Proof. induction a as [|c a IH]; cbn; auto. Qed.

Lemma length_substring_0 s : forall n,
  (n <= String.length s)%nat -> String.length (substring 0 n s) = n.
Proof.
  induction s as [|c s IH]; intros [|n] H; cbn in *; auto; try lia.
  rewrite IH; lia.
Qed.

Lemma length_substring_from s : forall n m,
  (n + m <= String.length s)%nat -> String.length (substring n m s) = m.
Proof.
  induction s as [|c s IH]; intros [|n] [|m] H; cbn in *; auto; try lia.
  - rewrite (IH 0%nat m); lia.
  - apply IH. lia.
  - apply IH. lia.
Qed.

(** X23: for a limit of at least 3, [_shorten] returns a text of at most
    [max_len] characters: the text itself when it fits, and otherwise its
    first [max_len - 3] characters followed by three dots, [max_len]
    characters in all. *)
Theorem _shorten_bound (text : string) (max_len : Z) :
  (3 <= max_len)%Z ->
  (Z.of_nat (String.length (_shorten text max_len)) <= max_len)%Z
  /\ ((Z.of_nat (String.length text) <= max_len)%Z ->
      _shorten text max_len = text)
  /\ ((max_len < Z.of_nat (String.length text))%Z ->
      _shorten text max_len
      = substring 0 (Z.to_nat (max_len - 3)) text ^^ "..."
      /\ Z.of_nat (String.length (_shorten text max_len)) = max_len).
Proof.
  intros H3. unfold _shorten.
  destruct (Z.leb_spec (Z.of_nat (String.length text)) max_len) as [Hle|Hgt].
  - split; [exact Hle|]. split; [reflexivity|lia].
  - assert (Hcut : str_slice_to text (max_len - 3)
                   = substring 0 (Z.to_nat (max_len - 3)) text).
    { unfold str_slice_to, from_end.
      destruct (Z.ltb_spec (max_len - 3) 0); [lia|reflexivity]. }
    assert (Hlen : Z.of_nat
                     (String.length
                        (substring 0 (Z.to_nat (max_len - 3)) text ^^ "..."))
                   = max_len).
    { rewrite length_append, length_substring_0 by lia. cbn. lia. }
    rewrite Hcut. split; [lia|]. split; [lia|]. intros _. split; auto.
Qed.

Lemma _shorten_bound_witness :
  (Z.of_nat (String.length (_shorten "git status --short" 10)) <= 10)%Z
  /\ ((Z.of_nat (String.length "git status --short") <= 10)%Z ->
      _shorten "git status --short" 10 = "git status --short")
  /\ ((10 < Z.of_nat (String.length "git status --short"))%Z ->
      _shorten "git status --short" 10
      = substring 0 (Z.to_nat (10 - 3)) "git status --short" ^^ "..."
      /\ Z.of_nat (String.length (_shorten "git status --short" 10)) = 10%Z).
Proof.
  apply (_shorten_bound "git status --short" 10). lia.
Defined.

(** The text of the lines and one separator for each. *)
Fixpoint spread (ls : list string) : nat :=
  match ls with
  | [] => 0
  | l :: rest => String.length l + 1 + spread rest
  end.

Lemma length_join ls :
  String.length (join newline ls) = (spread ls - 1)%nat.
Proof.
  induction ls as [|l rest IH]; [reflexivity|].
  destruct rest as [|l' rest'].
  - cbn. lia.
  - change (join newline (l :: l' :: rest'))
      with (l ^^ newline ^^ join newline (l' :: rest')).
    rewrite !length_append, IH.
    cbn [spread String.length newline]. lia.
Qed.

Lemma spread_skipn n : forall ls, (spread (skipn n ls) <= spread ls)%nat.
Proof.
  induction n as [|n IH]; intros [|l ls]; cbn [skipn spread]; auto.
  specialize (IH ls). lia.
Qed.

Lemma splitlines_from_spread n : forall s acc,
  (String.length s <= n)%nat ->
  (spread (splitlines_from acc s)
   <= String.length acc + String.length s + 1)%nat.
Proof.
  induction n as [|n IH]; intros s acc Hn.
  - destruct s; [|cbn in Hn; lia]. cbn.
    destruct (truthy acc); cbn; lia.
  - destruct s as [|c rest]; cbn [splitlines_from].
    + destruct (truthy acc); cbn; lia.
    + cbn [String.length] in *. destruct (is_line_break c).
      * cbn [spread].
        assert (Hrec : forall t, (String.length t <= String.length rest)%nat ->
                  (spread (splitlines_from EmptyString t)
                   <= String.length rest + 1)%nat).
        { intros t Ht. specialize (IH t EmptyString). cbn in IH. lia. }
        destruct rest as [|d rest'].
        -- specialize (Hrec EmptyString). cbn in *. lia.
        -- destruct (Ascii.eqb c "013"%char && Ascii.eqb d "010"%char).
           ++ specialize (Hrec rest'). cbn [String.length] in *. lia.
           ++ specialize (Hrec (String d rest')).
              cbn [String.length] in *. lia.
      * specialize (IH rest (acc ^^ String c EmptyString)).
        rewrite length_append in IH. cbn [String.length] in IH. lia.
Qed.

Lemma one_line_no_newlines l : one_line l = true -> count_newlines l = 0%nat.
Proof.
  induction l as [|c l IH]; cbn; auto.
  intros H. apply andb_prop in H. destruct H as [Hc Hl].
  apply negb_true_iff in Hc. rewrite Hc. auto.
Qed.

Lemma count_newlines_append a b :
  count_newlines (a ^^ b) = (count_newlines a + count_newlines b)%nat.
Proof. induction a as [|c a IH]; cbn; auto. rewrite IH. lia. Qed.

Lemma count_newlines_join ls :
  forallb one_line ls = true ->
  count_newlines (join newline ls) = (List.length ls - 1)%nat.
Proof.
  induction ls as [|l rest IH]; [reflexivity|].
  cbn [forallb]. intros H. apply andb_prop in H. destruct H as [Hl Hrest].
  destruct rest as [|l' rest'].
  - cbn. now apply one_line_no_newlines.
  - change (join newline (l :: l' :: rest'))
      with (l ^^ newline ^^ join newline (l' :: rest')).
    rewrite !count_newlines_append, IH by exact Hrest.
    rewrite one_line_no_newlines by exact Hl. cbn. lia.
Qed.

Lemma line_break_newline c : is_newline c = true -> is_line_break c = true.
Proof.
  unfold is_newline. intros H. apply Ascii.eqb_eq in H. now subst c.
Qed.

Lemma one_line_snoc acc c :
  one_line acc = true -> is_line_break c = false ->
  one_line (acc ^^ String c EmptyString) = true.
Proof.
  intros Ha Hc. induction acc as [|a acc IH]; cbn in *.
  - destruct (is_newline c) eqn:E; auto.
    apply line_break_newline in E. congruence.
  - apply andb_prop in Ha. destruct Ha as [-> Ha]. cbn. auto.
Qed.

Lemma splitlines_from_one_line n : forall s acc,
  (String.length s <= n)%nat -> one_line acc = true ->
  forallb one_line (splitlines_from acc s) = true.
Proof.
  induction n as [|n IH]; intros s acc Hn Hacc.
  - destruct s; [|cbn in Hn; lia]. cbn.
    destruct (truthy acc); cbn; auto. now rewrite Hacc.
  - destruct s as [|c rest]; cbn [splitlines_from].
    + destruct (truthy acc); cbn; auto. now rewrite Hacc.
    + cbn [String.length] in Hn. destruct (is_line_break c) eqn:Hb.
      * cbn [forallb]. rewrite Hacc. cbn [andb].
        destruct rest as [|d rest']; [reflexivity|].
        destruct (Ascii.eqb c "013"%char && Ascii.eqb d "010"%char);
          apply IH; cbn [String.length] in *; auto; lia.
      * apply IH; [lia|]. now apply one_line_snoc.
Qed.

Lemma forallb_skipn {A} (p : A -> bool) n : forall l,
  forallb p l = true -> forallb p (skipn n l) = true.
Proof.
  induction n as [|n IH]; intros [|a l] H; cbn in *; auto.
  apply andb_prop in H. apply IH. tauto.
Qed.

(** X24: for positive limits, the text [_truncate_output] returns has at
    most [max_lines] line feeds, that is at most [max_lines + 1] lines (the
    marker [...] and the last [max_lines] lines), and at most
    [max_chars + 4] characters (the last [max_chars] characters and the
    marker with its line feed); an empty text gives the empty text. *)
Theorem _truncate_output_bounds (text : string) (max_lines max_chars : Z) :
  (0 < max_lines)%Z -> (0 < max_chars)%Z ->
  let out := _truncate_output text max_lines max_chars in
  (Z.of_nat (count_newlines out) <= max_lines)%Z
  /\ (Z.of_nat (String.length out) <= max_chars + 4)%Z
  /\ (text = "" -> out = "").
Proof.
  intros Hl Hc. cbv zeta. unfold _truncate_output.
  destruct text as [|c0 text0]; [cbn; repeat split; lia|].
  cbn [truthy negb]. set (text := String c0 text0).
  set (text1 := if (max_chars <? Z.of_nat (String.length text))%Z
                then str_slice_from text (- max_chars) else text).
  assert (H1 : (Z.of_nat (String.length text1) <= max_chars)%Z).
  { subst text1.
    destruct (Z.ltb_spec max_chars (Z.of_nat (String.length text)));
      [|lia].
    unfold str_slice_from, from_end.
    destruct (Z.ltb_spec (- max_chars) 0); [|lia].
    rewrite length_substring_from; lia. }
  clearbody text1.
  pose proof (splitlines_from_spread (String.length text1) text1 EmptyString
                (le_n _)) as Hsp.
  pose proof (splitlines_from_one_line (String.length text1) text1
                EmptyString (le_n _) eq_refl) as Hone.
  fold (splitlines text1) in Hsp, Hone. cbn [String.length] in Hsp.
  set (lines := splitlines text1) in *.
  split; [|split; [|discriminate]].
  - destruct (Z.ltb_spec max_lines (Z.of_nat (List.length lines))).
    + rewrite count_newlines_join.
      * unfold list_slice_from, from_end.
        destruct (Z.ltb_spec (- max_lines) 0); [|lia].
        cbn [List.length]. rewrite length_skipn. lia.
      * cbn [forallb one_line]. cbn.
        unfold list_slice_from. now apply forallb_skipn.
    + rewrite count_newlines_join by exact Hone. lia.
  - rewrite length_join.
    destruct (Z.ltb_spec max_lines (Z.of_nat (List.length lines))).
    + cbn [spread String.length]. unfold list_slice_from.
      pose proof (spread_skipn
                    (from_end (List.length lines) (- max_lines)) lines).
      lia.
    + lia.
Qed.

Lemma _truncate_output_bounds_witness :
  (Z.of_nat (count_newlines
               (_truncate_output ("a" ^^ newline ^^ "b" ^^ newline ^^ "c")
                  2 4000)) <= 2)%Z
  /\ (Z.of_nat (String.length
                  (_truncate_output ("a" ^^ newline ^^ "b" ^^ newline ^^ "c")
                     2 4000)) <= 4000 + 4)%Z
  /\ ("a" ^^ newline ^^ "b" ^^ newline ^^ "c" = "" ->
      _truncate_output ("a" ^^ newline ^^ "b" ^^ newline ^^ "c") 2 4000
      = "").
Proof.
  apply (_truncate_output_bounds
           ("a" ^^ newline ^^ "b" ^^ newline ^^ "c") 2 4000); lia.
Defined.

(** Three lines cut to the last two. *)
Example _truncate_output_last_lines :
  _truncate_output ("a" ^^ newline ^^ "b" ^^ newline ^^ "c") 2 4000
  = "..." ^^ newline ^^ "b" ^^ newline ^^ "c".
Proof. reflexivity. Qed.

End ExecRender.

(** ** logging.py: the redaction filter *)

Module Logging.

(** A [str] is a sequence of code points here, since [\d] and [\b] of a
    [str] pattern look at Unicode digits and word characters. *)
Definition char := N.
Definition text (s : string) : list char :=
  map N_of_ascii (list_ascii_of_string s).

(** The set [[A-Za-z0-9_-]]. *)
Definition token_char (c : char) : bool :=
  ((65 <=? c) && (c <=? 90) || (97 <=? c) && (c <=? 122)
   || (48 <=? c) && (c <=? 57) || (c =? 95) || (c =? 45))%N.

(** [\d] and [\w] on the ASCII range. *)
Definition ascii_digit (c : char) : bool := ((48 <=? c) && (c <=? 57))%N.
Definition ascii_word (c : char) : bool :=
  ((65 <=? c) && (c <=? 90) || (97 <=? c) && (c <=? 122)
   || (48 <=? c) && (c <=? 57) || (c =? 95))%N.

(** The patterns of the module [re] that the two expressions use: a
    character, a bracketed set, [\d], [\b], concatenation, and the greedy
    repetition [a{lo,}] ([a+] is [a{1,}]). *)
Inductive regex :=
| Chr (c : char)
| Set_ (p : char -> bool)
| Digit
| Boundary
| Cat (a b : regex)
| Rep (lo : nat) (a : regex).

Definition Plus (a : regex) : regex := Rep 1 a.

Fixpoint Lit (cs : list char) (k : regex) : regex :=
  match cs with
  | [] => k
  | c :: cs' => Cat (Chr c) (Lit cs' k)
  end.

(** [TELEGRAM_TOKEN_RE = re.compile(r"bot\d+:[A-Za-z0-9_-]+")] *)
Definition TELEGRAM_TOKEN_RE : regex :=
  Lit (text "bot") (Cat (Plus Digit) (Cat (Chr 58%N) (Plus (Set_ token_char)))).

(** [TELEGRAM_BARE_TOKEN_RE = re.compile(r"\b\d+:[A-Za-z0-9_-]{10,}\b")] *)
Definition TELEGRAM_BARE_TOKEN_RE : regex :=
  Cat Boundary
    (Cat (Plus Digit)
       (Cat (Chr 58%N) (Cat (Rep 10 (Set_ token_char)) Boundary))).

(** A log record: [msg] as [str(msg)], and [args], [None] when empty. *)
Record LogRecord (Args : Type) := mkRecord {
  msg : list char;
  args : option Args
}.
Arguments mkRecord {Args}.
Arguments msg {Args}.
Arguments args {Args}.

(** What [msg % args] does: the text, a [TypeError] or [ValueError], or
    another exception. *)
Inductive Formatted :=
| Rendered (message : list char)
| FormatError
| OtherException (error : string).

Section Redaction.

(** [\d] and [\w] of a [str] pattern. *)
Variable is_digit : char -> bool.
Variable is_word : char -> bool.

Definition word_before (prev : option char) : bool :=
  match prev with Some c => is_word c | None => false end.

Definition word_at (s : list char) : bool :=
  match s with c :: _ => is_word c | [] => false end.

(** The greedy repetition [a{lo,}], [step] being the matcher of [a]: first
    one more [a] and the repetition again, then, once [lo] are done, a stop
    here.  [fuel] bounds the number of repetitions. *)
Fixpoint rep (step : option char -> list char -> list (option char * list char))
    (fuel lo : nat) (prev : option char) (s : list char)
    : list (option char * list char) :=
  let stop := match lo with O => [(prev, s)] | S _ => [] end in
  match fuel with
  | O => stop
  | S fuel' =>
      flat_map (fun ps => rep step fuel' (pred lo) (fst ps) (snd ps))
        (step prev s) ++ stop
  end.

(** One character that satisfies [p]. *)
Definition single (p : char -> bool) (s : list char)
    : list (option char * list char) :=
  match s with
  | x :: s' => if p x then [(Some x, s')] else []
  | [] => []
  end.

(** A backtracking matcher: the ways [r] matches at the head of [s], in
    the order the matcher tries them, each as the last character consumed
    so far and the input left.  [prev] is the character before [s]. *)
Fixpoint matches (r : regex) (prev : option char) (s : list char)
    : list (option char * list char) :=
  match r with
  | Chr c => single (N.eqb c) s
  | Set_ p => single p s
  | Digit => single is_digit s
  | Boundary =>
      if xorb (word_before prev) (word_at s) then [(prev, s)] else []
  | Cat a b =>
      flat_map (fun ps => matches b (fst ps) (snd ps)) (matches a prev s)
  | Rep lo a => rep (matches a) (S (List.length s)) lo prev s
  end.

(** The first match at the head of [s], when it consumes something. *)
Definition match_here (r : regex) (prev : option char) (s : list char)
    : option (char * list char) :=
  match matches r prev s with
  | (Some last, rest) :: _ =>
      if (List.length rest <? List.length s)%nat then Some (last, rest)
      else None
  | _ => None
  end.

(** [r.sub(repl, s)] for a pattern that matches no empty string: scan from
    the left, replace each match, go on after it. *)
Fixpoint sub_from (fuel : nat) (r : regex) (repl : list char)
    (prev : option char) (s : list char) : list char :=
  match fuel with
  | O => s
  | S fuel' =>
      match s with
      | [] => []
      | c :: s' =>
          match match_here r prev s with
          | Some (last, rest) => repl ++ sub_from fuel' r repl (Some last) rest
          | None => c :: sub_from fuel' r repl (Some c) s'
          end
      end
  end.

Definition sub (r : regex) (repl : list char) (s : list char) : list char :=
  sub_from (List.length s) r repl None s.

(** [r.search(s)] finds nothing: no match starts at any position. *)
Fixpoint no_match_from (r : regex) (prev : option char) (s : list char)
    : bool :=
  match s with
  | [] => true
  | c :: s' =>
      match match_here r prev s with
      | Some _ => false
      | None => no_match_from r (Some c) s'
      end
  end.


(** The two substitutions of [RedactTokenFilter.filter]. *)
Definition redact (message : list char) : list char :=
  sub TELEGRAM_BARE_TOKEN_RE (text "[REDACTED_TOKEN]")
    (sub TELEGRAM_TOKEN_RE (text "bot[REDACTED]") message).

Variable Args : Type.
(** [msg % args] *)
Variable percent : list char -> Args -> Formatted.

(** [record.getMessage()] *)
Definition getMessage (record : LogRecord Args) : Formatted :=
  match args record with
  | Some a => percent (msg record) a
  | None => Rendered (msg record)
  end.

Fixpoint text_eqb (a b : list char) : bool :=
  match a, b with
  | [], [] => true
  | x :: a', y :: b' => (x =? y)%N && text_eqb a' b'
  | _, _ => false
  end.

(** [RedactTokenFilter.filter]: the value returned and the record as the
    call leaves it, or the exception that [getMessage] lets through. *)
Definition filter (record : LogRecord Args)
    : Runner.Result (bool * LogRecord Args) :=
  match getMessage record with
  | FormatError => Runner.Return (true, record)
  | OtherException e => Runner.Raise e
  | Rendered message =>
      let redacted := redact message in
      if negb (text_eqb redacted message)
      then Runner.Return (true, mkRecord redacted None)
      else Runner.Return (true, record)
  end.

(** *** Facts about the matcher *)

(** The character before the position reached after [pre]. *)
Fixpoint after (p : option char) (pre : list char) : option char :=
  match pre with
  | [] => p
  | x :: pre' => after (Some x) pre'
  end.

Lemma after_app p a b : after p (a ++ b) = after (after p a) b.
Proof. revert p. induction a as [|x a IH]; intros p; cbn; auto. Qed.

Lemma after_nonempty p x pre : exists last, after p (x :: pre) = Some last.
Proof.
  revert p x. induction pre as [|y pre IH]; intros p x; cbn; eauto.
  apply (IH (Some x) y).
Qed.

(** A regular expression that cannot match without consuming. *)
Fixpoint consumes (r : regex) : bool :=
  match r with
  | Chr _ | Set_ _ | Digit => true
  | Boundary => false
  | Cat a b => consumes a || consumes b
  | Rep lo a => negb (lo =? 0)%nat && consumes a
  end.

Definition nonempty {A} (l : list A) : bool :=
  match l with [] => false | _ :: _ => true end.

Definition splits
    (step : option char -> list char -> list (option char * list char))
    : Prop :=
  forall p s q t, In (q, t) (step p s) ->
    exists pre, s = pre ++ t /\ q = after p pre.

Lemma single_splits pr : splits (fun _ s => single pr s).
Proof.
  intros p s q t. unfold single. destruct s as [|x s']; [intros []|].
  destruct (pr x); [|intros []]. intros [H|[]]. injection H as <- <-.
  exists [x]. auto.
Qed.

Lemma rep_splits step : splits step ->
  forall fuel lo, splits (rep step fuel lo).
Proof.
  intros Hstep. induction fuel as [|fuel IH]; intros lo p s q t; cbn.
  - destruct lo; [|intros []]. intros [H|[]]. injection H as <- <-.
    exists []. auto.
  - rewrite in_app_iff, in_flat_map. intros [[[q1 t1] [H1 H2]]|H].
    + cbn [fst snd] in H2.
      apply Hstep in H1. destruct H1 as (pre1 & -> & ->).
      apply IH in H2. destruct H2 as (pre2 & -> & ->).
      exists (pre1 ++ pre2). now rewrite app_assoc, after_app.
    + destruct lo; [|destruct H]. destruct H as [H|[]].
      injection H as <- <-. exists []. auto.
Qed.

Lemma matches_splits r : splits (matches r).
Proof.
  induction r as [c|pr| | |a IHa b IHb|lo a IHa]; cbn [matches].
  - apply (single_splits (N.eqb c)).
  - apply single_splits.
  - apply single_splits.
  - intros p s q t. destruct (xorb _ _); [|intros []].
    intros [H|[]]. injection H as <- <-. exists []. auto.
  - intros p s q t. rewrite in_flat_map. intros [[q1 t1] [H1 H2]].
    cbn [fst snd] in H2.
    apply IHa in H1. destruct H1 as (pre1 & -> & ->).
    apply IHb in H2. destruct H2 as (pre2 & -> & ->).
    exists (pre1 ++ pre2). now rewrite app_assoc, after_app.
  - intros p s. apply rep_splits. exact IHa.
Qed.

Lemma matches_shorter r p s q t :
  In (q, t) (matches r p s) -> (List.length t <= List.length s)%nat.
Proof.
  intros H. apply matches_splits in H. destruct H as (pre & -> & _).
  rewrite length_app. lia.
Qed.

Lemma rep_shorter step : splits step ->
  forall fuel lo p s q t, In (q, t) (rep step fuel lo p s) ->
  (List.length t <= List.length s)%nat.
Proof.
  intros Hs fuel lo p s q t H. apply (rep_splits step Hs) in H.
  destruct H as (pre & -> & _). rewrite length_app. lia.
Qed.

Lemma single_consumes pr s q t :
  In (q, t) (single pr s) -> (List.length t < List.length s)%nat.
Proof.
  unfold single. destruct s as [|x s']; [intros []|].
  destruct (pr x); [|intros []]. intros [H|[]]. injection H as <- <-.
  cbn. lia.
Qed.

Lemma matches_consumes r : consumes r = true ->
  forall p s q t, In (q, t) (matches r p s) ->
  (List.length t < List.length s)%nat.
Proof.
  induction r as [c|pr| | |a IHa b IHb|lo a IHa]; cbn [consumes matches];
    intros Hc p s q t.
  - apply single_consumes.
  - apply single_consumes.
  - apply single_consumes.
  - discriminate.
  - rewrite in_flat_map. intros [[q1 t1] [H1 H2]]. cbn [fst snd] in H2.
    apply orb_prop in Hc. destruct Hc as [Hc|Hc].
    + apply (IHa Hc) in H1. apply matches_shorter in H2. lia.
    + apply matches_shorter in H1. apply (IHb Hc) in H2. lia.
  - apply andb_prop in Hc. destruct Hc as [Hlo Hc].
    destruct lo as [|lo]; [discriminate|].
    cbn [rep]. rewrite app_nil_r, in_flat_map.
    intros [[q1 t1] [H1 H2]]. cbn [fst snd] in H2.
    apply (IHa Hc) in H1.
    apply (rep_shorter _ (matches_splits a)) in H2. lia.
Qed.

(** For a consuming pattern [match_here] is the first way of [matches]. *)
Lemma match_here_none r p s : consumes r = true ->
  match_here r p s = None <-> matches r p s = [].
Proof.
  intros Hc. unfold match_here.
  destruct (matches r p s) as [|[q t] l] eqn:E.
  - tauto.
  - split; [|discriminate]. intros H. exfalso.
    assert (Hin : In (q, t) (matches r p s)) by (rewrite E; now left).
    pose proof (matches_consumes r Hc p s q t Hin) as Hlt.
    apply matches_splits in Hin. destruct Hin as (pre & -> & ->).
    destruct pre as [|x pre]; [cbn in Hlt; lia|].
    destruct (after_nonempty p x pre) as [last Hl]. rewrite Hl in H.
    apply Nat.ltb_lt in Hlt. rewrite Hlt in H. discriminate.
Qed.

Lemma match_here_some r p s last rest :
  match_here r p s = Some (last, rest) ->
  In (Some last, rest) (matches r p s)
  /\ (List.length rest < List.length s)%nat.
Proof.
  unfold match_here.
  destruct (matches r p s) as [|[[q|] t] l]; try discriminate.
  destruct (Nat.ltb_spec (List.length t) (List.length s)) as [Hlt|];
    [|discriminate].
  intros Hm. injection Hm as <- <-. split; [now left|assumption].
Qed.

(** *** What an expression matches

    [denotes r p m t]: the expression [r] matches the text [m] when [p] is
    the character before [m] and [t] is the text after it (the two matter
    to [\b] only). *)
Inductive denotes : regex -> option char -> list char -> list char -> Prop :=
| denotes_chr c p t : denotes (Chr c) p [c] t
| denotes_set pr x p t : pr x = true -> denotes (Set_ pr) p [x] t
| denotes_digit x p t : is_digit x = true -> denotes Digit p [x] t
| denotes_boundary p t :
    xorb (word_before p) (word_at t) = true -> denotes Boundary p [] t
| denotes_cat a b p m1 m2 t :
    denotes a p m1 (m2 ++ t) -> denotes b (after p m1) m2 t ->
    denotes (Cat a b) p (m1 ++ m2) t
| denotes_rep_stop a p t : denotes (Rep 0 a) p [] t
| denotes_rep_more lo a p m1 m2 t :
    denotes a p m1 (m2 ++ t) -> denotes (Rep (pred lo) a) (after p m1) m2 t ->
    denotes (Rep lo a) p (m1 ++ m2) t.









(** *** The two expressions as automata *)

Hypothesis digit_ascii :
  forall c, (c < 128)%N -> is_digit c = ascii_digit c.
Hypothesis word_ascii :
  forall c, (c < 128)%N -> is_word c = ascii_word c.
Hypothesis digit_word :
  forall c, is_digit c = true -> is_word c = true.

(** [\b] between the character before and the input left. *)
Definition boundary (p : option char) (s : list char) : bool :=
  xorb (word_before p) (word_at s).

(** After the first digit: more digits, the colon, and what follows. *)
Fixpoint digits_tail (follow : option char -> list char -> bool)
    (s : list char) : bool :=
  match s with
  | c :: s' =>
      if is_digit c then digits_tail follow s'
      else (58 =? c)%N && follow (Some c) s'
  | [] => false
  end.

Definition token_char_next (_ : option char) (s : list char) : bool :=
  match s with x :: _ => token_char x | [] => false end.

(** One or more digits, the colon, and what follows. *)
Definition digits_then (follow : option char -> list char -> bool)
    (s : list char) : bool :=
  match s with
  | d :: s' => is_digit d && digits_tail follow s'
  | [] => false
  end.

(** The character [c], then [k]. *)
Definition expect (c : char) (k : list char -> bool) (s : list char) : bool :=
  match s with
  | x :: s' => (c =? x)%N && k s'
  | [] => false
  end.

(** [bot\d+:[A-Za-z0-9_-]+] matches at the head of [s]. *)
Definition tok_at : list char -> bool :=
  expect 98%N (expect 111%N (expect 116%N (digits_then token_char_next))).

(** [[A-Za-z0-9_-]{lo,}\b] matches at the head of [s]: some end of the run
    of token characters, at least [lo] of them in, is a word boundary. *)
Fixpoint ends (lo : nat) (p : option char) (s : list char) : bool :=
  match s with
  | c :: s' =>
      if token_char c
      then ends (pred lo) (Some c) s' || ((lo =? 0)%nat && boundary p s)
      else (lo =? 0)%nat && boundary p s
  | [] => (lo =? 0)%nat && boundary p s
  end.

(** [\b\d+:[A-Za-z0-9_-]{10,}\b] matches at the head of [s]. *)
Definition bare_at (p : option char) (s : list char) : bool :=
  boundary p s && digits_then (ends 10) s.

Definition stop (lo : nat) (p : option char) (s : list char)
    : list (option char * list char) :=
  match lo with O => [(p, s)] | S _ => [] end.

(** The repetition of a single-character pattern, by recursion on the
    input. *)
Fixpoint rep_list (pr : char -> bool) (lo : nat) (p : option char)
    (s : list char) : list (option char * list char) :=
  match s with
  | x :: s' =>
      if pr x then rep_list pr (pred lo) (Some x) s' ++ stop lo p s
      else stop lo p s
  | [] => stop lo p s
  end.

Lemma rep_single step pr :
  (forall p s, step p s = single pr s) ->
  forall s fuel lo p, (List.length s < fuel)%nat ->
  rep step fuel lo p s = rep_list pr lo p s.
Proof.
  intros Hstep. induction s as [|x s' IH]; intros fuel lo p Hf;
    (destruct fuel as [|fuel]; [cbn in Hf; lia|]);
    cbn [rep rep_list]; rewrite Hstep; cbn [single flat_map].
  - reflexivity.
  - destruct (pr x); cbn [flat_map fst snd]; [|reflexivity].
    rewrite app_nil_r. rewrite IH by (cbn in Hf; lia). reflexivity.
Qed.

Lemma nonempty_app {A} (a b : list A) :
  nonempty (a ++ b) = nonempty a || nonempty b.
Proof. destruct a; reflexivity. Qed.

Lemma nonempty_false {A} (l : list A) : nonempty l = false <-> l = [].
Proof. destruct l; split; auto; discriminate. Qed.

Lemma cat_single pr a K p s :
  (forall p s, matches a p s = single pr s) ->
  matches (Cat a K) p s
  = match s with
    | x :: s' => if pr x then matches K (Some x) s' else []
    | [] => []
    end.
Proof.
  intros Ha. cbn [matches]. rewrite Ha. unfold single.
  destruct s as [|x s']; [reflexivity|].
  destruct (pr x); cbn [flat_map fst snd]; [apply app_nil_r|reflexivity].
Qed.

Lemma is_digit_colon : is_digit 58%N = false.
Proof. now rewrite digit_ascii. Qed.

Lemma digit_not_colon c : is_digit c = true -> (58 =? c)%N = false.
Proof.
  intros H. destruct (N.eqb_spec 58 c) as [<-|]; auto.
  rewrite is_digit_colon in H. discriminate.
Qed.

(** The ways of [\d{lo,}:K] with [lo] at most one, as an automaton. *)
Lemma digits_colon_tail K : forall s p,
  nonempty
    (flat_map (fun ps => matches (Cat (Chr 58%N) K) (fst ps) (snd ps))
       (rep_list is_digit 0 p s))
  = digits_tail (fun q t => nonempty (matches K q t)) s.
Proof.
  assert (Hcolon : forall q t,
    nonempty (matches (Cat (Chr 58%N) K) q t)
    = match t with
      | x :: t' => (58 =? x)%N && nonempty (matches K (Some x) t')
      | [] => false
      end).
  { intros q t. rewrite (cat_single (N.eqb 58%N)) by reflexivity.
    destruct t as [|x t']; [reflexivity|]. now destruct (58 =? x)%N. }
  induction s as [|x s' IH]; intros p; cbn [rep_list digits_tail stop].
  - cbn [flat_map fst snd]. now rewrite app_nil_r, Hcolon.
  - destruct (is_digit x) eqn:Hd.
    + rewrite flat_map_app, nonempty_app, IH. cbn [flat_map fst snd].
      rewrite app_nil_r, Hcolon, (digit_not_colon x Hd). cbn.
      apply orb_false_r.
    + cbn [flat_map fst snd]. now rewrite app_nil_r, Hcolon.
Qed.

Lemma digits_colon K p s :
  nonempty (matches (Cat (Plus Digit) (Cat (Chr 58%N) K)) p s)
  = digits_then (fun q t => nonempty (matches K q t)) s.
Proof.
  unfold digits_then.
  cbn [matches Plus].
  rewrite (rep_single _ is_digit) by (auto; lia).
  destruct s as [|d s']; [reflexivity|].
  cbn [rep_list stop pred]. rewrite !app_nil_r.
  destruct (is_digit d); [|reflexivity].
  apply digits_colon_tail.
Qed.

Lemma digits_tail_ext f g s :
  (forall q t, f q t = g q t) -> digits_tail f s = digits_tail g s.
Proof.
  intros H. induction s as [|c s' IH]; cbn; auto.
  destruct (is_digit c); auto. now rewrite H.
Qed.

Lemma rep_list_zero_nonempty pr p s : nonempty (rep_list pr 0 p s) = true.
Proof.
  destruct s as [|x s']; cbn; auto.
  destruct (pr x); [|reflexivity].
  rewrite nonempty_app. apply orb_true_r.
Qed.

Lemma token_run_nonempty p s :
  nonempty (matches (Plus (Set_ token_char)) p s) = token_char_next p s.
Proof.
  cbn [matches Plus]. rewrite (rep_single _ token_char) by (auto; lia).
  destruct s as [|x s']; [reflexivity|].
  cbn [rep_list stop pred token_char_next].
  rewrite app_nil_r. destruct (token_char x); [|reflexivity].
  apply rep_list_zero_nonempty.
Qed.

(** [TELEGRAM_TOKEN_RE] has a way to match exactly when [tok_at] says. *)
Lemma expect_matches c K k p s :
  (forall q t, nonempty (matches K q t) = k t) ->
  nonempty (matches (Cat (Chr c) K) p s) = expect c k s.
Proof.
  intros HK. rewrite (cat_single (N.eqb c)) by reflexivity.
  destruct s as [|x s']; [reflexivity|]. cbn [expect].
  destruct (c =? x)%N; [apply HK|reflexivity].
Qed.

Lemma digits_then_ext f g s :
  (forall q t, f q t = g q t) -> digits_then f s = digits_then g s.
Proof.
  intros H. destruct s as [|d s']; [reflexivity|]. cbn [digits_then].
  f_equal. now apply digits_tail_ext.
Qed.

Lemma token_re_matches p s :
  nonempty (matches TELEGRAM_TOKEN_RE p s) = tok_at s.
Proof.
  unfold TELEGRAM_TOKEN_RE, tok_at.
  change (text "bot") with [98; 111; 116]%N. cbn [Lit].
  revert p s.
  assert (H3 : forall q t,
    nonempty (matches (Cat (Plus Digit)
                         (Cat (Chr 58%N) (Plus (Set_ token_char)))) q t)
    = digits_then token_char_next t).
  { intros q t. rewrite digits_colon. apply digits_then_ext.
    intros q' u. apply token_run_nonempty. }
  intros p s. apply expect_matches. intros q t.
  apply expect_matches. intros q' t'.
  apply expect_matches. exact H3.
Qed.

Lemma ends_matches lo : forall s p,
  nonempty
    (flat_map (fun ps => matches Boundary (fst ps) (snd ps))
       (rep_list token_char lo p s))
  = ends lo p s.
Proof.
  assert (Hb : forall q t,
    nonempty (matches Boundary q t ++ []) = boundary q t).
  { intros q t. cbn [matches]. unfold boundary.
    now destruct (xorb (word_before q) (word_at t)). }
  intros s. revert lo.
  induction s as [|x s' IH]; intros lo p; cbn [rep_list ends].
  - destruct lo; cbn [stop flat_map fst snd Nat.eqb andb]; auto.
  - destruct (token_char x).
    + rewrite flat_map_app, nonempty_app, IH. f_equal.
      destruct lo; cbn [stop flat_map fst snd Nat.eqb andb]; auto.
    + destruct lo; cbn [stop flat_map fst snd Nat.eqb andb]; auto.
Qed.

Lemma bare_tail_matches p s :
  nonempty (matches (Cat (Rep 10 (Set_ token_char)) Boundary) p s)
  = ends 10 p s.
Proof.
  cbn [matches]. rewrite (rep_single _ token_char) by (auto; lia).
  apply ends_matches.
Qed.

Lemma cat_boundary K p s :
  matches (Cat Boundary K) p s
  = if boundary p s then matches K p s else [].
Proof.
  cbn [matches]. fold (boundary p s).
  destruct (boundary p s); cbn [flat_map fst snd]; [apply app_nil_r|].
  reflexivity.
Qed.

(** [TELEGRAM_BARE_TOKEN_RE] has a way to match exactly when [bare_at]
    says. *)
Lemma bare_re_matches p s :
  nonempty (matches TELEGRAM_BARE_TOKEN_RE p s) = bare_at p s.
Proof.
  unfold TELEGRAM_BARE_TOKEN_RE, bare_at. rewrite cat_boundary.
  destruct (boundary p s); [|reflexivity]. cbn [andb].
  rewrite digits_colon. apply digits_then_ext.
  intros q u. apply bare_tail_matches.
Qed.

(** *** Matches at a position *)

Definition is_some {A} (o : option A) : bool :=
  match o with Some _ => true | None => false end.

Lemma token_here p s :
  is_some (match_here TELEGRAM_TOKEN_RE p s) = tok_at s.
Proof.
  rewrite <- (token_re_matches p s).
  destruct (match_here TELEGRAM_TOKEN_RE p s) as [[last rest]|] eqn:E.
  - apply match_here_some in E. destruct E as [Hin _].
    destruct (matches TELEGRAM_TOKEN_RE p s); [destruct Hin|reflexivity].
  - apply match_here_none in E; [|reflexivity]. now rewrite E.
Qed.

Lemma bare_here p s :
  is_some (match_here TELEGRAM_BARE_TOKEN_RE p s) = bare_at p s.
Proof.
  rewrite <- (bare_re_matches p s).
  destruct (match_here TELEGRAM_BARE_TOKEN_RE p s) as [[last rest]|] eqn:E.
  - apply match_here_some in E. destruct E as [Hin _].
    destruct (matches TELEGRAM_BARE_TOKEN_RE p s);
      [destruct Hin|reflexivity].
  - apply match_here_none in E; [|reflexivity]. now rewrite E.
Qed.




(** *** The texts the two expressions match *)

Lemma denotes_rep_class a pr :
  (forall p m t, denotes a p m t -> exists x, m = [x] /\ pr x = true) ->
  forall r p m t, denotes r p m t -> forall lo, r = Rep lo a ->
  forallb pr m = true /\ (lo <= List.length m)%nat.
Proof.
  intros Ha r p m t D.
  induction D as [| | | | |a' p t|lo' a' p m1 m2 t D1 _ D2 IH2];
    intros lo E; try discriminate.
  - injection E as <- _. split; [reflexivity|cbn; lia].
  - injection E as <- ->. apply Ha in D1. destruct D1 as (x & -> & Hx).
    destruct (IH2 (pred lo') eq_refl) as [Hall Hlen].
    cbn [app forallb List.length]. rewrite Hx, Hall. split; [reflexivity|lia].
Qed.

Lemma denotes_digit_class p m t :
  denotes Digit p m t -> exists x, m = [x] /\ is_digit x = true.
Proof. intros D. inversion D; subst. eauto. Qed.

Lemma denotes_set_class pr p m t :
  denotes (Set_ pr) p m t -> exists x, m = [x] /\ pr x = true.
Proof. intros D. inversion D; subst. eauto. Qed.

Lemma denotes_chr_inv c p m t : denotes (Chr c) p m t -> m = [c].
Proof. intros D. now inversion D. Qed.

Lemma denotes_cat_inv a b p m t :
  denotes (Cat a b) p m t ->
  exists m1 m2, m = m1 ++ m2 /\ denotes a p m1 (m2 ++ t)
                /\ denotes b (after p m1) m2 t.
Proof. intros D. inversion D; subst. eauto. Qed.

(** Digits, a colon and [lo] or more characters of [[A-Za-z0-9_-]]. *)
Definition digits_colon_run (lo : nat) (m : list char) : Prop :=
  exists ds ts,
    m = ds ++ 58%N :: ts
    /\ ds <> [] /\ forallb is_digit ds = true
    /\ (lo <= List.length ts)%nat /\ forallb token_char ts = true.

(** What [TELEGRAM_TOKEN_RE] matches is [bot], digits, a colon and one or
    more token characters. *)
Lemma token_match_form p m t :
  denotes TELEGRAM_TOKEN_RE p m t ->
  exists m', m = text "bot" ++ m' /\ digits_colon_run 1 m'.
Proof.
  unfold TELEGRAM_TOKEN_RE. change (text "bot") with [98; 111; 116]%N.
  cbn [Lit]. intros D.
  apply denotes_cat_inv in D. destruct D as (b & m1 & -> & Db & D).
  apply denotes_chr_inv in Db. subst b.
  apply denotes_cat_inv in D. destruct D as (o & m2 & -> & Do & D).
  apply denotes_chr_inv in Do. subst o.
  apply denotes_cat_inv in D. destruct D as (t' & m3 & -> & Dt & D).
  apply denotes_chr_inv in Dt. subst t'.
  apply denotes_cat_inv in D. destruct D as (ds & m4 & -> & Dd & D).
  apply denotes_cat_inv in D. destruct D as (c & ts & -> & Dc & D).
  apply denotes_chr_inv in Dc. subst c.
  destruct (denotes_rep_class Digit is_digit denotes_digit_class _ _ _ _ Dd
              1%nat eq_refl) as [Hd Hld].
  destruct (denotes_rep_class (Set_ token_char) token_char
              (denotes_set_class token_char) _ _ _ _ D 1%nat eq_refl)
    as [Ht Hlt].
  exists (ds ++ 58%N :: ts). split; [reflexivity|].
  exists ds, ts. repeat split; auto.
  intros ->. cbn in Hld. lia.
Qed.

(** What [TELEGRAM_BARE_TOKEN_RE] matches is digits, a colon and ten or
    more token characters, between two word boundaries. *)
Lemma bare_match_form p m t :
  denotes TELEGRAM_BARE_TOKEN_RE p m t ->
  digits_colon_run 10 m
  /\ boundary p (m ++ t) = true /\ boundary (after p m) t = true.
Proof.
  unfold TELEGRAM_BARE_TOKEN_RE. intros D.
  apply denotes_cat_inv in D. destruct D as (b & m1 & -> & Db & D).
  inversion Db as [| | |p' t' Hb| | |]; subst. cbn [app after] in *.
  apply denotes_cat_inv in D. destruct D as (ds & m2 & -> & Dd & D).
  apply denotes_cat_inv in D. destruct D as (c & m3 & -> & Dc & D).
  apply denotes_chr_inv in Dc. subst c.
  apply denotes_cat_inv in D. destruct D as (ts & e & -> & Dt & D).
  inversion D as [| | |p' t' He| | |]; subst.
  destruct (denotes_rep_class Digit is_digit denotes_digit_class _ _ _ _ Dd
              1%nat eq_refl) as [Hd Hld].
  destruct (denotes_rep_class (Set_ token_char) token_char
              (denotes_set_class token_char) _ _ _ _ Dt 10%nat eq_refl)
    as [Ht Hlt].
  rewrite app_nil_r in *. split; [|split].
  - exists ds, ts. repeat split; auto. intros ->. cbn in Hld. lia.
  - exact Hb.
  - unfold boundary. rewrite !after_app. exact He.
Qed.

(** *** The substitution *)

Lemma sub_from_cons fuel r repl p c s' :
  sub_from (S fuel) r repl p (c :: s')
  = match match_here r p (c :: s') with
    | Some (last, rest) => repl ++ sub_from fuel r repl (Some last) rest
    | None => c :: sub_from fuel r repl (Some c) s'
    end.
Proof. reflexivity. Qed.

(** Where nothing matches the substitution changes nothing. *)
Lemma sub_from_no_match r repl : forall fuel p s,
  no_match_from r p s = true -> sub_from fuel r repl p s = s.
Proof.
  induction fuel as [|fuel IH]; intros p s H; [reflexivity|].
  destruct s as [|c s']; [reflexivity|].
  rewrite sub_from_cons. cbn [no_match_from] in H.
  destruct (match_here r p (c :: s')); [discriminate|].
  now rewrite IH.
Qed.


(** No match of the token expression starts anywhere in [s]. *)
Fixpoint tok_free (s : list char) : bool :=
  match s with
  | [] => true
  | _ :: s' => negb (tok_at s) && tok_free s'
  end.

(** No match of the bare expression starts anywhere in [s], the character
    before [s] being [p]. *)
Fixpoint bare_free (p : option char) (s : list char) : bool :=
  match s with
  | [] => true
  | c :: s' => negb (bare_at p s) && bare_free (Some c) s'
  end.

Lemma no_match_token p s :
  no_match_from TELEGRAM_TOKEN_RE p s = tok_free s.
Proof.
  revert p. induction s as [|c s' IH]; intros p; [reflexivity|].
  cbn [no_match_from tok_free]. rewrite <- (token_here p (c :: s')).
  destruct (match_here TELEGRAM_TOKEN_RE p (c :: s')); cbn; auto.
Qed.

Lemma no_match_bare p s :
  no_match_from TELEGRAM_BARE_TOKEN_RE p s = bare_free p s.
Proof.
  revert p. induction s as [|c s' IH]; intros p; [reflexivity|].
  cbn [no_match_from bare_free]. rewrite <- (bare_here p (c :: s')).
  destruct (match_here TELEGRAM_BARE_TOKEN_RE p (c :: s')); cbn; auto.
Qed.


(** *** Characters of the replacements *)








(** *** A bracket ends every attempt to match *)









(** *** Nothing is left to redact *)












Lemma text_eqb_eq a : forall b, text_eqb a b = true <-> a = b.
Proof.
  induction a as [|x a IH]; intros [|y b]; cbn; split; try easy.
  - intros H. apply andb_prop in H. destruct H as [Hx Ha].
    apply N.eqb_eq in Hx. apply IH in Ha. congruence.
  - intros H. injection H as -> ->. rewrite N.eqb_refl.
    now apply IH.
Qed.





(** *** Messages without a colon *)

Lemma digits_tail_no_colon follow s :
  ~ In 58%N s -> digits_tail follow s = false.
Proof.
  induction s as [|c s IH]; cbn [digits_tail]; intros H; [reflexivity|].
  destruct (is_digit c).
  - apply IH. intros Hin. apply H. now right.
  - destruct (N.eqb_spec 58 c) as [E|_]; [|reflexivity].
    exfalso. apply H. now left.
Qed.

Lemma digits_then_no_colon follow s :
  ~ In 58%N s -> digits_then follow s = false.
Proof.
  destruct s as [|d s]; cbn [digits_then]; intros H; [reflexivity|].
  rewrite digits_tail_no_colon; [apply andb_false_r|].
  intros Hin. apply H. now right.
Qed.

Lemma expect_no_colon c k s :
  (forall t, ~ In 58%N t -> k t = false) ->
  ~ In 58%N s -> expect c k s = false.
Proof.
  intros Hk. destruct s as [|x s]; cbn [expect]; intros H; [reflexivity|].
  rewrite Hk; [apply andb_false_r|].
  intros Hin. apply H. now right.
Qed.

Lemma tok_free_no_colon s : ~ In 58%N s -> tok_free s = true.
Proof.
  induction s as [|c s IH]; intros H; [reflexivity|].
  cbn [tok_free]. rewrite IH by (intros Hin; apply H; now right).
  unfold tok_at.
  rewrite expect_no_colon; [reflexivity| |exact H].
  intros t Ht. apply expect_no_colon; [|exact Ht].
  intros t' Ht'. apply expect_no_colon; [|exact Ht'].
  intros t''. apply digits_then_no_colon.
Qed.

Lemma bare_free_no_colon s : forall p,
  ~ In 58%N s -> bare_free p s = true.
Proof.
  induction s as [|c s IH]; intros p H; [reflexivity|].
  cbn [bare_free]. rewrite IH by (intros Hin; apply H; now right).
  unfold bare_at. rewrite digits_then_no_colon by exact H.
  now rewrite andb_false_r.
Qed.

(** X29: a record whose message has no colon in it passes the filter as
    it is, with its [msg] and its [args]: both expressions need a colon to
    match, so nothing is replaced. *)
Theorem filter_keeps_colon_free (record : LogRecord Args)
    (message : list char) :
  getMessage record = Rendered message ->
  ~ In 58%N message ->
  redact message = message
  /\ filter record = Runner.Return (true, record).
Proof.
  intros Hm Hc.
  assert (Hr : redact message = message).
  { unfold redact, sub.
    rewrite (sub_from_no_match TELEGRAM_TOKEN_RE), sub_from_no_match;
      auto.
    - rewrite no_match_bare. now apply bare_free_no_colon.
    - rewrite no_match_token. now apply tok_free_no_colon. }
  split; [exact Hr|].
  unfold filter. rewrite Hm, Hr.
  assert (He : text_eqb message message = true) by now apply text_eqb_eq.
  now rewrite He.
Qed.

End Redaction.

(** *** Messages in ASCII

    On ASCII text [\d] and [\w] are [ascii_digit] and [ascii_word]. *)


(** A record without arguments, which [getMessage] renders as its [msg]. *)
Definition plain_record (message : string) : LogRecord unit :=
  mkRecord (text message) None.

Definition no_percent (m : list char) (a : unit) : Formatted := FormatError.





Definition show (s : list char) : string :=
  string_of_list_ascii (map ascii_of_N s).

Example redact_bot_token :
  show (redact ascii_digit ascii_word
          (text "GET /bot123456:ABC-def_1234567 ok"))
  = "GET /bot[REDACTED] ok".
Proof. reflexivity. Qed.

Example redact_bare_token :
  show (redact ascii_digit ascii_word
          (text "token=123456:ABC-DEF1234ghIkl-zyx57W2v1u123ew11."))
  = "token=[REDACTED_TOKEN].".
Proof. reflexivity. Qed.

Example redact_short_tail_untouched :
  show (redact ascii_digit ascii_word (text "at 12:30 and 7:abcdefghi"))
  = "at 12:30 and 7:abcdefghi".
Proof. reflexivity. Qed.

Example redact_backtracks_to_boundary :
  show (redact ascii_digit ascii_word (text "1:abcdefghij-- 2:abcde-----"))
  = "[REDACTED_TOKEN]-- 2:abcde-----".
Proof. reflexivity. Qed.


Lemma filter_keeps_colon_free_witness :
  redact ascii_digit ascii_word (text "hello world") = text "hello world"
  /\ filter ascii_digit ascii_word unit no_percent (plain_record "hello world")
     = Runner.Return (true, plain_record "hello world").
Proof.
  apply (filter_keeps_colon_free ascii_digit ascii_word unit no_percent
           (fun c _ => eq_refl)
           (plain_record "hello world") (text "hello world")).
  - reflexivity.
  - cbn. intuition discriminate.
Defined.

End Logging.
